(** * VRC camera control: OSC codec, camera state, frame demuxer and relay

    A shallow embedding of the algorithmic core of [server.js] and
    [spout-bridge.js], and the properties stated about it.

    Conventions of the embedding.
    - A Node [Buffer] is a [list Z] of bytes; offsets are [Z], because
      [parseOscMessage] can drive its offset below zero.
    - A JavaScript string is identified with the byte sequence of its UTF-8
      encoding, so that [Buffer.from(str)] and [buf.toString('utf8', a, b)]
      move the same bytes.  This is exact for ASCII text (bytes 1 to 127),
      which is what OSC addresses and type tags are.  It is not exact beyond:
      [toString] replaces an invalid byte sequence by U+FFFD, and
      [Buffer.from] writes a lone surrogate as [EF BF BD].  Statements that
      compare text before encoding with text after decoding are therefore
      made on ASCII text only; the others speak of the bytes on the wire.
    - A value written by [writeFloatBE] or returned by [readFloatBE] is a
      single-precision float, represented by its 32-bit pattern; the narrowing
      of a double to single precision is outside the codec model.  Where the
      numeric value matters (the zoom clamp), the pattern is widened to a
      binary64 primitive float, which is what a JavaScript number is. *)

From Stdlib Require Import String Ascii DecimalString.
From Stdlib Require Import ZArith List Bool Lia Floats.
Import ListNotations.
Open Scope Z_scope.

(** ** Node Buffer primitives *)

Module Buf.

Definition Buffer := list Z.

Definition blen (b : Buffer) : Z := Z.of_nat (length b).

(** [Math.ceil(offset / 4) * 4] on an integer offset. *)
Definition ceil4 (offset : Z) : Z := ((offset + 3) / 4) * 4.

(** The bytes [s, e) of a buffer, for [0 <= s]. *)
Definition range (b : Buffer) (s e : Z) : Buffer :=
  firstn (Z.to_nat (e - s)) (skipn (Z.to_nat s) b).

(** Index of the first zero byte of a list. *)
Fixpoint find0 (l : list Z) : option nat :=
  match l with
  | [] => None
  | x :: r => if x =? 0 then Some O else option_map S (find0 r)
  end.

(** [buf.indexOf(0, byteOffset)]: a negative offset counts from the end of the
    buffer (and from the start when it reaches before it); an offset at or
    past the end finds nothing. *)
Definition indexOf0 (b : Buffer) (byteOffset : Z) : Z :=
  let len := blen b in
  if (0 <=? byteOffset) && (len <? byteOffset + 1) then -1
  else
    let start :=
      if byteOffset <? 0
      then (if 0 <=? byteOffset + len then byteOffset + len else 0)
      else byteOffset in
    match find0 (skipn (Z.to_nat start) b) with
    | Some k => start + Z.of_nat k
    | None => -1
    end.

(** [buf.toString('utf8', start, end)]: the bytes of the range, which are
    the characters of the string when they are ASCII. *)
Definition toString (b : Buffer) (start end_ : Z) : list Z :=
  let len := blen b in
  if (0 <? start) && (len <=? start) then []
  else
    let s := if start <=? 0 then 0 else start in
    let e := if len <? end_ then len else end_ in
    if e <=? s then [] else range b s e.

(** [adjustOffset] of [Buffer.prototype.slice]. *)
Definition adjustOffset (offset len : Z) : Z :=
  if offset <? 0 then Z.max 0 (offset + len)
  else if offset <? len then offset else len.

(** [buf.slice(start, end)]. *)
Definition slice (b : Buffer) (start end_ : Z) : Buffer :=
  let len := blen b in
  let s := adjustOffset start len in
  let e := adjustOffset end_ len in
  if s <? e then range b s e else [].

(** [buf[i]]: [None] is [undefined]. *)
Definition byteAt (b : Buffer) (i : Z) : option Z :=
  if i <? 0 then None else nth_error b (Z.to_nat i).

(** [first << 24] as a signed 32-bit integer, for a byte [first]. *)
Definition shl24 (first : Z) : Z :=
  let v := first * 2 ^ 24 in
  if 2 ^ 31 <=? v then v - 2 ^ 32 else v.

(** [buf.readInt32BE(offset)]; [None] is the [RangeError] raised when the first
    or the last byte is out of bounds. *)
Definition readInt32BE (b : Buffer) (offset : Z) : option Z :=
  match byteAt b offset, byteAt b (offset + 3) with
  | Some first, Some last =>
      match byteAt b (offset + 1), byteAt b (offset + 2) with
      | Some b1, Some b2 =>
          Some (shl24 first + b1 * 2 ^ 16 + b2 * 2 ^ 8 + last)
      | _, _ => None
      end
  | _, _ => None
  end.

(** [buf.readFloatBE(offset)], as the 32-bit pattern of the float read. *)
Definition readFloatBE (b : Buffer) (offset : Z) : option Z :=
  match byteAt b offset, byteAt b (offset + 3) with
  | Some first, Some last =>
      match byteAt b (offset + 1), byteAt b (offset + 2) with
      | Some b1, Some b2 =>
          Some (first * 2 ^ 24 + b1 * 2 ^ 16 + b2 * 2 ^ 8 + last)
      | _, _ => None
      end
  | _, _ => None
  end.

(** The four bytes of a 32-bit word, most significant first. *)
Definition be32 (w : Z) : Buffer :=
  [ (w / 2 ^ 24) mod 256; (w / 2 ^ 16) mod 256; (w / 2 ^ 8) mod 256; w mod 256 ].

End Buf.
Import Buf.

(** ** OSC codec ([server.js]) *)

Module Osc.

(** Type-tag characters. *)
Definition ch_comma : Z := 44.
Definition ch_f : Z := 102.
Definition ch_i : Z := 105.
Definition ch_s : Z := 115.
Definition ch_b : Z := 98.
Definition ch_T : Z := 84.
Definition ch_F : Z := 70.

(** [function pad4(n) { return (4 - (n % 4)) % 4; }] *)
Definition pad4 (n : Z) : Z := Z.rem (4 - Z.rem n 4) 4.

(** [Buffer.alloc(n)]. *)
Definition alloc (n : Z) : Buffer := repeat 0 (Z.to_nat n).

(** [writePaddedString(str)]: the string, a NUL, and zero padding. *)
Definition writePaddedString (str : list Z) : Buffer :=
  let s := str ++ [0] in
  let pad := pad4 (blen s) in
  if pad =? 0 then s else s ++ alloc pad.

(** [floatToBuffer(f)], on the 32-bit pattern of the float. *)
Definition floatToBuffer (bits : Z) : Buffer := be32 bits.

(** [intToBuffer(i)]: [writeInt32BE] raises a [RangeError] ([None]) outside
    the signed 32-bit range. *)
Definition intToBuffer (i : Z) : option Buffer :=
  if (i <? - 2 ^ 31) || (2 ^ 31 - 1 <? i) then None else Some (be32 (i mod 2 ^ 32)).

(** An outbound argument together with its type code: element [i] of the
    parallel arrays [types] and [args] of [buildOscMessage], for the type
    codes the encoder supports natively.  The value already has the type its
    code names, so [Number(a)] and [String(a)] are the identity; ['T'] and
    ['F'] ignore [args[i]]. *)
Inductive osc_arg :=
| ArgFloat (bits : Z)
| ArgInt (n : Z)
| ArgString (s : list Z)
| ArgTrue
| ArgFalse.

Definition type_code (a : osc_arg) : Z :=
  match a with
  | ArgFloat _ => ch_f
  | ArgInt _ => ch_i
  | ArgString _ => ch_s
  | ArgTrue => ch_T
  | ArgFalse => ch_F
  end.

(** The buffer pushed on [argBufs] for one argument ([None]: exception). *)
Definition argBuf (a : osc_arg) : option Buffer :=
  match a with
  | ArgFloat bits => Some (floatToBuffer bits)
  | ArgInt n => intToBuffer n
  | ArgString s => Some (writePaddedString s)
  | ArgTrue | ArgFalse => Some []
  end.

(** The loop of [buildOscMessage], concatenated. *)
Fixpoint argBufs (args : list osc_arg) : option Buffer :=
  match args with
  | [] => Some []
  | a :: rest =>
      match argBuf a with
      | None => None
      | Some x =>
          match argBufs rest with
          | None => None
          | Some y => Some (x ++ y)
          end
      end
  end.

(** [writePaddedString(',' + types.join(''))]. *)
Definition typeBuf (types : list Z) : Buffer := writePaddedString (ch_comma :: types).

(** [buildOscMessage(address, types, args)]. *)
Definition buildOscMessage (address : list Z) (args : list osc_arg) : option Buffer :=
  let addressBuf := writePaddedString address in
  let tb := typeBuf (map type_code args) in
  match argBufs args with
  | None => None
  | Some bs => Some (addressBuf ++ tb ++ bs)
  end.

(** A decoded argument. *)
Inductive osc_value :=
| VFloat (bits : Z)
| VInt (n : Z)
| VString (s : list Z)
| VBlob (b : Buffer).

Record osc_message := mkMessage {
  address : list Z;
  types : list Z;
  args : list osc_value
}.

(** The three ways [parseOscMessage] ends: an object, [null], or a
    [RangeError] raised by a read at an offset outside the buffer. *)
Inductive parse_result :=
| Parsed (m : osc_message)
| Null
| Throws.

(** The argument loop of [parseOscMessage]: one iteration per type character
    while [offset < buffer.length]; [Some args] when the loop ends or breaks,
    [None] when a read throws. *)
Fixpoint parse_args (buffer : Buffer) (types : list Z) (offset : Z)
    (args : list osc_value) : option (list osc_value) :=
  match types with
  | [] => Some args
  | type :: rest =>
      if offset <? blen buffer then
        if type =? ch_f then
          if blen buffer <? offset + 4 then Some args
          else match readFloatBE buffer offset with
               | None => None
               | Some v => parse_args buffer rest (offset + 4) (args ++ [VFloat v])
               end
        else if type =? ch_i then
          if blen buffer <? offset + 4 then Some args
          else match readInt32BE buffer offset with
               | None => None
               | Some v => parse_args buffer rest (offset + 4) (args ++ [VInt v])
               end
        else if type =? ch_s then
          let strEnd := indexOf0 buffer offset in
          if strEnd =? -1 then Some args
          else parse_args buffer rest (ceil4 (strEnd + 1))
                 (args ++ [VString (toString buffer offset strEnd)])
        else if type =? ch_b then
          if blen buffer <? offset + 4 then Some args
          else match readInt32BE buffer offset with
               | None => None
               | Some blobSize =>
                   let offset := offset + 4 in
                   if blen buffer <? offset + blobSize then Some args
                   else parse_args buffer rest (ceil4 (offset + blobSize))
                          (args ++ [VBlob (slice buffer offset (offset + blobSize))])
               end
        else parse_args buffer rest offset args
      else Some args
  end.

(** [parseOscMessage(buffer)]. *)
Definition parseOscMessage (buffer : Buffer) : parse_result :=
  let addressEnd := indexOf0 buffer 0 in
  if addressEnd =? -1 then Null
  else
    let address := toString buffer 0 addressEnd in
    let offset := ceil4 (addressEnd + 1) in
    if blen buffer <=? offset then Parsed (mkMessage address [] [])
    else
      let typeTagEnd := indexOf0 buffer offset in
      if typeTagEnd =? -1 then Null
      else
        let typeTag := toString buffer offset typeTagEnd in
        let offset := ceil4 (typeTagEnd + 1) in
        let types := tl typeTag in
        match parse_args buffer types offset [] with
        | Some args => Parsed (mkMessage address types args)
        | None => Throws
        end.

(** The values [parseOscMessage] is expected to return for an outbound
    argument list: ['T'] and ['F'] carry no argument data. *)
Definition arg_value (a : osc_arg) : list osc_value :=
  match a with
  | ArgFloat bits => [VFloat bits]
  | ArgInt n => [VInt n]
  | ArgString s => [VString s]
  | ArgTrue | ArgFalse => []
  end.

Definition arg_values (args : list osc_arg) : list osc_value := flat_map arg_value args.

(** Arguments the wire format can carry: a float is a 32-bit pattern, an
    integer is in the signed 32-bit range, a string has no NUL character. *)
Definition wf_arg (a : osc_arg) : Prop :=
  match a with
  | ArgFloat bits => 0 <= bits < 2 ^ 32
  | ArgInt n => - 2 ^ 31 <= n < 2 ^ 31
  | ArgString s => Forall (fun c => c <> 0) s
  | ArgTrue | ArgFalse => True
  end.

(** ASCII text without NUL: every character is one byte, from 1 to 127, and
    [Buffer.from] and [toString] are inverse of each other on it. *)
Definition ascii_text (s : list Z) : Prop := Forall (fun c => 0 < c < 128) s.

(** Arguments whose text is ASCII: as [wf_arg], with ASCII strings. *)
Definition ascii_arg (a : osc_arg) : Prop :=
  match a with
  | ArgFloat bits => 0 <= bits < 2 ^ 32
  | ArgInt n => - 2 ^ 31 <= n < 2 ^ 31
  | ArgString s => ascii_text s
  | ArgTrue | ArgFalse => True
  end.

End Osc.
Import Osc.

(** ** Camera state ([server.js]) *)

Module Camera.

(** The bytes of an ASCII string literal. *)
Definition bytes_of (s : string) : list Z :=
  map (fun a => Z.of_N (N_of_ascii a)) (list_ascii_of_string s).

(** A JavaScript number is a binary64 float. *)
Definition number := float.

(** The number denoted by a single-precision bit pattern (what [readFloatBE]
    hands to the caller); the widening to double precision is exact. *)
Definition float32_to_number (bits : Z) : number :=
  let sign := 2 ^ 31 <=? bits in
  let e := (bits / 2 ^ 23) mod 256 in
  let m := bits mod 2 ^ 23 in
  if e =? 255 then
    if m =? 0 then (if sign then neg_infinity else infinity) else nan
  else if e =? 0 then
    if m =? 0 then (if sign then neg_zero else zero)
    else SF2Prim (S754_finite sign (Z.to_pos m) (-149))
  else SF2Prim (S754_finite sign (Z.to_pos (m + 2 ^ 23)) (e - 150)).

(** The number denoted by a signed 32-bit integer. *)
Definition int32_to_number (n : Z) : number :=
  if n <? 0 then (- of_uint63 (Uint63.of_Z (- n)))%float
  else of_uint63 (Uint63.of_Z n).

(** [Math.min] and [Math.max] on two numbers: NaN if either is NaN.  (The
    order of the two zeros is not modelled; every call has a non-zero
    constant as one argument.) *)
Definition Math_min (a b : number) : number :=
  if is_nan a || is_nan b then nan else if (a <? b)%float then a else b.

Definition Math_max (a b : number) : number :=
  if is_nan a || is_nan b then nan else if (a <? b)%float then b else a.

(** The camera state, restricted to its zoom scalar: the six pose components
    are written by the same handlers and never read where zoom is computed. *)
Record state := mkState { zoom : number }.

(** [const state = { ..., zoom: 45 }]. *)
Definition initial : state := mkState 45%float.

(** The fields of a [/api/move] body that reach zoom; [Some v] when
    [typeof body.f === 'number']. *)
Record move_body := mkBody {
  absolute : bool;
  body_zoom : option number;
  body_dzoom : option number
}.

(** The [/api/move] handler, up to the clamp that follows the update. *)
Definition api_move (st : state) (body : move_body) : state :=
  let z :=
    if absolute body then
      match body_zoom body with
      | Some v => Math_max 20%float (Math_min 150%float v)
      | None => zoom st
      end
    else
      match body_dzoom body with
      | Some d => (zoom st + d)%float
      | None => zoom st
      end in
  let z := if (z <? 20)%float then 20%float else z in
  let z := if (150 <? z)%float then 150%float else z in
  mkState z.

(** [ToNumber] of a decoded argument, as [Math.min] applies it.  The
    conversion of a string (or of a blob, through its string form) is a
    parameter. *)
Definition to_number (string_to_number : list Z -> number) (v : osc_value) : number :=
  match v with
  | VFloat bits => float32_to_number bits
  | VInt n => int32_to_number n
  | VString s => string_to_number s
  | VBlob b => string_to_number b
  end.

Definition list_eqb (a b : list Z) : bool :=
  if list_eq_dec Z.eq_dec a b then true else false.

(** The ['message'] handler of [oscReceiver], on the zoom scalar.  A [null]
    result returns early and an exception is caught by the handler, both
    before any assignment. *)
Definition osc_message (string_to_number : list Z -> number) (st : state)
    (msg : Buffer) : state :=
  match parseOscMessage msg with
  | Null | Throws => st
  | Parsed m =>
      if list_eqb (address m) (bytes_of "/usercamera/Pose")
         && (6 <=? length (args m))%nat then st
      else if list_eqb (address m) (bytes_of "/usercamera/Zoom") then
        match args m with
        | a0 :: _ =>
            mkState (Math_max 20%float (Math_min 150%float (to_number string_to_number a0)))
        | [] => st
        end
      else st
  end.

(** One mutation of the camera state. *)
Inductive mutation :=
| Move (body : move_body)
| OscIn (msg : Buffer).

Definition apply (string_to_number : list Z -> number) (st : state) (m : mutation) : state :=
  match m with
  | Move body => api_move st body
  | OscIn msg => osc_message string_to_number st msg
  end.

(** [20 <= zoom <= 150]. *)
Definition in_range (st : state) : bool :=
  ((20 <=? zoom st) && (zoom st <=? 150))%float.

End Camera.

(** ** Frame demuxer ([spout-bridge.js]) *)

Module Demux.

(** Indices of the demuxer are never negative, so they are [nat], and the
    [-1] of [indexOf] is [None]. *)

(** Does the list start with the two bytes [a], [b]? *)
Definition starts2 (a b : Z) (l : list Z) : bool :=
  match l with
  | x :: y :: _ => (x =? a) && (y =? b)
  | _ => false
  end.

(** Index of the first occurrence of the bytes [a], [b] in a list. *)
Fixpoint find2 (a b : Z) (l : list Z) : option nat :=
  match l with
  | [] => None
  | _ :: r => if starts2 a b l then Some O else option_map S (find2 a b r)
  end.

(** [buffer.indexOf(Buffer.from([a, b]), byteOffset)]. *)
Definition indexOf2 (a b : Z) (buffer : Buffer) (byteOffset : nat) : option nat :=
  option_map (fun k => (byteOffset + k)%nat) (find2 a b (skipn byteOffset buffer)).

(** [buffer.slice(start)] and [buffer.slice(start, end)] for
    [0 <= start <= end]. *)
Definition slice_from (buffer : Buffer) (start : nat) : Buffer := skipn start buffer.

Definition slice (buffer : Buffer) (start end_ : nat) : Buffer :=
  firstn (end_ - start) (skipn start buffer).

(** The [while (startIndex < buffer.length)] loop of the ['data'] handler.
    The result is the variable [buffer] (reassigned by the two [break]
    branches), [startIndex], and the frames assigned to [currentFrameBuffer],
    oldest first.  [fuel] bounds the number of iterations. *)
Fixpoint scan (fuel : nat) (buffer : Buffer) (startIndex : nat) (frames : list Buffer)
    : option (Buffer * nat * list Buffer) :=
  match fuel with
  | O => None
  | S fuel' =>
      if (startIndex <? length buffer)%nat then
        match indexOf2 255 216 buffer startIndex with
        | None => Some (slice_from buffer startIndex, startIndex, frames)
        | Some jpegStart =>
            match indexOf2 255 217 buffer (jpegStart + 2) with
            | None => Some (slice_from buffer jpegStart, startIndex, frames)
            | Some jpegEnd =>
                let frameEnd := (jpegEnd + 2)%nat in
                let frame := slice buffer jpegStart frameEnd in
                scan fuel' buffer frameEnd (frames ++ [frame])
            end
        end
      else Some (buffer, startIndex, frames)
  end.

(** The statement after the loop: [buffer] is sliced by [startIndex] when
    [startIndex < buffer.length], and emptied otherwise. *)
Definition finish (r : Buffer * nat * list Buffer) : Buffer * list Buffer :=
  let '(buffer, startIndex, frames) := r in
  (if (startIndex <? length buffer)%nat then slice_from buffer startIndex else [], frames).

(** The ['data'] handler of [captureProcess.stdout]: the new [buffer] and the
    frames completed by this chunk. *)
Definition on_data (buffer chunk : Buffer) : option (Buffer * list Buffer) :=
  let buffer := buffer ++ chunk in
  option_map finish (scan (S (length buffer)) buffer 0 []).

(** The handler run on a sequence of chunks, from a given [buffer]. *)
Fixpoint feed (buffer : Buffer) (chunks : list Buffer) : option (Buffer * list Buffer) :=
  match chunks with
  | [] => Some (buffer, [])
  | c :: rest =>
      match on_data buffer c with
      | None => None
      | Some (buffer', frames) =>
          match feed buffer' rest with
          | None => None
          | Some (buffer'', frames') => Some (buffer'', frames ++ frames')
          end
      end
  end.

(** A stream delivered one byte per chunk. *)
Definition bytewise (stream : list Z) : list Buffer := map (fun x => [x]) stream.

(** A complete image: it opens with the start marker and closes with the end
    marker. *)
Definition is_frame (f : Buffer) : Prop :=
  (exists body, f = 255 :: 216 :: body) /\ (exists body, f = body ++ [255; 217]).

(** The two shapes of [buffer] between single-byte chunks: no start marker
    in it yet, or a start marker at its head and no end marker after it. *)
Definition no_start (b : Buffer) : Prop := find2 255 216 b = None.

Definition in_flight (b : Buffer) : Prop :=
  starts2 255 216 b = true /\ find2 255 217 (skipn 2 b) = None.

Definition resting (b : Buffer) : Prop := no_start b \/ in_flight b.

Definition suffix_of (x y : Buffer) : Prop := exists d, y = d ++ x.

End Demux.

Import Demux.

(** ** Frame relay: the latest-frame slot and the viewers ([spout-bridge.js]) *)

Module Relay.

(** [currentFrameBuffer] after the assignments of one ['data'] call. *)
Definition assign_frames (currentFrameBuffer : option Buffer) (frames : list Buffer)
    : option Buffer :=
  fold_left (fun _ frame => Some frame) frames currentFrameBuffer.

Definition crlf : string := String (ascii_of_nat 13) (String (ascii_of_nat 10) EmptyString).

(** The template text [${n}] of a length. *)
Definition decimal (n : nat) : string := NilEmpty.string_of_uint (Nat.to_uint n).

(** One argument of [res.write]. *)
Inductive written :=
| Text (s : string)
| Bytes (b : Buffer).

(** The five writes of one multipart segment. *)
Definition segment (frame : Buffer) : list written :=
  [ Text ("--frame" ++ crlf)%string;
    Text ("Content-Type: image/jpeg" ++ crlf)%string;
    Text ("Content-Length: " ++ decimal (length frame) ++ crlf ++ crlf)%string;
    Bytes frame;
    Text crlf ].

(** [sendFrame()]: what one call writes to the viewer's response. *)
Definition sendFrame (currentFrameBuffer : option Buffer) : list written :=
  match currentFrameBuffer with
  | None => []
  | Some frame => if (0 <? length frame)%nat then segment frame else []
  end.

(** The bridge between two events: the demuxer's [buffer] and the shared
    [currentFrameBuffer] ([None] is [null]). *)
Record bridge := mkBridge {
  buffer : Buffer;
  currentFrameBuffer : option Buffer
}.

Definition initial : bridge := mkBridge [] None.

(** Events of the bridge: a chunk from the capture process, or a timer tick
    of one viewer. *)
Inductive event :=
| Data (chunk : Buffer)
| Tick (viewer : nat).

(** One event: the next bridge and what was written, to which viewer. *)
Definition step (b : bridge) (e : event) : option (bridge * list (nat * list written)) :=
  match e with
  | Data chunk =>
      match on_data (buffer b) chunk with
      | None => None
      | Some (buffer', frames) =>
          Some (mkBridge buffer' (assign_frames (currentFrameBuffer b) frames), [])
      end
  | Tick viewer => Some (b, [(viewer, sendFrame (currentFrameBuffer b))])
  end.

Fixpoint run (b : bridge) (events : list event)
    : option (bridge * list (nat * list written)) :=
  match events with
  | [] => Some (b, [])
  | e :: rest =>
      match step b e with
      | None => None
      | Some (b', out) =>
          match run b' rest with
          | None => None
          | Some (b'', out') => Some (b'', out ++ out')
          end
      end
  end.

(** The chunks among the events, in order. *)
Fixpoint chunks_of (events : list event) : list Buffer :=
  match events with
  | [] => []
  | Data chunk :: rest => chunk :: chunks_of rest
  | Tick _ :: rest => chunks_of rest
  end.

End Relay.

(** ** Capture source probing ([spout-bridge.js]) *)

Module Probe.

(** The variables of one [tryDirectSpoutCapture] call, and the two globals
    it shares with the rest of the bridge. *)
Record probe := mkProbe {
  captureProcess : bool;                 (* not [null] *)
  buffer : Buffer;
  hasReceivedFrames : bool;
  errorOccurred : bool;
  testTimeout : bool;                    (* armed, not cleared *)
  frameCount : nat;
  currentFrameBuffer : option Buffer
}.

(** After [spawn], before any event. *)
Definition started (currentFrameBuffer : option Buffer) : probe :=
  mkProbe true [] false false true 0 currentFrameBuffer.

(** Events the call has handlers for.  [StderrData flagged]: whether the
    message contains one of the error words; [ProcessExit code]: [None] is a
    [null] exit code. *)
Inductive event :=
| StdoutData (chunk : Buffer)
| StderrData (flagged : bool)
| ProcessError
| ProcessExit (code : option Z)
| TestTimeout.

Definition step (p : probe) (e : event) : option probe :=
  match e with
  | StdoutData chunk =>
      match on_data (buffer p) chunk with
      | None => None
      | Some (buffer', frames) =>
          Some (mkProbe (captureProcess p) buffer' true (errorOccurred p) false
                  (frameCount p + length frames)
                  (Relay.assign_frames (currentFrameBuffer p) frames))
      end
  | StderrData flagged =>
      Some (mkProbe (captureProcess p) (buffer p) (hasReceivedFrames p)
              (errorOccurred p || flagged) (testTimeout p) (frameCount p)
              (currentFrameBuffer p))
  | ProcessError =>
      Some (mkProbe false (buffer p) (hasReceivedFrames p) true (testTimeout p)
              (frameCount p) (currentFrameBuffer p))
  | ProcessExit code =>
      let failed := match code with Some c => negb (c =? 0) | None => false end in
      Some (mkProbe false (buffer p) (hasReceivedFrames p)
              (errorOccurred p || failed || negb (hasReceivedFrames p)) false
              (frameCount p) (currentFrameBuffer p))
  | TestTimeout =>
      if testTimeout p then
        Some (mkProbe (captureProcess p) (buffer p) (hasReceivedFrames p)
                (errorOccurred p || (negb (hasReceivedFrames p) && captureProcess p))
                false (frameCount p) (currentFrameBuffer p))
      else Some p
  end.

Fixpoint run (p : probe) (events : list event) : option probe :=
  match events with
  | [] => Some p
  | e :: rest =>
      match step p e with
      | None => None
      | Some p' => run p' rest
      end
  end.

(** The chunks the backend wrote on its standard output, in order. *)
Fixpoint stdout_chunks (events : list event) : list Buffer :=
  match events with
  | [] => []
  | StdoutData chunk :: rest => chunk :: stdout_chunks rest
  | _ :: rest => stdout_chunks rest
  end.

(** The test of the 2000 ms timer: the value the promise resolves to. *)
Definition working (p : probe) : bool :=
  hasReceivedFrames p && negb (errorOccurred p) && captureProcess p.

(** [tryDirectSpoutCapture]: the events handled before the 2000 ms timer
    fires, then its verdict, with the probe as the timer finds it. *)
Definition tryDirectSpoutCapture (currentFrameBuffer : option Buffer) (events : list event)
    : option (bool * probe) :=
  match run (started currentFrameBuffer) events with
  | None => None
  | Some p => Some (working p, p)
  end.

(** The stage of the automatic mode that answers [true].
    [ObsCameraMode] is [startOBSCameraCaptureMode], which starts an OBS
    camera, another camera, or a desktop capture of its own;
    [DesktopFallback] is the last call of [startDesktopCapture]. *)
Inductive stage :=
| DirectSpout
| HttpStream
| ObsCameraMode
| DesktopFallback.

(** The promise chain of the automatic mode of [startSpoutCapture], from
    what each stage meets: the events of the direct probe; whether
    [startStreamCapture()] returned [true] and the chunks its parser gets
    before the 3000 ms check; the results of [startOBSCameraCaptureMode] and
    of the last [startDesktopCapture].  The result is the stage that answered
    [true], [None] when the promise resolves to [false].  The chain is what
    the function returns once it has found ffmpeg; before that it returns
    [false] without a promise and without probing anything, and the two
    manual modes return the result of one stage directly. *)
Definition startSpoutCapture (direct : list event) (streamStarted : bool)
    (stream : list Buffer) (obsResult desktopResult : bool) : option (option stage) :=
  match tryDirectSpoutCapture None direct with
  | None => None
  | Some (true, _) => Some (Some DirectSpout)
  | Some (false, p) =>
      let next := if obsResult then Some ObsCameraMode
                  else if desktopResult then Some DesktopFallback else None in
      if streamStarted then
        match feed [] stream with
        | None => None
        | Some (_, frames) =>
            match Relay.assign_frames (currentFrameBuffer p) frames with
            | Some frame =>
                if (0 <? length frame)%nat then Some (Some HttpStream) else Some next
            | None => Some next
            end
        end
      else Some next
  end.

End Probe.

(** ** Frames, as the demuxer cuts them *)

Module Frames.

(** A frame as the loop cuts it: the two markers, and no end marker in
    between. *)
Definition delimited (f : Buffer) : Prop :=
  exists body,
    f = 255 :: 216 :: body ++ [255; 217] /\
    find2 255 217 (body ++ [255; 217]) = Some (length body).

(** Frames laid out in a byte sequence, each after a gap of other bytes:
    [g1 ++ f1 ++ g2 ++ f2 ++ ...]. *)
Fixpoint laid_out (gaps frames : list Buffer) : list Z :=
  match gaps, frames with
  | g :: gaps', f :: frames' => g ++ f ++ laid_out gaps' frames'
  | _, _ => []
  end.

End Frames.
Import Frames.

(** ** OSC messages, as the codec lays them out *)

Module OscLayout.

(** The type character a decoded value was read under. *)
Definition value_code (v : osc_value) : Z :=
  match v with
  | VFloat _ => ch_f
  | VInt _ => ch_i
  | VString _ => ch_s
  | VBlob _ => ch_b
  end.

(** The type characters that carry argument data. *)
Definition carries_data (type : Z) : bool :=
  (type =? ch_f) || (type =? ch_i) || (type =? ch_s) || (type =? ch_b).

(** Number of bytes an outbound argument takes on the wire. *)
Definition arg_size (a : osc_arg) : Z :=
  match a with
  | ArgFloat _ | ArgInt _ => 4
  | ArgString s => ceil4 (blen s + 1)
  | ArgTrue | ArgFalse => 0
  end.

Definition args_size (args : list osc_arg) : Z :=
  fold_right (fun a n => arg_size a + n) 0 args.

(** An integer argument outside the signed 32-bit range. *)
Definition overflows (a : osc_arg) : Prop :=
  match a with
  | ArgInt n => n < - 2 ^ 31 \/ 2 ^ 31 <= n
  | _ => False
  end.

End OscLayout.
Import OscLayout.

(** ** Camera moves: JSON bodies, and the earlier field-of-view server *)

Module Moves.

Import Camera.

(** The numbers of a [/api/move] body that reach zoom are not NaN.
    [JSON.parse] never yields NaN: a JSON number is finite, or overflows to an
    infinity. *)
Definition nan_free (body : move_body) : Prop :=
  (forall v, body_zoom body = Some v -> is_nan v = false) /\
  (forall d, body_dzoom body = Some d -> is_nan d = false).

(** The earlier server (field of view instead of zoom, no OSC receiver):
    [const state = { ..., fov: 60 }]. *)
Record fov_state := mkFov { fov : number }.

Definition fov_initial : fov_state := mkFov 60%float.

Record fov_body := mkFovBody {
  fov_absolute : bool;
  body_fov : option number;
  body_dfov : option number
}.

(** Its [/api/move] handler: the update, then the two tests
    [if (state.fov < 1) state.fov = 1; if (state.fov > 179) state.fov = 179]. *)
Definition fov_move (st : fov_state) (body : fov_body) : fov_state :=
  let z :=
    if fov_absolute body then
      match body_fov body with
      | Some v => v
      | None => fov st
      end
    else
      match body_dfov body with
      | Some d => (fov st + d)%float
      | None => fov st
      end in
  let z := if (z <? 1)%float then 1%float else z in
  let z := if (179 <? z)%float then 179%float else z in
  mkFov z.

Definition fov_in_range (st : fov_state) : bool :=
  ((1 <=? fov st) && (fov st <=? 179))%float.

Definition fov_nan_free (body : fov_body) : Prop :=
  (forall v, body_fov body = Some v -> is_nan v = false) /\
  (forall d, body_dfov body = Some d -> is_nan d = false).

End Moves.
Import Moves.

(** ** Probe events, read as a whole *)

Module ProbeSpec.

Import Probe.

(** No event that marks the probe as failed: no process error, no exit, no
    flagged error message. *)
Fixpoint quiet (events : list event) : bool :=
  match events with
  | [] => true
  | StdoutData _ :: rest => quiet rest
  | StderrData flagged :: rest => negb flagged && quiet rest
  | ProcessError :: _ => false
  | ProcessExit _ :: _ => false
  | TestTimeout :: rest => quiet rest
  end.

(** A chunk of output arrives, and before the no-output timer fires. *)
Fixpoint output_first (events : list event) : bool :=
  match events with
  | [] => false
  | StdoutData _ :: _ => true
  | TestTimeout :: _ => false
  | _ :: rest => output_first rest
  end.

End ProbeSpec.
Import ProbeSpec.

(** * Properties *)

(** ** Buffers *)

Section BufferFacts.

Lemma blen_app (a b : Buffer) : blen (a ++ b) = blen a + blen b.
Proof. unfold blen. rewrite length_app. lia. Qed.

Lemma blen_nonneg (a : Buffer) : 0 <= blen a.
Proof. unfold blen. lia. Qed.

Lemma blen_cons (x : Z) (a : Buffer) : blen (x :: a) = 1 + blen a.
Proof. unfold blen. simpl length. lia. Qed.

Lemma blen_nil : blen [] = 0.
Proof. reflexivity. Qed.

Lemma skipn_blen_app (pre l : Buffer) : skipn (Z.to_nat (blen pre)) (pre ++ l) = l.
Proof.
  unfold blen. rewrite Nat2Z.id.
  rewrite skipn_app, skipn_all, Nat.sub_diag. reflexivity.
Qed.

Lemma find0_app_nul (s rest : list Z) :
  Forall (fun c => c <> 0) s -> find0 (s ++ 0 :: rest) = Some (length s).
Proof.
  induction 1 as [|c s Hc Hs IH]; simpl.
  - reflexivity.
  - destruct (Z.eqb_spec c 0) as [E|_]; [contradiction|].
    rewrite IH. reflexivity.
Qed.

Lemma find0_sound (l : list Z) (k : nat) :
  find0 l = Some k -> (k < length l)%nat /\ nth_error l k = Some 0.
Proof.
  revert k. induction l as [|x l IH]; simpl; intros k H.
  - discriminate.
  - destruct (Z.eqb_spec x 0) as [E|N].
    + inversion H; subst. simpl. split; [lia|reflexivity].
    + destruct (find0 l) as [j|]; simpl in H; [|discriminate].
      inversion H; subst. destruct (IH j eq_refl) as [Hl Hn].
      simpl. split; [lia|exact Hn].
Qed.

Lemma find0_none (l : list Z) : find0 l = None <-> Forall (fun c => c <> 0) l.
Proof.
  induction l as [|x l IH]; simpl.
  - split; [constructor|reflexivity].
  - destruct (Z.eqb_spec x 0) as [E|N].
    + split; [discriminate|]. intros H. inversion H; subst. contradiction.
    + destruct (find0 l) as [j|]; simpl.
      * split; [discriminate|]. intros H. inversion H; subst.
        destruct IH as [_ IH]. specialize (IH H3). discriminate.
      * split; [|reflexivity]. intros _. constructor; [exact N|]. apply IH. reflexivity.
Qed.

(** In a buffer [pre ++ s ++ 0 :: rest] with [s] free of NUL, the search from
    the end of [pre] stops at the end of [s]. *)
Lemma indexOf0_app (pre s rest : Buffer) :
  Forall (fun c => c <> 0) s ->
  indexOf0 (pre ++ s ++ 0 :: rest) (blen pre) = blen pre + blen s.
Proof.
  intros Hs. unfold indexOf0.
  pose proof (blen_nonneg pre) as Hp. pose proof (blen_nonneg s) as Hs'.
  pose proof (blen_nonneg rest) as Hr.
  rewrite !blen_app, blen_cons.
  destruct (Z.leb_spec 0 (blen pre)); [|lia].
  destruct (Z.ltb_spec (blen pre + (blen s + (1 + blen rest))) (blen pre + 1)); [lia|].
  simpl andb. cbv iota.
  destruct (Z.ltb_spec (blen pre) 0); [lia|].
  rewrite skipn_blen_app, find0_app_nul by assumption.
  reflexivity.
Qed.

Lemma range_app (pre s rest : Buffer) :
  range (pre ++ s ++ rest) (blen pre) (blen pre + blen s) = s.
Proof.
  unfold range. rewrite skipn_blen_app.
  replace (blen pre + blen s - blen pre) with (blen s) by lia.
  unfold blen. rewrite Nat2Z.id, firstn_app, firstn_all, Nat.sub_diag.
  simpl. apply app_nil_r.
Qed.

Lemma toString_app (pre s rest : Buffer) :
  toString (pre ++ s ++ rest) (blen pre) (blen pre + blen s) = s.
Proof.
  unfold toString.
  pose proof (blen_nonneg pre) as Hp. pose proof (blen_nonneg s) as Hs.
  pose proof (blen_nonneg rest) as Hr.
  rewrite !blen_app.
  assert (Hnil : blen s = 0 -> s = []).
  { unfold blen. destruct s; simpl; [reflexivity|lia]. }
  destruct (Z.ltb_spec 0 (blen pre)); destruct (Z.leb_spec (blen pre + (blen s + blen rest)) (blen pre));
    simpl andb; cbv iota.
  - symmetry. apply Hnil. lia.
  - destruct (Z.leb_spec (blen pre) 0); [lia|].
    destruct (Z.ltb_spec (blen pre + (blen s + blen rest)) (blen pre + blen s)); [lia|].
    destruct (Z.leb_spec (blen pre + blen s) (blen pre)).
    + symmetry. apply Hnil. lia.
    + apply range_app.
  - destruct (Z.leb_spec (blen pre) 0); [|lia].
    destruct (Z.ltb_spec (blen pre + (blen s + blen rest)) (blen pre + blen s)); [lia|].
    destruct (Z.leb_spec (blen pre + blen s) 0).
    + symmetry. apply Hnil. lia.
    + replace 0 with (blen pre) at 1 by lia. apply range_app.
  - destruct (Z.leb_spec (blen pre) 0); [|lia].
    destruct (Z.ltb_spec (blen pre + (blen s + blen rest)) (blen pre + blen s)); [lia|].
    destruct (Z.leb_spec (blen pre + blen s) 0).
    + symmetry. apply Hnil. lia.
    + replace 0 with (blen pre) at 1 by lia. apply range_app.
Qed.

Lemma byteAt_app (pre l : Buffer) (k : nat) :
  byteAt (pre ++ l) (blen pre + Z.of_nat k) = nth_error l k.
Proof.
  unfold byteAt. pose proof (blen_nonneg pre).
  destruct (Z.ltb_spec (blen pre + Z.of_nat k) 0); [lia|].
  unfold blen. rewrite <- Nat2Z.inj_add, Nat2Z.id.
  rewrite nth_error_app2 by lia. f_equal. lia.
Qed.

End BufferFacts.

(** ** 32-bit words and padding *)

Section WordFacts.

Lemma byteAt_word (pre rest : Buffer) (a b c d : Z) :
  let buf := pre ++ [a; b; c; d] ++ rest in
  byteAt buf (blen pre) = Some a /\ byteAt buf (blen pre + 1) = Some b /\
  byteAt buf (blen pre + 2) = Some c /\ byteAt buf (blen pre + 3) = Some d.
Proof.
  intros buf. unfold buf.
  pose proof (byteAt_app pre ([a; b; c; d] ++ rest) 0) as H0.
  pose proof (byteAt_app pre ([a; b; c; d] ++ rest) 1) as H1.
  pose proof (byteAt_app pre ([a; b; c; d] ++ rest) 2) as H2.
  pose proof (byteAt_app pre ([a; b; c; d] ++ rest) 3) as H3.
  simpl in H0, H1, H2, H3. rewrite Z.add_0_r in H0. auto.
Qed.

Lemma be32_value (w : Z) :
  0 <= w < 2 ^ 32 ->
  (w / 2 ^ 24) mod 256 * 2 ^ 24 + (w / 2 ^ 16) mod 256 * 2 ^ 16
    + (w / 2 ^ 8) mod 256 * 2 ^ 8 + w mod 256 = w.
Proof.
  change (2 ^ 32) with 4294967296. change (2 ^ 24) with 16777216.
  change (2 ^ 16) with 65536. change (2 ^ 8) with 256.
  intros H. Z.to_euclidean_division_equations. lia.
Qed.

Lemma readFloatBE_be32 (pre rest : Buffer) (w : Z) :
  0 <= w < 2 ^ 32 ->
  readFloatBE (pre ++ be32 w ++ rest) (blen pre) = Some w.
Proof.
  intros H. unfold readFloatBE, be32.
  destruct (byteAt_word pre rest ((w / 2 ^ 24) mod 256) ((w / 2 ^ 16) mod 256)
              ((w / 2 ^ 8) mod 256) (w mod 256)) as (E0 & E1 & E2 & E3).
  rewrite E0, E1, E2, E3. f_equal. apply be32_value, H.
Qed.

Lemma int32_value (n : Z) :
  - 2 ^ 31 <= n < 2 ^ 31 ->
  let w := n mod 2 ^ 32 in
  shl24 ((w / 2 ^ 24) mod 256) + (w / 2 ^ 16) mod 256 * 2 ^ 16
    + (w / 2 ^ 8) mod 256 * 2 ^ 8 + w mod 256 = n.
Proof.
  intros H w. unfold shl24.
  assert (Hw : 0 <= w < 2 ^ 32) by (apply Z.mod_pos_bound; reflexivity).
  pose proof (be32_value w Hw) as Hv. fold w in Hv.
  assert (Hn : n = w \/ n = w - 2 ^ 32).
  { unfold w. change (2 ^ 32) with 4294967296 in *. change (2 ^ 31) with 2147483648 in *.
    Z.to_euclidean_division_equations. lia. }
  assert (Hsign : 2 ^ 31 <= (w / 2 ^ 24) mod 256 * 2 ^ 24 <-> 2 ^ 31 <= w).
  { change (2 ^ 32) with 4294967296 in *. change (2 ^ 31) with 2147483648 in *.
    change (2 ^ 24) with 16777216 in *. change (2 ^ 16) with 65536 in *.
    change (2 ^ 8) with 256 in *.
    Z.to_euclidean_division_equations. lia. }
  destruct (Z.leb_spec (2 ^ 31) ((w / 2 ^ 24) mod 256 * 2 ^ 24)) as [L|L].
  - apply Hsign in L. lia.
  - assert (w < 2 ^ 31) by (destruct (Z.lt_ge_cases w (2 ^ 31)); [assumption|]; apply Hsign in H0; lia).
    lia.
Qed.

Lemma readInt32BE_be32 (pre rest : Buffer) (n : Z) :
  - 2 ^ 31 <= n < 2 ^ 31 ->
  readInt32BE (pre ++ be32 (n mod 2 ^ 32) ++ rest) (blen pre) = Some n.
Proof.
  intros H. unfold readInt32BE, be32.
  set (w := n mod 2 ^ 32).
  destruct (byteAt_word pre rest ((w / 2 ^ 24) mod 256) ((w / 2 ^ 16) mod 256)
              ((w / 2 ^ 8) mod 256) (w mod 256)) as (E0 & E1 & E2 & E3).
  rewrite E0, E1, E2, E3. f_equal. apply int32_value, H.
Qed.

Lemma intToBuffer_some (n : Z) (b : Buffer) :
  intToBuffer n = Some b -> - 2 ^ 31 <= n < 2 ^ 31 /\ b = be32 (n mod 2 ^ 32).
Proof.
  unfold intToBuffer.
  destruct (Z.ltb_spec n (- 2 ^ 31)); destruct (Z.ltb_spec (2 ^ 31 - 1) n);
    simpl; intros E; try discriminate.
  inversion E. split; [lia|reflexivity].
Qed.

Lemma intToBuffer_in_range (n : Z) :
  - 2 ^ 31 <= n < 2 ^ 31 -> intToBuffer n = Some (be32 (n mod 2 ^ 32)).
Proof.
  intros H. unfold intToBuffer.
  destruct (Z.ltb_spec n (- 2 ^ 31)); [lia|].
  destruct (Z.ltb_spec (2 ^ 31 - 1) n); [lia|]. reflexivity.
Qed.

Lemma pad4_spec (n : Z) : 0 <= n -> 0 <= pad4 n < 4 /\ n + pad4 n = ceil4 n.
Proof.
  intros H. unfold pad4, ceil4.
  Z.to_euclidean_division_equations. lia.
Qed.

Lemma ceil4_multiple (n : Z) : ceil4 n mod 4 = 0.
Proof. unfold ceil4. apply Z.mod_mul. discriminate. Qed.

Lemma blen_alloc (n : Z) : 0 <= n -> blen (alloc n) = n.
Proof. intros H. unfold blen, alloc. rewrite repeat_length. lia. Qed.

(** The shape of a padded string: the text, its NUL, and zero bytes. *)
Lemma writePaddedString_shape (str : list Z) :
  writePaddedString str = str ++ 0 :: alloc (pad4 (blen str + 1)).
Proof.
  unfold writePaddedString. rewrite blen_app. change (blen [0]) with 1.
  destruct (Z.eqb_spec (pad4 (blen str + 1)) 0) as [E|N].
  - rewrite E. reflexivity.
  - rewrite <- app_assoc. reflexivity.
Qed.

Lemma writePaddedString_app (str : list Z) (rest : Buffer) :
  writePaddedString str ++ rest = str ++ 0 :: (alloc (pad4 (blen str + 1)) ++ rest).
Proof. rewrite writePaddedString_shape, <- app_assoc. reflexivity. Qed.

Lemma blen_writePaddedString (str : list Z) :
  blen (writePaddedString str) = ceil4 (blen str + 1).
Proof.
  rewrite writePaddedString_shape, blen_app, blen_cons.
  pose proof (blen_nonneg str) as Hs.
  destruct (pad4_spec (blen str + 1)) as [Hp He]; [lia|].
  rewrite blen_alloc by lia. lia.
Qed.

End WordFacts.

(** ** OSC codec *)

Section OscFacts.

Lemma ceil4_shift (p n : Z) : p mod 4 = 0 -> ceil4 (p + n) = p + ceil4 n.
Proof. unfold ceil4. intros H. Z.to_euclidean_division_equations. lia. Qed.

(** One iteration of the argument loop, by type character. *)
Lemma parse_args_float (buffer : Buffer) (rest : list Z) (offset v : Z) (acc : list osc_value) :
  offset < blen buffer -> offset + 4 <= blen buffer ->
  readFloatBE buffer offset = Some v ->
  parse_args buffer (ch_f :: rest) offset acc
  = parse_args buffer rest (offset + 4) (acc ++ [VFloat v]).
Proof.
  intros H1 H2 H3. simpl.
  destruct (Z.ltb_spec offset (blen buffer)); [|lia].
  destruct (Z.ltb_spec (blen buffer) (offset + 4)); [lia|].
  rewrite H3. reflexivity.
Qed.

Lemma parse_args_int (buffer : Buffer) (rest : list Z) (offset v : Z) (acc : list osc_value) :
  offset < blen buffer -> offset + 4 <= blen buffer ->
  readInt32BE buffer offset = Some v ->
  parse_args buffer (ch_i :: rest) offset acc
  = parse_args buffer rest (offset + 4) (acc ++ [VInt v]).
Proof.
  intros H1 H2 H3. simpl.
  destruct (Z.ltb_spec offset (blen buffer)); [|lia].
  destruct (Z.ltb_spec (blen buffer) (offset + 4)); [lia|].
  rewrite H3. reflexivity.
Qed.

Lemma parse_args_string (buffer : Buffer) (rest : list Z) (offset : Z) (acc : list osc_value) :
  offset < blen buffer -> indexOf0 buffer offset <> -1 ->
  parse_args buffer (ch_s :: rest) offset acc
  = parse_args buffer rest (ceil4 (indexOf0 buffer offset + 1))
      (acc ++ [VString (toString buffer offset (indexOf0 buffer offset))]).
Proof.
  intros H1 H2. simpl.
  destruct (Z.ltb_spec offset (blen buffer)); [|lia].
  destruct (Z.eqb_spec (indexOf0 buffer offset) (-1)); [contradiction|].
  reflexivity.
Qed.

Lemma parse_args_skip (buffer : Buffer) (type : Z) (rest : list Z) (offset : Z)
    (acc : list osc_value) :
  offset < blen buffer ->
  type <> ch_f -> type <> ch_i -> type <> ch_s -> type <> ch_b ->
  parse_args buffer (type :: rest) offset acc = parse_args buffer rest offset acc.
Proof.
  intros H1 Hf Hi Hs Hb. simpl.
  destruct (Z.ltb_spec offset (blen buffer)); [|lia].
  destruct (Z.eqb_spec type ch_f); [contradiction|].
  destruct (Z.eqb_spec type ch_i); [contradiction|].
  destruct (Z.eqb_spec type ch_s); [contradiction|].
  destruct (Z.eqb_spec type ch_b); [contradiction|].
  reflexivity.
Qed.

Lemma parse_args_end (buffer : Buffer) (types : list Z) (offset : Z) (acc : list osc_value) :
  blen buffer <= offset -> parse_args buffer types offset acc = Some acc.
Proof.
  intros H. destruct types as [|t rest]; simpl; [reflexivity|].
  destruct (Z.ltb_spec offset (blen buffer)); [lia|reflexivity].
Qed.

Lemma blen_zero_nil (b : Buffer) : blen b <= 0 -> b = [].
Proof. destruct b; [reflexivity|]. rewrite blen_cons. pose proof (blen_nonneg b). lia. Qed.

Lemma blen_be32 (w : Z) : blen (be32 w) = 4.
Proof. reflexivity. Qed.

Lemma writePaddedString_positive (str : list Z) : 0 < blen (writePaddedString str).
Proof.
  rewrite writePaddedString_shape, blen_app, blen_cons.
  pose proof (blen_nonneg str). pose proof (blen_nonneg (alloc (pad4 (blen str + 1)))). lia.
Qed.

(** Arguments that put no byte on the wire leave no decoded value. *)
Lemma argBufs_empty (args : list osc_arg) :
  argBufs args = Some [] -> arg_values args = [].
Proof.
  induction args as [|a rest IH]; simpl; [reflexivity|].
  destruct (argBuf a) as [x|] eqn:Ea; [|discriminate].
  destruct (argBufs rest) as [y|] eqn:Er; [|discriminate].
  intros E. inversion E as [E']. apply app_eq_nil in E'. destruct E' as [-> ->].
  unfold arg_values in *. simpl. rewrite (IH eq_refl), app_nil_r.
  destruct a; simpl in Ea; try reflexivity.
  - discriminate.
  - apply intToBuffer_some in Ea. destruct Ea as [_ Ea]. discriminate.
  - inversion Ea as [E0]. pose proof (writePaddedString_positive s) as Hp.
    rewrite E0 in Hp. discriminate.
Qed.

(** The argument loop reads back what [argBufs] wrote, from any offset that
    is a multiple of 4. *)
Lemma parse_args_argBufs (args : list osc_arg) :
  forall (pre bs : Buffer) (acc : list osc_value),
    blen pre mod 4 = 0 ->
    Forall wf_arg args ->
    argBufs args = Some bs ->
    parse_args (pre ++ bs) (map type_code args) (blen pre) acc
    = Some (acc ++ arg_values args).
Proof.
  induction args as [|a rest IH]; intros pre bs acc Hpre Hwf Hbs.
  - simpl. rewrite app_nil_r. reflexivity.
  - destruct (Z.le_gt_cases (blen (pre ++ bs)) (blen pre)) as [Hend|Hmore].
    + rewrite parse_args_end by assumption.
      rewrite blen_app in Hend.
      assert (bs = []) by (apply blen_zero_nil; lia). subst bs.
      rewrite (argBufs_empty _ Hbs), app_nil_r. reflexivity.
    + simpl in Hbs.
      destruct (argBuf a) as [x|] eqn:Ea; [|discriminate].
      destruct (argBufs rest) as [y|] eqn:Er; [|discriminate].
      inversion Hbs; subst bs. clear Hbs.
      inversion Hwf as [|? ? Hwa Hwr]; subst.
      assert (Hnext : forall acc', blen x mod 4 = 0 ->
                parse_args ((pre ++ x) ++ y) (map type_code rest) (blen pre + blen x) acc'
                = Some (acc' ++ arg_values rest)).
      { intros acc' Hx. rewrite <- blen_app. apply IH; [|assumption|reflexivity].
        rewrite blen_app, Z.add_mod, Hpre, Hx by discriminate. reflexivity. }
      unfold arg_values. simpl map. simpl flat_map. fold (arg_values rest).
      destruct a; simpl in Ea, Hwa.
      * inversion Ea; subst x. unfold floatToBuffer in *.
        rewrite parse_args_float with (v := bits).
        -- rewrite app_assoc. change (blen pre + 4) with (blen pre + blen (be32 bits)).
           rewrite Hnext by reflexivity. rewrite <- app_assoc. reflexivity.
        -- assumption.
        -- rewrite !blen_app, blen_be32. pose proof (blen_nonneg y). lia.
        -- apply readFloatBE_be32. assumption.
      * apply intToBuffer_some in Ea. destruct Ea as [_ ->].
        rewrite parse_args_int with (v := n).
        -- rewrite app_assoc. change (blen pre + 4) with (blen pre + blen (be32 (n mod 2 ^ 32))).
           rewrite Hnext by reflexivity. rewrite <- app_assoc. reflexivity.
        -- assumption.
        -- rewrite !blen_app, blen_be32. pose proof (blen_nonneg y). lia.
        -- apply readInt32BE_be32. assumption.
      * inversion Ea; subst x.
        assert (Hidx : indexOf0 (pre ++ writePaddedString s ++ y) (blen pre) = blen pre + blen s).
        { rewrite writePaddedString_app. apply indexOf0_app. assumption. }
        pose proof (blen_nonneg pre) as Hp0. pose proof (blen_nonneg s) as Hs0.
        rewrite parse_args_string; [|assumption|rewrite Hidx; lia].
        rewrite Hidx.
        replace (toString (pre ++ writePaddedString s ++ y) (blen pre) (blen pre + blen s)) with s.
        2:{ rewrite writePaddedString_shape, <- app_assoc. symmetry. apply toString_app. }
        rewrite <- Z.add_assoc, ceil4_shift by assumption.
        rewrite <- blen_writePaddedString.
        rewrite app_assoc, Hnext.
        -- rewrite <- app_assoc. reflexivity.
        -- rewrite blen_writePaddedString. apply ceil4_multiple.
      * inversion Ea; subst x. simpl app in *.
        rewrite parse_args_skip; try discriminate; [|assumption].
        apply IH; [assumption|assumption|reflexivity].
      * inversion Ea; subst x. simpl app in *.
        rewrite parse_args_skip; try discriminate; [|assumption].
        apply IH; [assumption|assumption|reflexivity].
Qed.

Lemma type_codes_nonzero (args : list osc_arg) :
  Forall (fun c => c <> 0) (ch_comma :: map type_code args).
Proof.
  constructor; [discriminate|].
  induction args as [|a rest IH]; simpl; constructor; [|exact IH].
  destruct a; discriminate.
Qed.

(** Decoding an encoded message: the general statement behind the round
    trip. *)
Lemma parse_build (address : list Z) (args : list osc_arg) (buf : Buffer) :
  Forall (fun c => c <> 0) address ->
  Forall wf_arg args ->
  buildOscMessage address args = Some buf ->
  parseOscMessage buf = Parsed (mkMessage address (map type_code args) (arg_values args)).
Proof.
  intros Haddr Hwf Hbuild. unfold buildOscMessage in Hbuild.
  destruct (argBufs args) as [bs|] eqn:Ebs; [|discriminate].
  inversion Hbuild; subst buf. clear Hbuild.
  set (A := writePaddedString address). set (T := typeBuf (map type_code args)).
  pose proof (blen_nonneg address) as Ha0.
  assert (HA : blen A = ceil4 (blen address + 1)) by apply blen_writePaddedString.
  assert (HAm : blen A mod 4 = 0) by (rewrite HA; apply ceil4_multiple).
  assert (HT : 0 < blen T) by apply writePaddedString_positive.
  assert (HTm : blen T mod 4 = 0).
  { unfold T, typeBuf. rewrite blen_writePaddedString. apply ceil4_multiple. }
  unfold parseOscMessage.
  assert (E1 : indexOf0 (A ++ T ++ bs) 0 = blen address).
  { unfold A. rewrite writePaddedString_app.
    exact (indexOf0_app [] address _ Haddr). }
  rewrite E1.
  destruct (Z.eqb_spec (blen address) (-1)); [lia|].
  assert (E2 : toString (A ++ T ++ bs) 0 (blen address) = address).
  { unfold A. rewrite writePaddedString_shape, <- app_assoc.
    exact (toString_app [] address _). }
  rewrite E2, <- HA.
  destruct (Z.leb_spec (blen (A ++ T ++ bs)) (blen A)) as [L|_].
  { rewrite !blen_app in L. pose proof (blen_nonneg bs). lia. }
  set (tag := ch_comma :: map type_code args).
  assert (E3 : indexOf0 (A ++ T ++ bs) (blen A) = blen A + blen tag).
  { unfold T, typeBuf. fold tag. rewrite writePaddedString_app.
    apply indexOf0_app. apply type_codes_nonzero. }
  rewrite E3. pose proof (blen_nonneg A) as HA0. pose proof (blen_nonneg tag) as Ht0.
  destruct (Z.eqb_spec (blen A + blen tag) (-1)); [lia|].
  assert (E4 : toString (A ++ T ++ bs) (blen A) (blen A + blen tag) = tag).
  { unfold T, typeBuf. fold tag. rewrite writePaddedString_shape, <- app_assoc.
    apply toString_app. }
  rewrite E4. simpl tl.
  rewrite <- Z.add_assoc, ceil4_shift by assumption.
  replace (ceil4 (blen tag + 1)) with (blen T)
    by (unfold T, typeBuf; fold tag; apply blen_writePaddedString).
  rewrite <- blen_app, app_assoc.
  rewrite parse_args_argBufs; [reflexivity| |assumption|assumption].
  rewrite blen_app, Z.add_mod, HAm, HTm by discriminate. reflexivity.
Qed.

Lemma argBufs_total (args : list osc_arg) :
  Forall wf_arg args -> exists bs, argBufs args = Some bs.
Proof.
  induction 1 as [|a rest Ha _ [y IH]]; simpl.
  - eexists; reflexivity.
  - rewrite IH. destruct a; simpl in *; try (eexists; reflexivity).
    rewrite intToBuffer_in_range by assumption. eexists; reflexivity.
Qed.

Lemma ascii_text_no_nul (s : list Z) : ascii_text s -> Forall (fun c => c <> 0) s.
Proof. apply Forall_impl. intros c H. lia. Qed.

Lemma ascii_arg_wf (a : osc_arg) : ascii_arg a -> wf_arg a.
Proof. destruct a; simpl; auto. apply ascii_text_no_nul. Qed.

End OscFacts.

Section OscClaims.

(** A padded block of any text: the text, its NUL, and fewer than four
    zero bytes, the least number that makes the length a multiple of 4. *)
Lemma padded_block (text : list Z) :
  exists pad : nat,
    (pad < 4)%nat /\
    writePaddedString text = text ++ 0 :: repeat 0 pad /\
    blen (text ++ 0 :: repeat 0 pad) mod 4 = 0.
Proof.
  pose proof (blen_nonneg text) as Hs.
  destruct (pad4_spec (blen text + 1)) as [Hp He]; [lia|].
  exists (Z.to_nat (pad4 (blen text + 1))). split; [lia|].
  split; [apply writePaddedString_shape|].
  fold (alloc (pad4 (blen text + 1))).
  rewrite <- writePaddedString_shape, blen_writePaddedString. apply ceil4_multiple.
Qed.

(** C9.  Padding invariant.  An encoded message is three parts in a row: the
    address block, which is the address text, one NUL and fewer than four
    zero bytes of padding; the type-tag block, which is the comma, the type
    characters, one NUL and fewer than four zero bytes of padding; and the
    argument bytes.  Each of the two blocks has a length that is a multiple
    of 4.  The type-tag block of any type list whatever has this shape. *)
Theorem encoded_blocks_are_padded (address : list Z) (args : list osc_arg) (buf : Buffer) :
  buildOscMessage address args = Some buf ->
  (exists (padA padT : nat) (argBytes : Buffer),
     let addressBlock := address ++ 0 :: repeat 0 padA in
     let typeTagBlock := ch_comma :: map type_code args ++ 0 :: repeat 0 padT in
     buf = addressBlock ++ typeTagBlock ++ argBytes /\
     argBufs args = Some argBytes /\
     (padA < 4)%nat /\ (padT < 4)%nat /\
     blen addressBlock mod 4 = 0 /\ blen typeTagBlock mod 4 = 0) /\
  (forall types : list Z,
     exists padT : nat,
       (padT < 4)%nat /\
       typeBuf types = ch_comma :: types ++ 0 :: repeat 0 padT /\
       blen (typeBuf types) mod 4 = 0).
Proof.
  intros H. split.
  - unfold buildOscMessage in H. destruct (argBufs args) as [bs|] eqn:Ea; [|discriminate].
    inversion H; subst buf. clear H.
    destruct (padded_block address) as (pa & Ha & Ea1 & Ea2).
    destruct (padded_block (ch_comma :: map type_code args)) as (pt & Ht & Et1 & Et2).
    exists pa, pt, bs. cbv zeta. unfold typeBuf. rewrite Ea1, Et1.
    repeat split; assumption.
  - intros types. destruct (padded_block (ch_comma :: types)) as (pt & Ht & Et1 & Et2).
    exists pt. unfold typeBuf. rewrite Et1. repeat split; assumption.
Qed.

(** The message [/ab ,is 7 "hi"]: the address [/ab] with its NUL fills four
    bytes and takes no padding; the tag [,is] with its NUL fills four bytes
    as well; the address [/a] takes two bytes of padding. *)
Lemma encoded_blocks_are_padded_witness :
  buildOscMessage [47; 97; 98] [ArgInt 7; ArgString [104; 105]]
  = Some ([47; 97; 98; 0] ++ [44; 105; 115; 0] ++ [0; 0; 0; 7; 104; 105; 0; 0]) /\
  buildOscMessage [47; 97] [] = Some ([47; 97; 0; 0] ++ [44; 0; 0; 0] ++ []) /\
  exists (padA padT : nat) (argBytes : Buffer),
    [47; 97; 0; 0; 44; 0; 0; 0] = ([47; 97] ++ 0 :: repeat 0 padA)
                                  ++ (ch_comma :: [] ++ 0 :: repeat 0 padT) ++ argBytes /\
    (padA < 4)%nat /\ (padT < 4)%nat.
Proof.
  split; [reflexivity|]. split; [reflexivity|].
  destruct (encoded_blocks_are_padded [47; 97] [] [47; 97; 0; 0; 44; 0; 0; 0] eq_refl)
    as [(padA & padT & argBytes & E & _ & Ha & Ht & _) _].
  exists padA, padT, argBytes. split; [exact E|]. split; [exact Ha|exact Ht].
Defined.

(** C1, as amended.  For an address of ASCII characters other than NUL and
    arguments of type f, i, s, T, F that the wire format can carry (32-bit
    float patterns, integers in the signed 32-bit range, strings of ASCII
    characters other than NUL), encoding succeeds and decoding the bytes
    gives back the address, the type list and the argument values in order,
    floats bit for bit; [T] and [F] carry no value and come back in the type
    list only. *)
Theorem osc_round_trip (address : list Z) (args : list osc_arg) :
  ascii_text address ->
  Forall ascii_arg args ->
  exists buf,
    buildOscMessage address args = Some buf /\
    parseOscMessage buf = Parsed (mkMessage address (map type_code args) (arg_values args)).
Proof.
  intros Hascii Hargs.
  assert (Haddr : Forall (fun c => c <> 0) address) by exact (ascii_text_no_nul address Hascii).
  assert (Hwf : Forall wf_arg args).
  { apply (Forall_impl wf_arg ascii_arg_wf). exact Hargs. }
  destruct (argBufs_total args Hwf) as [bs Hbs].
  exists (writePaddedString address ++ typeBuf (map type_code args) ++ bs).
  assert (E : buildOscMessage address args
              = Some (writePaddedString address ++ typeBuf (map type_code args) ++ bs)).
  { unfold buildOscMessage. rewrite Hbs. reflexivity. }
  split; [exact E|]. apply parse_build; assumption.
Qed.

(** The round trip on [/a] with a float (1.5), an integer, a string and the
    two booleans. *)
Lemma osc_round_trip_witness :
  let address := [47; 97] in
  let args := [ArgFloat 1069547520; ArgInt (-5); ArgString [104; 105]; ArgTrue; ArgFalse] in
  ascii_text address /\
  Forall ascii_arg args /\
  exists buf,
    buildOscMessage address args = Some buf /\
    parseOscMessage buf = Parsed (mkMessage address (map type_code args) (arg_values args)).
Proof.
  intros address args.
  assert (Ha : ascii_text address) by (repeat constructor).
  assert (Hw : Forall ascii_arg args).
  { repeat constructor; simpl; lia. }
  split; [exact Ha|]. split; [exact Hw|].
  exact (osc_round_trip address args Ha Hw).
Defined.

(** C1 as stated fails on an address with an embedded NUL: [/\0a] is encoded
    as [2F 00 61 00 2C 00 00 00] and decoded with the address [/]. *)
Lemma osc_round_trip_fails_on_nul :
  ~ (forall (address : list Z) (args : list osc_arg) (buf : Buffer),
       buildOscMessage address args = Some buf ->
       parseOscMessage buf = Parsed (mkMessage address (map type_code args) (arg_values args))).
Proof.
  intros H. specialize (H [47; 0; 97] [] [47; 0; 97; 0; 44; 0; 0; 0] eq_refl).
  vm_compute in H. discriminate H.
Qed.

(** [parseOscMessage] returns [null] exactly when the address has no NUL, or
    bytes follow the address block and none of them is NUL. *)
Lemma parse_null_iff (buffer : Buffer) :
  parseOscMessage buffer = Null <->
  indexOf0 buffer 0 = -1 \/
  (ceil4 (indexOf0 buffer 0 + 1) < blen buffer /\
   indexOf0 buffer (ceil4 (indexOf0 buffer 0 + 1)) = -1).
Proof.
  unfold parseOscMessage.
  destruct (Z.eqb_spec (indexOf0 buffer 0) (-1)) as [E|N].
  - split; [left; exact E|reflexivity].
  - destruct (Z.leb_spec (blen buffer) (ceil4 (indexOf0 buffer 0 + 1))) as [L|L].
    + split; [discriminate|]. intros [E|[L' _]]; [contradiction|lia].
    + destruct (Z.eqb_spec (indexOf0 buffer (ceil4 (indexOf0 buffer 0 + 1))) (-1)) as [E|N'].
      * split; [right; split; assumption|reflexivity].
      * destruct (parse_args _ _ _ _); (split; [discriminate|]);
          intros [E|[_ E]]; contradiction.
Qed.

(** C4.  The datagram [/a\0\0 ,bf\0 FF FF FF F0] has both NUL terminators,
    yet decoding it neither succeeds nor returns [null]: the blob size -16
    passes the bounds test, the offset becomes -4, and [readFloatBE(-4)]
    raises a [RangeError]. *)
Theorem parse_negative_blob_size_throws :
  let datagram := [47; 97; 0; 0; 44; 98; 102; 0; 255; 255; 255; 240] in
  indexOf0 datagram 0 = 2 /\
  indexOf0 datagram 4 = 7 /\
  readInt32BE datagram 8 = Some (-16) /\
  readFloatBE datagram (ceil4 (12 + -16)) = None /\
  parseOscMessage datagram = Throws.
Proof. repeat split. Qed.

(** C10.  When both NUL terminators are found, the datagram is never rejected
    for its type tag: the first character of the tag is dropped without
    being looked at, and the rest is the type list the argument loop runs
    on. *)
Theorem type_tag_first_char_discarded (buffer : Buffer) :
  indexOf0 buffer 0 <> -1 ->
  ceil4 (indexOf0 buffer 0 + 1) < blen buffer ->
  indexOf0 buffer (ceil4 (indexOf0 buffer 0 + 1)) <> -1 ->
  let offset := ceil4 (indexOf0 buffer 0 + 1) in
  let typeTag := toString buffer offset (indexOf0 buffer offset) in
  parseOscMessage buffer <> Null /\
  parseOscMessage buffer
  = match parse_args buffer (tl typeTag) (ceil4 (indexOf0 buffer offset + 1)) [] with
    | Some args => Parsed (mkMessage (toString buffer 0 (indexOf0 buffer 0)) (tl typeTag) args)
    | None => Throws
    end.
Proof.
  intros H1 H2 H3 offset typeTag.
  split.
  - intros E. apply parse_null_iff in E. destruct E as [E|[_ E]]; contradiction.
  - unfold parseOscMessage.
    destruct (Z.eqb_spec (indexOf0 buffer 0) (-1)); [contradiction|].
    destruct (Z.leb_spec (blen buffer) (ceil4 (indexOf0 buffer 0 + 1))); [lia|].
    destruct (Z.eqb_spec (indexOf0 buffer (ceil4 (indexOf0 buffer 0 + 1))) (-1));
      [contradiction|].
    reflexivity.
Qed.

(** A tag [fi] without its comma: the [f] is dropped and the four argument
    bytes are read as the integer 1. *)
Lemma type_tag_first_char_discarded_witness :
  let buffer := [47; 97; 0; 0; 102; 105; 0; 0; 0; 0; 0; 1] in
  indexOf0 buffer 0 <> -1 /\
  ceil4 (indexOf0 buffer 0 + 1) < blen buffer /\
  indexOf0 buffer (ceil4 (indexOf0 buffer 0 + 1)) <> -1 /\
  parseOscMessage buffer <> Null /\
  parseOscMessage buffer = Parsed (mkMessage [47; 97] [105] [VInt 1]).
Proof.
  intros buffer.
  assert (H1 : indexOf0 buffer 0 <> -1) by (vm_compute; discriminate).
  assert (H2 : ceil4 (indexOf0 buffer 0 + 1) < blen buffer) by (vm_compute; reflexivity).
  assert (H3 : indexOf0 buffer (ceil4 (indexOf0 buffer 0 + 1)) <> -1)
    by (vm_compute; discriminate).
  destruct (type_tag_first_char_discarded buffer H1 H2 H3) as [Hn He].
  split; [exact H1|]. split; [exact H2|]. split; [exact H3|]. split; [exact Hn|].
  rewrite He. reflexivity.
Defined.

End OscClaims.

(** ** Camera state *)

Section CameraFacts.

Import Camera.

Lemma SFcompare_swap (x y : spec_float) :
  SFcompare y x = option_map CompOpp (SFcompare x y).
Proof.
  destruct x as [sx|sx| |sx mx ex], y as [sy|sy| |sy my ey]; simpl; try reflexivity;
    try (destruct sx; reflexivity); try (destruct sy; reflexivity);
    try (destruct sx, sy; reflexivity).
  destruct sx, sy; simpl; try reflexivity.
  - rewrite (Z.compare_antisym ex ey). destruct (ex ?= ey); simpl; try reflexivity.
    rewrite (Pos.compare_cont_antisym mx my Eq). reflexivity.
  - rewrite (Z.compare_antisym ex ey). destruct (ex ?= ey); simpl; try reflexivity.
    rewrite (Pos.compare_cont_antisym mx my Eq). reflexivity.
Qed.

Lemma SFcompare_defined (x y : spec_float) :
  x <> S754_nan -> y <> S754_nan -> exists c, SFcompare x y = Some c.
Proof.
  intros Hx Hy. destruct x, y; try contradiction; simpl; eexists; reflexivity.
Qed.

Lemma not_nan_spec (x : float) : is_nan x = false -> Prim2SF x <> S754_nan.
Proof.
  unfold is_nan. rewrite eqb_spec. unfold SFeqb. intros H E. rewrite E in H.
  simpl in H. discriminate H.
Qed.

Lemma nan_spec (x : float) : is_nan x = true -> Prim2SF x = S754_nan.
Proof. intros H. unfold Prim2SF. rewrite H. reflexivity. Qed.

(** Comparisons with NaN are false. *)
Lemma ltb_nan_l (x y : float) : is_nan x = true -> (x <? y)%float = false.
Proof. intros H. rewrite ltb_spec, (nan_spec x H). reflexivity. Qed.

Lemma ltb_nan_r (x y : float) : is_nan y = true -> (x <? y)%float = false.
Proof.
  intros H. rewrite ltb_spec, (nan_spec y H). unfold SFltb.
  destruct (Prim2SF x); reflexivity.
Qed.

(** Two numbers that are not NaN are ordered. *)
Lemma not_ltb_leb (x y : float) :
  is_nan x = false -> is_nan y = false -> (x <? y)%float = false -> (y <=? x)%float = true.
Proof.
  intros Hx Hy. rewrite ltb_spec, leb_spec. unfold SFltb, SFleb.
  rewrite (SFcompare_swap (Prim2SF x) (Prim2SF y)).
  destruct (SFcompare_defined _ _ (not_nan_spec x Hx) (not_nan_spec y Hy)) as [c ->].
  destruct c; simpl; intros H; try reflexivity; discriminate H.
Qed.

Lemma ltb_leb (x y : float) : (x <? y)%float = true -> (x <=? y)%float = true.
Proof.
  rewrite ltb_spec, leb_spec. unfold SFltb, SFleb.
  destruct (SFcompare (Prim2SF x) (Prim2SF y)) as [[| |]|]; intros H;
    try reflexivity; discriminate H.
Qed.

(** The two tests that follow the update in [/api/move] bring every number
    except NaN into the range. *)
Lemma clamp_tests (z : number) :
  let z1 := if (z <? 20)%float then 20%float else z in
  let z2 := if (150 <? z1)%float then 150%float else z1 in
  if is_nan z then is_nan z2 = true
  else ((20 <=? z2) && (z2 <=? 150))%float = true.
Proof.
  intros z1 z2. unfold z2, z1. destruct (is_nan z) eqn:Hn.
  - rewrite (ltb_nan_l z 20%float Hn), (ltb_nan_r 150%float z Hn). exact Hn.
  - destruct (z <? 20)%float eqn:E1; [reflexivity|].
    destruct (150 <? z)%float eqn:E2; [reflexivity|].
    rewrite (not_ltb_leb z 20%float Hn eq_refl E1), (not_ltb_leb 150%float z eq_refl Hn E2).
    reflexivity.
Qed.

(** [Math.max(20, Math.min(150, v))] is in the range for every [v] except NaN. *)
Lemma clamp_min_max (v : number) :
  let z := Math_max 20%float (Math_min 150%float v) in
  if is_nan v then is_nan z = true
  else ((20 <=? z) && (z <=? 150))%float = true.
Proof.
  intros z. unfold z, Math_max, Math_min. destruct (is_nan v) eqn:Hn.
  - reflexivity.
  - simpl orb. cbv iota.
    destruct (150 <? v)%float eqn:E1; simpl.
    + reflexivity.
    + rewrite Hn. simpl.
      destruct (20 <? v)%float eqn:E2.
      * rewrite (ltb_leb 20%float v E2), (not_ltb_leb 150%float v eq_refl Hn E1). reflexivity.
      * reflexivity.
Qed.

(** After a mutation the zoom is in the range, or it is NaN. *)
Lemma only_nan_escapes (string_to_number : list Z -> number) (st : state) (m : mutation) :
  in_range st = true ->
  let st' := apply string_to_number st m in
  in_range st' = true \/ is_nan (zoom st') = true.
Proof.
  intros Hst st'. unfold st'. destruct m as [body|msg]; simpl.
  - unfold api_move, in_range. simpl zoom.
    match goal with
    | |- context [ (150 <? (if (?z <? 20)%float then _ else _))%float ] =>
        pose proof (clamp_tests z) as H; cbv zeta in H; destruct (is_nan z)
    end; [right|left]; exact H.
  - unfold osc_message.
    destruct (parseOscMessage msg) as [m| |]; try (left; exact Hst).
    destruct (list_eqb (address m) (bytes_of "/usercamera/Pose") && (6 <=? length (args m))%nat);
      [left; exact Hst|].
    destruct (list_eqb (address m) (bytes_of "/usercamera/Zoom")); [|left; exact Hst].
    destruct (args m) as [|a0 rest]; [left; exact Hst|].
    unfold in_range. simpl zoom.
    pose proof (clamp_min_max (to_number string_to_number a0)) as H. cbv zeta in H.
    destruct (is_nan (to_number string_to_number a0)); [right|left]; exact H.
Qed.

End CameraFacts.

Section CameraClaims.

Import Camera.

(** C3.  An inbound [/usercamera/Zoom] message whose float is NaN (bit pattern
    7FC00000) leaves [state.zoom] at NaN: [Math.min(150, NaN)] and
    [Math.max(20, NaN)] are NaN.  The value is outside [20, 150], and a later
    [/api/move] does not bring it back, because both clamp tests are false on
    NaN. *)
Theorem osc_nan_zoom_escapes_clamp (string_to_number : list Z -> number) :
  let datagram := bytes_of "/usercamera/Zoom" ++ [0; 0; 0; 0; 44; 102; 0; 0; 127; 192; 0; 0] in
  let st1 := apply string_to_number initial (OscIn datagram) in
  let st2 := apply string_to_number st1 (Move (mkBody false None (Some 5%float))) in
  let st3 := apply string_to_number st2 (Move (mkBody true None None)) in
  parseOscMessage datagram
  = Parsed (mkMessage (bytes_of "/usercamera/Zoom") [ch_f] [VFloat 2143289344])
  /\ in_range initial = true
  /\ is_nan (zoom st1) = true /\ in_range st1 = false
  /\ is_nan (zoom st2) = true /\ in_range st2 = false
  /\ in_range st3 = false.
Proof. vm_compute. repeat split. Qed.

(** The same message with the float 100.0 is clamped as intended. *)
Example osc_zoom_in_range (string_to_number : list Z -> number) :
  let datagram := bytes_of "/usercamera/Zoom" ++ [0; 0; 0; 0; 44; 102; 0; 0; 66; 200; 0; 0] in
  zoom (apply string_to_number initial (OscIn datagram)) = 100%float
  /\ zoom (apply string_to_number initial (Move (mkBody false None (Some 1000%float)))) = 150%float
  /\ zoom (apply string_to_number initial (Move (mkBody true (Some 3%float) None))) = 20%float.
Proof. vm_compute. repeat split. Qed.

End CameraClaims.

(** ** Frame demuxer *)

Section DemuxFacts.

Lemma find2_bound (a b : Z) (l : list Z) (k : nat) :
  find2 a b l = Some k -> (k + 2 <= length l)%nat.
Proof.
  revert k. induction l as [|x l IH]; intros k H; [discriminate|].
  cbn [find2] in H. destruct (starts2 a b (x :: l)) eqn:E.
  - inversion H; subst. destruct l as [|y l]; [discriminate|]. simpl. lia.
  - destruct (find2 a b l) as [j|]; [|discriminate].
    inversion H; subst. specialize (IH j eq_refl). simpl. lia.
Qed.

(** What [find2] finds is an occurrence of the two bytes. *)
Lemma find2_sound (a b : Z) (l : list Z) (k : nat) :
  find2 a b l = Some k -> exists rest, skipn k l = a :: b :: rest.
Proof.
  revert k. induction l as [|x l IH]; intros k H; [discriminate|].
  cbn [find2] in H. destruct (starts2 a b (x :: l)) eqn:E.
  - inversion H; subst. destruct l as [|y l]; [discriminate|].
    simpl in E. apply andb_prop in E. destruct E as [E1 E2].
    apply Z.eqb_eq in E1, E2. subst. exists l. reflexivity.
  - destruct (find2 a b l) as [j|]; [|discriminate].
    inversion H; subst. exact (IH j eq_refl).
Qed.

Lemma find2_none_cons (a b x : Z) (l : list Z) :
  find2 a b (x :: l) = None <-> starts2 a b (x :: l) = false /\ find2 a b l = None.
Proof.
  cbn [find2]. destruct (starts2 a b (x :: l)).
  - split; [discriminate|]. intros [E _]. discriminate.
  - destruct (find2 a b l); simpl.
    + split; [discriminate|]. intros [_ E]. discriminate.
    + split; auto.
Qed.

(** Appending one byte to a list without the pattern creates at most one
    occurrence, and it ends at the new byte. *)
Lemma find2_snoc (a b : Z) (l : list Z) (c : Z) (k : nat) :
  find2 a b l = None -> find2 a b (l ++ [c]) = Some k ->
  (k + 1 = length l)%nat /\ skipn k (l ++ [c]) = [a; b].
Proof.
  revert k. induction l as [|x l IH]; intros k Hn Hs.
  - simpl in Hs. discriminate.
  - apply find2_none_cons in Hn. destruct Hn as [Hst Hn].
    change ((x :: l) ++ [c]) with (x :: (l ++ [c])) in *.
    cbn [find2] in Hs. destruct (starts2 a b (x :: l ++ [c])) eqn:E.
    + inversion Hs; subst. destruct l as [|y l].
      * simpl in E. apply andb_prop in E. destruct E as [E1 E2].
        apply Z.eqb_eq in E1, E2. subst. split; reflexivity.
      * simpl in E, Hst. rewrite E in Hst. discriminate.
    + destruct (find2 a b (l ++ [c])) as [j|] eqn:Ej; [|discriminate].
      inversion Hs; subst. destruct (IH j Hn eq_refl) as [H1 H2].
      split; [simpl; lia|exact H2].
Qed.

(** An occurrence at the end is found. *)
Lemma find2_app_pattern (a b : Z) (l : list Z) : find2 a b (l ++ [a; b]) <> None.
Proof.
  induction l as [|x l IH].
  - simpl. rewrite !Z.eqb_refl. discriminate.
  - change ((x :: l) ++ [a; b]) with (x :: (l ++ [a; b])). intros H.
    apply find2_none_cons in H. destruct H as [_ H]. contradiction.
Qed.

Lemma indexOf2_zero (a b : Z) (buffer : Buffer) : indexOf2 a b buffer 0 = find2 a b buffer.
Proof. unfold indexOf2. simpl. destruct (find2 a b buffer); reflexivity. Qed.

Lemma indexOf2_bound (a b : Z) (buffer : Buffer) (off k : nat) :
  indexOf2 a b buffer off = Some k -> (off <= k /\ k + 2 <= length buffer)%nat.
Proof.
  unfold indexOf2. destruct (find2 a b (skipn off buffer)) as [j|] eqn:E; [|discriminate].
  simpl. intros H. inversion H; subst. apply find2_bound in E.
  rewrite length_skipn in E. lia.
Qed.

(** The loop with its cursor at or past the end of the buffer stops. *)
Lemma scan_done (fuel : nat) (buffer : Buffer) (startIndex : nat) (frames : list Buffer) :
  (length buffer <= startIndex)%nat ->
  scan (S fuel) buffer startIndex frames = Some (buffer, startIndex, frames).
Proof.
  intros H. cbn [scan]. destruct (Nat.ltb_spec startIndex (length buffer)); [lia|reflexivity].
Qed.

(** The loop never runs out of the fuel the handler gives it. *)
Lemma scan_total (fuel : nat) :
  forall (buffer : Buffer) (startIndex : nat) (frames : list Buffer),
    (length buffer - startIndex < fuel)%nat ->
    exists r, scan fuel buffer startIndex frames = Some r.
Proof.
  induction fuel as [|fuel IH]; intros buffer startIndex frames H; [lia|].
  cbn [scan]. destruct (Nat.ltb_spec startIndex (length buffer)) as [L|L].
  - destruct (indexOf2 255 216 buffer startIndex) as [js|] eqn:Es; [|eexists; reflexivity].
    destruct (indexOf2 255 217 buffer (js + 2)) as [je|] eqn:Ee; [|eexists; reflexivity].
    apply indexOf2_bound in Es, Ee. apply IH. lia.
  - eexists; reflexivity.
Qed.

(** Every frame the loop emits opens at a start marker, has at least four
    bytes, and the frames already emitted are kept in order. *)
Lemma scan_frames (fuel : nat) :
  forall (buffer : Buffer) (startIndex : nat) (frames : list Buffer) r,
    scan fuel buffer startIndex frames = Some r ->
    exists more, snd r = frames ++ more /\ Forall (fun f => (4 <= length f)%nat) more.
Proof.
  induction fuel as [|fuel IH]; intros buffer startIndex frames r H; [discriminate|].
  cbn [scan] in H. destruct (Nat.ltb_spec startIndex (length buffer)) as [L|L].
  - destruct (indexOf2 255 216 buffer startIndex) as [js|] eqn:Es.
    + destruct (indexOf2 255 217 buffer (js + 2)) as [je|] eqn:Ee.
      * apply IH in H. destruct H as [more [E F]].
        exists (slice buffer js (je + 2) :: more). split.
        -- rewrite E, <- app_assoc. reflexivity.
        -- constructor; [|exact F].
           apply indexOf2_bound in Es, Ee. unfold slice.
           rewrite length_firstn, length_skipn. lia.
      * inversion H; subst. exists []. simpl. rewrite app_nil_r. split; [reflexivity|constructor].
    + inversion H; subst. exists []. simpl. rewrite app_nil_r. split; [reflexivity|constructor].
  - inversion H; subst. exists []. simpl. rewrite app_nil_r. split; [reflexivity|constructor].
Qed.

Lemma on_data_total (buffer chunk : Buffer) : exists r, on_data buffer chunk = Some r.
Proof.
  unfold on_data.
  destruct (scan_total (S (length (buffer ++ chunk))) (buffer ++ chunk) 0 []) as [r E]; [lia|].
  rewrite E. eexists; reflexivity.
Qed.

Lemma on_data_frames (buffer chunk buffer' : Buffer) (frames : list Buffer) :
  on_data buffer chunk = Some (buffer', frames) ->
  Forall (fun f => (4 <= length f)%nat) frames.
Proof.
  unfold on_data. destruct (scan _ _ _ _) as [[[b s] fr]|] eqn:E; [|discriminate].
  simpl. intros H. inversion H; subst.
  apply scan_frames in E. destruct E as [more [E F]]. simpl in E. subst. exact F.
Qed.

(** The handler, by the outcome of its first two searches. *)
Lemma on_data_unfold (buffer chunk : Buffer) :
  let b := buffer ++ chunk in
  on_data buffer chunk
  = match indexOf2 255 216 b 0 with
    | None => Some (b, [])
    | Some jpegStart =>
        match indexOf2 255 217 b (jpegStart + 2) with
        | None => Some (slice_from b jpegStart, [])
        | Some jpegEnd =>
            option_map finish
              (scan (length b) b (jpegEnd + 2) [slice b jpegStart (jpegEnd + 2)])
        end
    end.
Proof.
  intros b. unfold on_data. fold b. cbn [scan].
  destruct (Nat.ltb_spec 0 (length b)) as [L|L].
  - destruct (indexOf2 255 216 b 0) as [js|] eqn:Es.
    + destruct (indexOf2 255 217 b (js + 2)) as [je|] eqn:Ee; [reflexivity|].
      cbn [option_map finish]. unfold slice_from. rewrite skipn_O.
      destruct (Nat.ltb_spec 0 (length (skipn js b))) as [L'|L']; [reflexivity|].
      f_equal. f_equal. symmetry. apply length_zero_iff_nil. lia.
    + cbn [option_map finish]. unfold slice_from. rewrite !skipn_O.
      destruct (Nat.ltb_spec 0 (length b)); [reflexivity|lia].
  - assert (b = []) by (apply length_zero_iff_nil; lia).
    rewrite H. reflexivity.
Qed.

End DemuxFacts.

Section DemuxBytewise.

Lemma indexOf2_sound (a b : Z) (buffer : Buffer) (off k : nat) :
  indexOf2 a b buffer off = Some k -> exists rest, skipn k buffer = a :: b :: rest.
Proof.
  unfold indexOf2. destruct (find2 a b (skipn off buffer)) as [j|] eqn:E; [|discriminate].
  simpl. intros H. inversion H; subst. apply find2_sound in E.
  rewrite skipn_skipn in E. rewrite Nat.add_comm. exact E.
Qed.

(** A frame cut by the loop runs from a start marker through an end marker. *)
Lemma frame_shape (buffer : Buffer) (startIndex jpegStart jpegEnd : nat) :
  indexOf2 255 216 buffer startIndex = Some jpegStart ->
  indexOf2 255 217 buffer (jpegStart + 2) = Some jpegEnd ->
  exists body, slice buffer jpegStart (jpegEnd + 2) = 255 :: 216 :: body ++ [255; 217].
Proof.
  intros Hs He.
  destruct (indexOf2_sound _ _ _ _ _ Hs) as [r1 E1].
  destruct (indexOf2_sound _ _ _ _ _ He) as [r2 E2].
  apply indexOf2_bound in He. destruct He as [Hle _].
  unfold slice. rewrite E1.
  replace (jpegEnd + 2 - jpegStart)%nat with (S (S (jpegEnd - jpegStart - 2 + 2)))%nat by lia.
  cbn [firstn].
  assert (E3 : skipn (jpegEnd - jpegStart - 2) r1 = 255 :: 217 :: r2).
  { replace jpegEnd with ((jpegEnd - jpegStart - 2) + 2 + jpegStart)%nat in E2 at 1 by lia.
    rewrite <- skipn_skipn, E1, <- skipn_skipn in E2. exact E2. }
  exists (firstn (jpegEnd - jpegStart - 2) r1). f_equal. f_equal.
  rewrite <- (firstn_skipn (jpegEnd - jpegStart - 2) r1) at 1.
  rewrite E3, firstn_app, length_firstn.
  assert (Hlen : (jpegEnd - jpegStart - 2 < length r1)%nat).
  { destruct (Nat.lt_ge_cases (jpegEnd - jpegStart - 2) (length r1)) as [L|L]; [exact L|].
    rewrite skipn_all2 in E3 by exact L. discriminate. }
  rewrite firstn_firstn.
  replace (Nat.min (jpegEnd - jpegStart - 2 + 2) (jpegEnd - jpegStart - 2))
    with (jpegEnd - jpegStart - 2)%nat by lia.
  f_equal.
  replace (jpegEnd - jpegStart - 2 + 2 - Nat.min (jpegEnd - jpegStart - 2) (length r1))%nat
    with 2%nat by lia.
  reflexivity.
Qed.

Lemma snoc_inj (x y : list Z) (a b : Z) : x ++ [a] = y ++ [b] -> x = y /\ a = b.
Proof. intros H. apply app_inj_tail in H. exact H. Qed.

(** From a buffer without start marker, one byte either leaves it without
    one, or completes a marker at its end, and the buffer is cut down to that
    marker. *)
Lemma step_no_start (b : Buffer) (c : Z) :
  no_start b ->
  (no_start (b ++ [c]) /\ on_data b [c] = Some (b ++ [c], []))
  \/ (suffix_of [255; 216] (b ++ [c]) /\ on_data b [c] = Some ([255; 216], [])).
Proof.
  intros Hb. rewrite on_data_unfold, indexOf2_zero. unfold no_start in *.
  destruct (find2 255 216 (b ++ [c])) as [k|] eqn:E.
  - right. destruct (find2_snoc _ _ _ _ _ Hb E) as [Hk Hs].
    assert (Hend : indexOf2 255 217 (b ++ [c]) (k + 2) = None).
    { unfold indexOf2. rewrite skipn_all2; [reflexivity|]. rewrite length_app. simpl. lia. }
    rewrite Hend. unfold slice_from. rewrite Hs. split; [|reflexivity].
    exists (firstn k (b ++ [c])). rewrite <- Hs. symmetry. apply firstn_skipn.
  - left. split; reflexivity.
Qed.

(** From a buffer holding the head of a frame, one byte either extends it, or
    completes the end marker: the whole buffer is emitted and the buffer is
    emptied. *)
Lemma step_in_flight (b : Buffer) (c : Z) :
  in_flight b ->
  (in_flight (b ++ [c]) /\ on_data b [c] = Some (b ++ [c], []))
  \/ on_data b [c] = Some ([], [b ++ [c]]).
Proof.
  intros [Hs He]. destruct b as [|x [|y r]]; try discriminate.
  assert (x = 255 /\ y = 216) as [-> ->].
  { simpl in Hs. apply andb_prop in Hs. destruct Hs as [H1 H2].
    apply Z.eqb_eq in H1, H2. auto. }
  simpl skipn in He.
  rewrite on_data_unfold, indexOf2_zero.
  change ((255 :: 216 :: r) ++ [c]) with (255 :: 216 :: (r ++ [c])).
  assert (E0 : find2 255 216 (255 :: 216 :: r ++ [c]) = Some 0%nat) by reflexivity.
  rewrite E0. unfold indexOf2. simpl skipn.
  destruct (find2 255 217 (r ++ [c])) as [k|] eqn:E; cbn [option_map].
  - right. destruct (find2_snoc _ _ _ _ _ He E) as [Hk _].
    assert (Hlen : (0 + 2 + k + 2)%nat = length (255 :: 216 :: r ++ [c])).
    { simpl. rewrite length_app. simpl. lia. }
    rewrite Hlen.
    assert (Hpos : exists n, length (255 :: 216 :: r ++ [c]) = S n) by (eexists; reflexivity).
    destruct Hpos as [n Hn]. rewrite Hn at 1.
    rewrite scan_done by lia. cbn [option_map finish].
    rewrite Nat.ltb_irrefl. unfold slice. rewrite Nat.sub_0_r, skipn_O, firstn_all.
    reflexivity.
  - left. split; [|reflexivity]. split; [reflexivity|exact E].
Qed.

Lemma suffix_of_refl (b : Buffer) : suffix_of b b.
Proof. exists []. reflexivity. Qed.

Lemma suffix_of_length (x y : Buffer) : suffix_of x y -> (length x <= length y)%nat.
Proof. intros [d ->]. rewrite length_app. lia. Qed.

Lemma step_resting (b : Buffer) (c : Z) :
  resting b ->
  exists b' frames,
    on_data b [c] = Some (b', frames) /\ resting b' /\ suffix_of b' (b ++ [c]).
Proof.
  intros [Hb|Hb].
  - destruct (step_no_start b c Hb) as [[Hn E]|[Hs E]].
    + exists (b ++ [c]), []. split; [exact E|]. split; [left; exact Hn|apply suffix_of_refl].
    + exists [255; 216], []. split; [exact E|]. split; [|exact Hs].
      right. split; reflexivity.
  - destruct (step_in_flight b c Hb) as [[Hn E]|E].
    + exists (b ++ [c]), []. split; [exact E|]. split; [right; exact Hn|apply suffix_of_refl].
    + exists [], [b ++ [c]]. split; [exact E|]. split; [left; reflexivity|].
      exists (b ++ [c]). symmetry. apply app_nil_r.
Qed.

Lemma feed_resting (cs : list Z) :
  forall b, resting b ->
    exists b' frames,
      feed b (bytewise cs) = Some (b', frames) /\ resting b' /\ suffix_of b' (b ++ cs).
Proof.
  induction cs as [|c cs IH]; intros b Hb.
  - exists b, []. simpl. rewrite app_nil_r. split; [reflexivity|]. split; [exact Hb|apply suffix_of_refl].
  - destruct (step_resting b c Hb) as (b1 & f1 & E1 & R1 & [d1 S1]).
    destruct (IH b1 R1) as (b2 & f2 & E2 & R2 & [d2 S2]).
    exists b2, (f1 ++ f2). simpl. rewrite E1, E2. split; [reflexivity|]. split; [exact R2|].
    exists (d1 ++ d2).
    change (b ++ c :: cs) with (b ++ [c] ++ cs). rewrite app_assoc, S1, <- !app_assoc, S2.
    reflexivity.
Qed.

Lemma feed_app (xs ys : list Buffer) :
  forall b,
    feed b (xs ++ ys)
    = match feed b xs with
      | None => None
      | Some (b1, f1) =>
          match feed b1 ys with
          | None => None
          | Some (b2, f2) => Some (b2, f1 ++ f2)
          end
      end.
Proof.
  induction xs as [|x xs IH]; intros b; simpl.
  - destruct (feed b ys) as [[b2 f2]|]; reflexivity.
  - destruct (on_data b x) as [[b1 f1]|]; [|reflexivity].
    rewrite IH. destruct (feed b1 xs) as [[b2 f2]|]; [|reflexivity].
    destruct (feed b2 ys) as [[b3 f3]|]; [|reflexivity].
    rewrite app_assoc. reflexivity.
Qed.

Lemma bytewise_app (x y : list Z) : bytewise (x ++ y) = bytewise x ++ bytewise y.
Proof. apply map_app. Qed.

(** At the end of a complete frame nothing of it is pending: the buffer has
    no start marker and is shorter than the frame. *)
Lemma frame_end (b f : Buffer) :
  is_frame f -> resting b -> suffix_of b f -> no_start b /\ (length b < length f)%nat.
Proof.
  intros [[body Hhead] [body' Htail]] Hr [d Hd].
  assert (Hn : no_start b).
  { destruct Hr as [Hn|[Hs He]]; [exact Hn|exfalso].
    destruct b as [|x [|y r]]; try discriminate.
    simpl in Hs. apply andb_prop in Hs. destruct Hs as [H1 H2].
    apply Z.eqb_eq in H1, H2. subst x y. simpl skipn in He.
    rewrite Htail in Hd. apply (f_equal (@rev Z)) in Hd.
    rewrite !rev_app_distr in Hd. simpl in Hd.
    destruct (rev r) as [|u [|v t]] eqn:Er; simpl in Hd.
    - inversion Hd.
    - inversion Hd.
    - inversion Hd; subst.
      apply (f_equal (@rev Z)) in Er. rewrite rev_involutive in Er. simpl in Er.
      rewrite <- app_assoc in Er. simpl in Er. subst r.
      exact (find2_app_pattern 255 217 (rev t) He). }
  split; [exact Hn|].
  destruct d as [|x d].
  - simpl in Hd. subst b. rewrite Hhead in Hn. discriminate Hn.
  - rewrite Hd. simpl. rewrite length_app. lia.
Qed.

(** One frame, fed byte by byte to a buffer without start marker: the buffer
    stays within the bound at every byte, and is back to a buffer without
    start marker at the end of the frame. *)
Lemma feed_frame_prefix (S : nat) (f J p q : Buffer) :
  is_frame f -> (length f <= S)%nat ->
  no_start J -> (length J < S)%nat ->
  f = p ++ q ->
  exists b frames,
    feed J (bytewise p) = Some (b, frames) /\ (length b <= S)%nat /\
    (q = [] -> no_start b /\ (length b < S)%nat).
Proof.
  intros Hf HS HJ HJS Hpq.
  pose proof Hf as [[body Hhead] _].
  assert (H1 : no_start (J ++ [255]) /\ on_data J [255] = Some (J ++ [255], [])).
  { destruct (step_no_start J 255 HJ) as [H|[[d Hd] _]]; [exact H|exfalso].
    change [255; 216] with ([255] ++ [216]) in Hd. rewrite app_assoc in Hd.
    apply snoc_inj in Hd. destruct Hd as [_ Hd]. discriminate. }
  destruct H1 as [HJ1 E1].
  assert (E2 : on_data (J ++ [255]) [216] = Some ([255; 216], [])).
  { destruct (step_no_start (J ++ [255]) 216 HJ1) as [[Hn _]|[_ E]]; [exfalso|exact E].
    rewrite <- app_assoc in Hn. exact (find2_app_pattern 255 216 J Hn). }
  destruct p as [|x [|y p']].
  - exists J, []. split; [reflexivity|]. split; [lia|].
    intros Hq. rewrite Hq, Hhead in Hpq. discriminate Hpq.
  - rewrite Hhead in Hpq. injection Hpq as Hx Hq. subst x.
    exists (J ++ [255]), []. simpl. rewrite E1. split; [reflexivity|].
    split; [rewrite length_app; simpl; lia|].
    intros Hq'. rewrite Hq' in Hq. discriminate Hq.
  - pose proof Hpq as Hpq'. rewrite Hhead in Hpq'. injection Hpq' as Hx Hy Hb. subst x y.
    assert (Hif : resting [255; 216]) by (right; split; reflexivity).
    destruct (feed_resting p' [255; 216] Hif) as (b & fr & E & R & Sfx).
    exists b, fr. simpl. rewrite E1, E2. simpl in E. rewrite E.
    split; [reflexivity|].
    pose proof (suffix_of_length _ _ Sfx) as Hlen.
    assert (Hp : Nat.le (length (255 :: 216 :: p')) (length f)).
    { rewrite Hpq, length_app. lia. }
    change ([255; 216] ++ p') with (255 :: 216 :: p') in Hlen.
    split; [lia|].
    intros Hq. rewrite Hq, app_nil_r in Hpq.
    assert (Sfx' : suffix_of b f) by (rewrite Hpq; exact Sfx).
    destruct (frame_end b f Hf R Sfx') as [Hn Hl]. split; [exact Hn|lia].
Qed.

Lemma frame_length (f : Buffer) : is_frame f -> (4 <= length f)%nat.
Proof.
  intros [[body Hhead] [body' Htail]].
  rewrite Htail in Hhead. destruct body' as [|x [|y t]]; simpl in Hhead; try discriminate.
  rewrite Htail. simpl. rewrite length_app. simpl. lia.
Qed.

Lemma feed_frames_prefix (S : nat) (frames : list Buffer) :
  forall (J p q : Buffer),
    Forall (fun f => is_frame f /\ (length f <= S)%nat) frames ->
    no_start J -> (length J < S)%nat \/ J = [] ->
    concat frames = p ++ q ->
    exists b out, feed J (bytewise p) = Some (b, out) /\ (length b <= S)%nat.
Proof.
  induction frames as [|f frames IH]; intros J p q Hfs HJ HJS Hpq.
  - simpl in Hpq. symmetry in Hpq. apply app_eq_nil in Hpq. destruct Hpq as [-> _].
    exists J, []. split; [reflexivity|]. destruct HJS as [H| ->]; simpl; lia.
  - inversion Hfs as [|? ? [Hf HfS] Hrest]; subst.
    pose proof (frame_length f Hf) as H4.
    assert (HJS' : (length J < S)%nat) by (destruct HJS as [H| ->]; simpl; lia).
    simpl in Hpq. apply app_eq_app in Hpq. destruct Hpq as [l [[E1 E2]|[E1 E2]]].
    + destruct (feed_frame_prefix S f J p l Hf HfS HJ HJS' E1) as (b & out & E & Hb & _).
      exists b, out. split; assumption.
    + destruct (feed_frame_prefix S f J f [] Hf HfS HJ HJS' (eq_sym (app_nil_r f)))
        as (b1 & out1 & Ef & _ & Hend).
      destruct (Hend eq_refl) as [Hn1 Hl1].
      destruct (IH b1 l q Hrest Hn1 (or_introl Hl1) E2) as (b2 & out2 & E & Hb).
      exists b2, (out1 ++ out2). rewrite E1, bytewise_app, feed_app, Ef, E.
      split; [reflexivity|exact Hb].
Qed.

Lemma skipn_length_app (p r : list Z) (n : nat) :
  skipn (length p + n) (p ++ r) = skipn n r.
Proof.
  rewrite skipn_app.
  rewrite skipn_all2 by lia.
  replace (length p + n - length p)%nat with n by lia. reflexivity.
Qed.

Lemma indexOf2_after_prefix (a b : Z) (p r : list Z) (n : nat) :
  indexOf2 a b (p ++ r) (length p + n)
  = option_map (fun k => (length p + n + k)%nat) (find2 a b (skipn n r)).
Proof. unfold indexOf2. rewrite skipn_length_app. reflexivity. Qed.

Lemma indexOf2_at_prefix (a b : Z) (p r : list Z) :
  indexOf2 a b (p ++ r) (length p)
  = option_map (fun k => (length p + k)%nat) (find2 a b r).
Proof.
  unfold indexOf2.
  replace (skipn (length p) (p ++ r)) with r; [reflexivity|].
  rewrite skipn_app, skipn_all, Nat.sub_diag. reflexivity.
Qed.

Lemma scan_unfold (fuel : nat) (buffer : Buffer) (startIndex : nat) (frames : list Buffer) :
  scan (S fuel) buffer startIndex frames
  = if (startIndex <? length buffer)%nat then
      match indexOf2 255 216 buffer startIndex with
      | None => Some (slice_from buffer startIndex, startIndex, frames)
      | Some jpegStart =>
          match indexOf2 255 217 buffer (jpegStart + 2) with
          | None => Some (slice_from buffer jpegStart, startIndex, frames)
          | Some jpegEnd =>
              scan fuel buffer (jpegEnd + 2)
                (frames ++ [slice buffer jpegStart (jpegEnd + 2)])
          end
      end
    else Some (buffer, startIndex, frames).
Proof. reflexivity. Qed.

(** What the statement after the loop keeps when the cursor is further
    along is an end part of what it keeps when the cursor is nearer. *)
Lemma finish_suffix (x : Buffer) (n k : nat) :
  suffix_of (if (n + k <? length x)%nat then skipn (n + k) x else [])
            (if (k <? length x)%nat then skipn k x else []).
Proof.
  destruct (Nat.ltb_spec (n + k) (length x)) as [L1|L1];
    destruct (Nat.ltb_spec k (length x)) as [L2|L2]; try lia.
  - exists (firstn n (skipn k x)).
    rewrite <- skipn_skipn. symmetry. apply firstn_skipn.
  - exists (skipn k x). rewrite app_nil_r. reflexivity.
  - exists []. reflexivity.
Qed.

(** The loop run on a buffer from a cursor past a prefix [p], and the loop
    run on the bytes after [p] alone: the same frames are emitted, and what
    the first keeps is an end part of what the second keeps. *)
Lemma scan_shift (fuel1 : nat) :
  forall (fuel2 : nat) (p r : list Z) (k : nat) (acc1 acc2 : list Buffer),
    (length r - k < fuel1)%nat -> (length r - k < fuel2)%nat ->
    exists bv1 bv2 si more,
      scan fuel1 r k acc1 = Some (bv1, si, acc1 ++ more) /\
      scan fuel2 (p ++ r) (length p + k) acc2
      = Some (bv2, (length p + si)%nat, acc2 ++ more) /\
      suffix_of (fst (finish (bv2, (length p + si)%nat, acc2 ++ more)))
                (fst (finish (bv1, si, acc1 ++ more))).
Proof.
  induction fuel1 as [|f1 IH]; intros fuel2 p r k acc1 acc2 H1 H2; [lia|].
  destruct fuel2 as [|f2]; [lia|].
  rewrite !scan_unfold, length_app.
  destruct (Nat.ltb_spec k (length r)) as [L|L].
  - assert (Hc : (length p + k <? length p + length r)%nat = true)
      by (apply Nat.ltb_lt; lia).
    rewrite Hc, indexOf2_after_prefix.
    change (indexOf2 255 216 r k)
      with (option_map (fun j => (k + j)%nat) (find2 255 216 (skipn k r))).
    destruct (find2 255 216 (skipn k r)) as [j|] eqn:Es; cbn [option_map].
    + replace (length p + k + j + 2)%nat with (length p + (k + j + 2))%nat by lia.
      rewrite indexOf2_after_prefix.
      change (indexOf2 255 217 r (k + j + 2))
        with (option_map (fun i => (k + j + 2 + i)%nat) (find2 255 217 (skipn (k + j + 2) r))).
      destruct (find2 255 217 (skipn (k + j + 2) r)) as [i|] eqn:Ee; cbn [option_map].
      * pose proof (find2_bound _ _ _ _ Ee) as Be. rewrite length_skipn in Be.
        assert (Ef : slice (p ++ r) (length p + k + j) (length p + (k + j + 2) + i + 2)
                     = slice r (k + j) (k + j + 2 + i + 2)).
        { unfold slice.
          replace (length p + k + j)%nat with (length p + (k + j))%nat by lia.
          rewrite skipn_length_app. f_equal. lia. }
        rewrite Ef. set (frame := slice r (k + j) (k + j + 2 + i + 2)).
        destruct (IH f2 p r (k + j + 2 + i + 2)%nat (acc1 ++ [frame]) (acc2 ++ [frame]))
          as (bv1 & bv2 & si & more & E1 & E2 & Hsuf); [lia|lia|].
        exists bv1, bv2, si, (frame :: more).
        replace (length p + (k + j + 2) + i + 2)%nat
          with (length p + (k + j + 2 + i + 2))%nat by lia.
        rewrite E1, E2, <- !app_assoc in *. simpl app in *.
        split; [reflexivity|]. split; [reflexivity|exact Hsuf].
      * exists (slice_from r (k + j)), (slice_from r (k + j)), k, [].
        rewrite !app_nil_r. split; [reflexivity|]. split.
        -- unfold slice_from.
           replace (length p + k + j)%nat with (length p + (k + j))%nat by lia.
           rewrite skipn_length_app. reflexivity.
        -- cbn [finish fst]. unfold slice_from. apply finish_suffix.
    + exists (slice_from r k), (slice_from r k), k, [].
      rewrite !app_nil_r. split; [reflexivity|]. split.
      * unfold slice_from. rewrite skipn_length_app. reflexivity.
      * cbn [finish fst]. unfold slice_from. apply finish_suffix.
  - assert (Hc : (length p + k <? length p + length r)%nat = false)
      by (apply Nat.ltb_ge; lia).
    rewrite Hc. exists r, (p ++ r), k, []. rewrite !app_nil_r.
    split; [reflexivity|]. split; [reflexivity|].
    cbn [finish fst]. rewrite length_app, Hc.
    destruct (k <? length r)%nat; [|exists []; reflexivity].
    exists (skipn k r). rewrite app_nil_r. reflexivity.
Qed.

(** After a first frame that ends at [cut]: the handler emits that frame,
    then the frames that the bytes after it complete, and keeps an end part
    of what those bytes would leave. *)
Lemma scan_after_frame (b frame : Buffer) (cut : nat) :
  (0 < cut <= length b)%nat ->
  exists buffer' buffer'' more,
    option_map finish (scan (length b) b cut [frame]) = Some (buffer', frame :: more) /\
    on_data [] (skipn cut b) = Some (buffer'', more) /\
    suffix_of buffer' buffer''.
Proof.
  intros Hcut.
  set (p := firstn cut b). set (r := skipn cut b).
  assert (Hb : b = p ++ r) by (symmetry; apply firstn_skipn).
  assert (Hp : length p = cut) by (unfold p; rewrite length_firstn; lia).
  assert (Hr : length r = (length b - cut)%nat) by (unfold r; apply length_skipn).
  destruct (scan_shift (S (length r)) (length b) p r 0 [] [frame])
    as (bv1 & bv2 & si & more & E1 & E2 & Hsuf); [lia|lia|].
  rewrite Nat.add_0_r, Hp, <- Hb in E2. rewrite Hp in Hsuf. simpl app in E1, E2, Hsuf.
  exists (fst (finish (bv2, (cut + si)%nat, frame :: more))),
         (fst (finish (bv1, si, more))), more.
  split; [rewrite E2; reflexivity|]. split; [|exact Hsuf].
  unfold on_data. simpl app. rewrite E1. reflexivity.
Qed.

End DemuxBytewise.

Section DemuxClaims.

(** C2.  Two complete frames, [FF D8 FF D9] and [FF D8 01 FF D9]: fed as one
    chunk both are emitted; fed as the first frame with the head of the
    second, then the rest, only the first is.  After the [break] that keeps
    the head of the second frame, [buffer] is sliced once more by
    [startIndex], which empties it, and the second frame is lost. *)
Theorem split_feed_loses_a_frame :
  let f1 := [255; 216; 255; 217] in
  let f2 := [255; 216; 1; 255; 217] in
  is_frame f1 /\ is_frame f2 /\
  feed [] [f1 ++ f2] = Some ([], [f1; f2]) /\
  on_data [] (f1 ++ [255; 216; 1]) = Some ([], [f1]) /\
  feed [] [f1 ++ [255; 216; 1]; [255; 217]] = Some ([255; 217], [f1]).
Proof.
  intros f1 f2. split; [|split].
  - split; [exists [255; 217]|exists [255; 216]]; reflexivity.
  - split; [exists [1; 255; 217]|exists [255; 216; 1]]; reflexivity.
  - repeat split.
Qed.

(** C5 as stated fails on its first clause: a chunk without start marker is
    kept, not discarded. *)
Lemma no_start_marker_keeps_the_buffer :
  ~ (forall buffer chunk : Buffer,
       indexOf2 255 216 (buffer ++ chunk) 0 = None ->
       exists frames, on_data buffer chunk = Some ([], frames)).
Proof.
  intros H. destruct (H [] [1; 2; 3] eq_refl) as [frames E].
  vm_compute in E. discriminate E.
Qed.

(** C5, as amended.  On each chunk, with the buffer and the chunk joined and
    searched from the start: if no start marker is found, the buffer is kept
    whole and nothing is emitted; if a start marker is found and no end
    marker follows it, the buffer is kept from that start marker onward and
    nothing is emitted; if both are found, the bytes from the start marker
    through the end marker are the first frame emitted, and the scan goes on
    in the same chunk: the frames emitted after it are those that the bytes
    past it complete, in order, and the buffer kept is an end part of what
    those bytes would leave. *)
Theorem demux_chunk_branches (buffer chunk : Buffer) :
  let b := buffer ++ chunk in
  match indexOf2 255 216 b 0 with
  | None => on_data buffer chunk = Some (b, [])
  | Some jpegStart =>
      match indexOf2 255 217 b (jpegStart + 2) with
      | None =>
          on_data buffer chunk = Some (slice_from b jpegStart, []) /\
          exists rest, slice_from b jpegStart = 255 :: 216 :: rest
      | Some jpegEnd =>
          let frame := slice b jpegStart (jpegEnd + 2) in
          (exists body, frame = 255 :: 216 :: body ++ [255; 217]) /\
          exists buffer' buffer'' more,
            on_data buffer chunk = Some (buffer', frame :: more) /\
            on_data [] (slice_from b (jpegEnd + 2)) = Some (buffer'', more) /\
            suffix_of buffer' buffer''
      end
  end.
Proof.
  intros b. pose proof (on_data_unfold buffer chunk) as U. fold b in U. cbv zeta in U.
  destruct (indexOf2 255 216 b 0) as [js|] eqn:Es; [|exact U].
  destruct (indexOf2 255 217 b (js + 2)) as [je|] eqn:Ee.
  - split; [exact (frame_shape b 0 js je Es Ee)|].
    rewrite U. apply scan_after_frame.
    apply indexOf2_bound in Ee. lia.
  - split; [exact U|exact (indexOf2_sound _ _ _ _ _ Es)].
Qed.

(** C6.  A stream made of complete frames of at most [S] bytes each, fed one
    byte per chunk: after every byte the handler has returned and the buffer
    it keeps has at most [S] bytes, whatever the number of frames. *)
Theorem bytewise_buffer_bounded (S : nat) (frames : list Buffer) (p q : Buffer) :
  Forall (fun f => is_frame f /\ (length f <= S)%nat) frames ->
  concat frames = p ++ q ->
  exists b out, feed [] (bytewise p) = Some (b, out) /\ (length b <= S)%nat.
Proof.
  intros Hfs Hpq.
  apply (feed_frames_prefix S frames [] p q Hfs); [reflexivity|right; reflexivity|exact Hpq].
Qed.

(** Two frames of 4 and 5 bytes, seven bytes into the stream: the buffer holds
    the three bytes of the second frame. *)
Lemma bytewise_buffer_bounded_witness :
  let f1 := [255; 216; 255; 217] in
  let f2 := [255; 216; 1; 255; 217] in
  Forall (fun f => is_frame f /\ (length f <= 5)%nat) [f1; f2] /\
  concat [f1; f2] = (f1 ++ [255; 216; 1]) ++ [255; 217] /\
  feed [] (bytewise (f1 ++ [255; 216; 1])) = Some ([255; 216; 1], [f1]) /\
  exists b out,
    feed [] (bytewise (f1 ++ [255; 216; 1])) = Some (b, out) /\ (length b <= 5)%nat.
Proof.
  intros f1 f2.
  assert (Hfs : Forall (fun f => is_frame f /\ (length f <= 5)%nat) [f1; f2]).
  { constructor; [|constructor; [|constructor]].
    - split; [|simpl; lia]. split; [exists [255; 217]|exists [255; 216]]; reflexivity.
    - split; [|simpl; lia]. split; [exists [1; 255; 217]|exists [255; 216; 1]]; reflexivity. }
  assert (Hpq : concat [f1; f2] = (f1 ++ [255; 216; 1]) ++ [255; 217]) by reflexivity.
  split; [exact Hfs|]. split; [exact Hpq|]. split; [reflexivity|].
  exact (bytewise_buffer_bounded 5 [f1; f2] (f1 ++ [255; 216; 1]) [255; 217] Hfs Hpq).
Defined.

End DemuxClaims.

(** ** Frame relay *)

Section RelayFacts.

Import Relay.

Lemma assign_frames_app (cur : option Buffer) (f1 f2 : list Buffer) :
  assign_frames cur (f1 ++ f2) = assign_frames (assign_frames cur f1) f2.
Proof. unfold assign_frames. apply fold_left_app. Qed.

(** The slot holds the last frame assigned to it. *)
Lemma assign_frames_last (cur : option Buffer) (frames : list Buffer) :
  assign_frames cur frames
  = match rev frames with
    | [] => cur
    | latest :: _ => Some latest
    end.
Proof.
  revert cur. induction frames as [|f frames IH] using rev_ind; intros cur.
  - reflexivity.
  - rewrite assign_frames_app, rev_app_distr. reflexivity.
Qed.

(** A run of the bridge never fails; its buffer and frames are those of the
    demuxer on the chunks received, and the slot holds the assignments of all
    the frames in order. *)
Lemma run_feed (events : list event) :
  forall b,
    exists b' out frames,
      run b events = Some (b', out) /\
      feed (buffer b) (chunks_of events) = Some (buffer b', frames) /\
      currentFrameBuffer b' = assign_frames (currentFrameBuffer b) frames /\
      Forall (fun f => (4 <= length f)%nat) frames.
Proof.
  induction events as [|e events IH]; intros b.
  - exists b, [], []. repeat split. constructor.
  - destruct e as [chunk|viewer].
    + destruct (on_data_total (buffer b) chunk) as [[b1 f1] E1].
      destruct (IH (mkBridge b1 (assign_frames (currentFrameBuffer b) f1)))
        as (b' & out & f2 & Er & Ef & Ec & Hf).
      exists b', ([] ++ out), (f1 ++ f2). simpl in *. rewrite E1, Er, Ef.
      split; [reflexivity|]. split; [reflexivity|]. split.
      * rewrite Ec. symmetry. apply assign_frames_app.
      * apply Forall_app. split; [|exact Hf]. exact (on_data_frames _ _ _ _ E1).
    + destruct (IH b) as (b' & out & f2 & Er & Ef & Ec & Hf).
      exists b', ([(viewer, sendFrame (currentFrameBuffer b))] ++ out), f2.
      simpl. rewrite Er. split; [reflexivity|]. split; [exact Ef|]. split; assumption.
Qed.

End RelayFacts.

Section RelayClaims.

Import Relay.

(** C7.  After any sequence of chunks and ticks, a tick of any viewer writes:
    nothing, if the demuxer has completed no frame so far; otherwise one
    segment carrying the most recent frame, whose [Content-Length] line is
    the decimal byte count of that frame. *)
Theorem tick_writes_latest_frame (events : list event) (viewer : nat) :
  exists b out frames,
    run initial events = Some (b, out) /\
    feed [] (chunks_of events) = Some (buffer b, frames) /\
    step b (Tick viewer)
    = Some (b, [(viewer,
                 match rev frames with
                 | [] => []
                 | latest :: _ =>
                     [ Text ("--frame" ++ crlf)%string;
                       Text ("Content-Type: image/jpeg" ++ crlf)%string;
                       Text ("Content-Length: " ++ decimal (length latest) ++ crlf ++ crlf)%string;
                       Bytes latest;
                       Text crlf ]
                 end)]).
Proof.
  destruct (run_feed events initial) as (b & out & frames & Er & Ef & Ec & Hf).
  exists b, out, frames. split; [exact Er|]. split; [exact Ef|].
  simpl. f_equal. f_equal. f_equal. f_equal.
  rewrite Ec, assign_frames_last. simpl.
  destruct (rev frames) as [|latest others] eqn:E; [reflexivity|].
  assert (Hin : In latest frames) by (apply in_rev; rewrite E; left; reflexivity).
  rewrite Forall_forall in Hf. specialize (Hf latest Hin).
  unfold sendFrame. destruct (Nat.ltb_spec 0 (length latest)); [reflexivity|lia].
Qed.

End RelayClaims.

(** ** Capture source probing *)

Section ProbeFacts.

Import Probe.

Lemma step_total (p : probe) (e : event) : exists p', step p e = Some p'.
Proof.
  destruct e; simpl; try (eexists; reflexivity).
  - destruct (on_data_total (buffer p) chunk) as [[b f] E]. rewrite E. eexists; reflexivity.
  - destruct (testTimeout p); eexists; reflexivity.
Qed.

Lemma run_total (events : list event) : forall p, exists p', run p events = Some p'.
Proof.
  induction events as [|e events IH]; intros p; simpl.
  - eexists; reflexivity.
  - destruct (step_total p e) as [p1 E]. rewrite E. apply IH.
Qed.


Lemma emitted_frames_total (buffer : Buffer) (chunks : list Buffer) :
  exists r, feed buffer chunks = Some r.
Proof.
  revert buffer. induction chunks as [|c chunks IH]; intros buffer.
  - eexists; reflexivity.
  - simpl. destruct (on_data_total buffer c) as [[b1 f1] E1]. rewrite E1.
    destruct (IH b1) as [[b2 f2] E2]. rewrite E2. eexists; reflexivity.
Qed.

(** What a probe leaves in the shared slot and in its buffer: the demuxer's
    result on the chunks it received. *)
Lemma run_slot (events : list event) :
  forall p p',
    run p events = Some p' ->
    exists frames,
      feed (buffer p) (stdout_chunks events) = Some (buffer p', frames) /\
      currentFrameBuffer p' = Relay.assign_frames (currentFrameBuffer p) frames /\
      frameCount p' = (frameCount p + length frames)%nat.
Proof.
  induction events as [|e events IH]; intros p p' Hrun.
  - simpl in Hrun. inversion Hrun; subst. exists []. simpl. repeat split. lia.
  - simpl in Hrun. destruct (step p e) as [p1|] eqn:Es; [|discriminate].
    destruct (IH p1 p' Hrun) as (f2 & E2 & C2 & N2).
    destruct e as [chunk|flagged| |code|]; simpl in Es.
    + destruct (on_data (buffer p) chunk) as [[b f1]|] eqn:Ed; [|discriminate].
      inversion Es; subst p1. simpl in *. exists (f1 ++ f2). rewrite Ed, E2.
      split; [reflexivity|]. split; [rewrite C2; symmetry; apply assign_frames_app|].
      rewrite N2, length_app. lia.
    + inversion Es; subst p1. exists f2. simpl in *. auto.
    + inversion Es; subst p1. exists f2. simpl in *. auto.
    + inversion Es; subst p1. exists f2. simpl in *. auto.
    + destruct (testTimeout p); inversion Es; subst p1; exists f2; simpl in *; auto.
Qed.

Lemma feed_frames_length (chunks : list Buffer) :
  forall b b' frames,
    feed b chunks = Some (b', frames) -> Forall (fun f => (4 <= length f)%nat) frames.
Proof.
  induction chunks as [|c chunks IH]; intros b b' frames H.
  - inversion H; subst. constructor.
  - simpl in H. destruct (on_data b c) as [[b1 f1]|] eqn:E1; [|discriminate].
    destruct (feed b1 chunks) as [[b2 f2]|] eqn:E2; [|discriminate].
    inversion H; subst. apply Forall_app. split.
    + exact (on_data_frames _ _ _ _ E1).
    + exact (IH _ _ _ E2).
Qed.



End ProbeFacts.

Section ProbeClaims.

Import Probe.



End ProbeClaims.

(** * Further properties *)

(** ** Frame demuxer: what any chunking gives *)

Section DemuxMore.

Lemma find2_none_prefix (a b : Z) (x y : list Z) :
  find2 a b (x ++ y) = None -> find2 a b x = None.
Proof.
  induction x as [|u x IH]; intros H; [reflexivity|].
  change ((u :: x) ++ y) with (u :: (x ++ y)) in H.
  apply find2_none_cons in H. destruct H as [Hs Hn].
  apply find2_none_cons. split; [|exact (IH Hn)].
  destruct x as [|v x]; [reflexivity|exact Hs].
Qed.

(** The first occurrence: nothing before it, and the two bytes at it. *)
Lemma find2_first (a b : Z) (l : list Z) (k : nat) :
  find2 a b l = Some k ->
  find2 a b (firstn (k + 1) l) = None /\ firstn (k + 2) l = firstn k l ++ [a; b].
Proof.
  revert k. induction l as [|x l IH]; intros k H; [discriminate|].
  cbn [find2] in H. destruct (starts2 a b (x :: l)) eqn:E.
  - inversion H; subst k. destruct l as [|y l]; [discriminate|].
    simpl in E. apply andb_prop in E. destruct E as [E1 E2].
    apply Z.eqb_eq in E1, E2. subst. split; reflexivity.
  - destruct (find2 a b l) as [j|] eqn:Ej; [|discriminate].
    inversion H; subst k. destruct (IH j eq_refl) as [H1 H2].
    split.
    + change (firstn (S j + 1) (x :: l)) with (x :: firstn (j + 1) l).
      apply find2_none_cons. split; [|exact H1].
      destruct l as [|y l]; [discriminate|].
      replace (j + 1)%nat with (S j) by lia. simpl firstn. exact E.
    + change (firstn (S j + 2) (x :: l)) with (x :: firstn (j + 2) l).
      rewrite H2. reflexivity.
Qed.

Lemma find2_firstn (a b : Z) (l : list Z) (k : nat) :
  find2 a b l = Some k -> find2 a b (firstn (k + 2) l) = Some k.
Proof.
  revert k. induction l as [|x l IH]; intros k H; [discriminate|].
  cbn [find2] in H. destruct (starts2 a b (x :: l)) eqn:E.
  - inversion H; subst k. destruct l as [|y l]; [discriminate|].
    simpl firstn. cbn [find2]. simpl starts2. simpl in E. rewrite E. reflexivity.
  - destruct (find2 a b l) as [j|] eqn:Ej; [|discriminate].
    inversion H; subst k.
    change (firstn (S j + 2) (x :: l)) with (x :: firstn (j + 2) l).
    cbn [find2]. rewrite (IH j eq_refl).
    assert (Es : starts2 a b (x :: firstn (j + 2) l) = false).
    { destruct l as [|y l]; [discriminate|].
      replace (j + 2)%nat with (S (S j)) by lia. simpl firstn. exact E. }
    rewrite Es. reflexivity.
Qed.

Lemma firstn_add (n m : nat) (l : list Z) :
  firstn (n + m) l = firstn n l ++ firstn m (skipn n l).
Proof.
  revert l. induction n as [|n IH]; intros l; [reflexivity|].
  destruct l as [|x l]; [simpl; rewrite firstn_nil; reflexivity|].
  simpl. rewrite IH. reflexivity.
Qed.

Lemma frame_delimited (buffer : Buffer) (startIndex jpegStart jpegEnd : nat) :
  indexOf2 255 216 buffer startIndex = Some jpegStart ->
  indexOf2 255 217 buffer (jpegStart + 2) = Some jpegEnd ->
  delimited (slice buffer jpegStart (jpegEnd + 2)).
Proof.
  intros Hs He.
  destruct (indexOf2_sound _ _ _ _ _ Hs) as [r1 E1].
  unfold indexOf2 in He.
  destruct (find2 255 217 (skipn (jpegStart + 2) buffer)) as [k|] eqn:Ek; [|discriminate].
  simpl in He. inversion He; subst jpegEnd. clear He.
  assert (Er : skipn (jpegStart + 2) buffer = r1).
  { rewrite Nat.add_comm, <- skipn_skipn, E1. reflexivity. }
  rewrite Er in Ek.
  unfold slice. rewrite E1.
  replace (jpegStart + 2 + k + 2 - jpegStart)%nat with (S (S (k + 2))) by lia.
  cbn [firstn].
  destruct (find2_first _ _ _ _ Ek) as [_ Hf].
  exists (firstn k r1). split.
  - rewrite Hf. reflexivity.
  - rewrite <- Hf.
    pose proof (find2_bound _ _ _ _ Ek) as Hb.
    replace (length (firstn k r1)) with k by (rewrite length_firstn; lia).
    apply find2_firstn. exact Ek.
Qed.

Lemma scan_delimited (fuel : nat) :
  forall (buffer : Buffer) (startIndex : nat) (frames : list Buffer) r,
    scan fuel buffer startIndex frames = Some r ->
    exists more, snd r = frames ++ more /\ Forall delimited more.
Proof.
  induction fuel as [|fuel IH]; intros buffer startIndex frames r H; [discriminate|].
  cbn [scan] in H. destruct (Nat.ltb_spec startIndex (length buffer)) as [L|L].
  - destruct (indexOf2 255 216 buffer startIndex) as [js|] eqn:Es.
    + destruct (indexOf2 255 217 buffer (js + 2)) as [je|] eqn:Ee.
      * apply IH in H. destruct H as [more [E F]].
        exists (slice buffer js (je + 2) :: more). split.
        -- rewrite E, <- app_assoc. reflexivity.
        -- constructor; [exact (frame_delimited _ _ _ _ Es Ee)|exact F].
      * inversion H; subst. exists []. simpl. rewrite app_nil_r. split; [reflexivity|constructor].
    + inversion H; subst. exists []. simpl. rewrite app_nil_r. split; [reflexivity|constructor].
  - inversion H; subst. exists []. simpl. rewrite app_nil_r. split; [reflexivity|constructor].
Qed.

Lemma on_data_delimited (buffer chunk buffer' : Buffer) (frames : list Buffer) :
  on_data buffer chunk = Some (buffer', frames) -> Forall delimited frames.
Proof.
  unfold on_data. destruct (scan _ _ _ _) as [[[b s] fr]|] eqn:E; [|discriminate].
  simpl. intros H. inversion H; subst.
  apply scan_delimited in E. destruct E as [more [E F]]. simpl in E. subst. exact F.
Qed.

(** X1.  Whatever the buffer and however the bytes are cut into chunks, the
    handler returns on every chunk, and every frame it emits opens with the
    start marker, closes with the end marker, and holds no other end marker
    after its start marker. *)
Theorem emitted_frames_are_delimited (buffer : Buffer) (chunks : list Buffer) :
  exists buffer' frames,
    feed buffer chunks = Some (buffer', frames) /\
    Forall (fun f =>
              exists body,
                f = 255 :: 216 :: body ++ [255; 217] /\
                find2 255 217 (body ++ [255; 217]) = Some (length body)) frames.
Proof.
  revert buffer. induction chunks as [|c chunks IH]; intros buffer.
  - exists buffer, []. split; [reflexivity|constructor].
  - destruct (on_data_total buffer c) as [[b1 f1] E1].
    destruct (IH b1) as (b2 & f2 & E2 & F2).
    exists b2, (f1 ++ f2). simpl. rewrite E1, E2. split; [reflexivity|].
    apply Forall_app. split; [exact (on_data_delimited _ _ _ _ E1)|exact F2].
Qed.

Lemma on_data_no_start (buffer chunk : Buffer) :
  find2 255 216 (buffer ++ chunk) = None ->
  on_data buffer chunk = Some (buffer ++ chunk, []).
Proof.
  intros H. rewrite on_data_unfold, indexOf2_zero, H. reflexivity.
Qed.

(** X2.  As long as the bytes received hold no start marker, nothing is
    dropped: after any sequence of chunks the buffer is everything received
    so far, so it grows without bound on a stream that has no start
    marker. *)
Theorem buffer_keeps_bytes_without_start_marker (buffer : Buffer) (chunks : list Buffer) :
  find2 255 216 (buffer ++ concat chunks) = None ->
  feed buffer chunks = Some (buffer ++ concat chunks, []).
Proof.
  revert buffer. induction chunks as [|c chunks IH]; intros buffer H.
  - simpl. rewrite app_nil_r. reflexivity.
  - simpl in H. rewrite app_assoc in H.
    simpl. rewrite (on_data_no_start buffer c (find2_none_prefix _ _ _ _ H)).
    rewrite (IH _ H), <- app_assoc. reflexivity.
Qed.

Lemma buffer_keeps_bytes_without_start_marker_witness :
  find2 255 216 ([255] ++ concat [[1; 2]; []; [216; 255]; [217]]) = None /\
  feed [255] [[1; 2]; []; [216; 255]; [217]] = Some ([255; 1; 2; 216; 255; 217], []).
Proof.
  split; [reflexivity|].
  exact (buffer_keeps_bytes_without_start_marker [255] [[1; 2]; []; [216; 255]; [217]] eq_refl).
Defined.

End DemuxMore.

Section DemuxAccounting.

(** Total number of bytes of a list of frames. *)
Lemma scan_accounting (fuel : nat) :
  forall (buffer : Buffer) (startIndex : nat) (frames : list Buffer) r,
    scan fuel buffer startIndex frames = Some r ->
    exists more,
      snd r = frames ++ more /\
      (startIndex + list_sum (map (@length Z) more)
       + length (fst (finish r)) <= Nat.max startIndex (length buffer))%nat.
Proof.
  induction fuel as [|fuel IH]; intros buffer startIndex frames r H; [discriminate|].
  cbn [scan] in H. destruct (Nat.ltb_spec startIndex (length buffer)) as [L|L].
  - destruct (indexOf2 255 216 buffer startIndex) as [js|] eqn:Es.
    + destruct (indexOf2 255 217 buffer (js + 2)) as [je|] eqn:Ee.
      * pose proof (indexOf2_bound _ _ _ _ _ Es) as Bs.
        pose proof (indexOf2_bound _ _ _ _ _ Ee) as Be.
        apply IH in H. destruct H as [more [E F]].
        exists (slice buffer js (je + 2) :: more). split.
        -- rewrite E, <- app_assoc. reflexivity.
        -- simpl map. simpl list_sum. unfold slice at 1.
           rewrite length_firstn, length_skipn. lia.
      * inversion H; subst r. exists []. split; [simpl; rewrite app_nil_r; reflexivity|].
        apply indexOf2_bound in Es. cbn [finish fst map]; change (list_sum []) with 0%nat. unfold slice_from.
        destruct (Nat.ltb_spec startIndex (length (skipn js buffer)));
          rewrite ?length_skipn in *; simpl length; lia.
    + inversion H; subst r. exists []. split; [simpl; rewrite app_nil_r; reflexivity|].
      cbn [finish fst map]; change (list_sum []) with 0%nat. unfold slice_from.
      destruct (Nat.ltb_spec startIndex (length (skipn startIndex buffer)));
        rewrite ?length_skipn in *; simpl length; lia.
  - inversion H; subst r. exists []. split; [simpl; rewrite app_nil_r; reflexivity|].
    cbn [finish fst map]; change (list_sum []) with 0%nat.
    destruct (Nat.ltb_spec startIndex (length buffer)); [lia|]. simpl length. lia.
Qed.

Lemma on_data_accounting (buffer chunk buffer' : Buffer) (frames : list Buffer) :
  on_data buffer chunk = Some (buffer', frames) ->
  (list_sum (map (@length Z) frames) + length buffer' <= length buffer + length chunk)%nat.
Proof.
  unfold on_data. destruct (scan _ _ _ _) as [r|] eqn:E; [|discriminate].
  simpl. intros H. inversion H as [Hr]. clear H.
  apply scan_accounting in E. destruct E as [more [E F]].
  rewrite Hr in F. cbn [fst] in F.
  destruct r as [[b s] fr]. simpl in E. subst fr.
  cbn [finish] in Hr. inversion Hr; subst frames.
  rewrite length_app in F. simpl in F. rewrite H0. exact F.
Qed.

Lemma skipn_split (b : list Z) (k m : nat) :
  (k <= m)%nat -> skipn k b = firstn (m - k) (skipn k b) ++ skipn m b.
Proof.
  intros H. rewrite <- (firstn_skipn (m - k) (skipn k b)) at 1.
  rewrite skipn_skipn. replace (m - k + k)%nat with m by lia. reflexivity.
Qed.

(** What the statement after the loop keeps of [x], and what it drops. *)
Lemma finish_split (x : Buffer) (k : nat) :
  exists dropped, x = dropped ++ (if (k <? length x)%nat then skipn k x else []).
Proof.
  destruct (k <? length x)%nat.
  - exists (firstn k x). symmetry. apply firstn_skipn.
  - exists x. rewrite app_nil_r. reflexivity.
Qed.

Lemma laid_out_app (g1 g2 f1 f2 : list Buffer) :
  length g1 = length f1 ->
  laid_out (g1 ++ g2) (f1 ++ f2) = laid_out g1 f1 ++ laid_out g2 f2.
Proof.
  revert f1. induction g1 as [|g g1 IH]; intros [|f f1] H; try discriminate H.
  - reflexivity.
  - simpl. rewrite IH by (simpl in H; lia). rewrite <- !app_assoc. reflexivity.
Qed.

(** The loop carves its frames out of the bytes from the cursor on: these
    bytes are, in order, a gap and a frame for each frame emitted, then
    bytes that are dropped, then the bytes that are kept. *)
Lemma scan_carves (fuel : nat) :
  forall (buffer : Buffer) (startIndex : nat) (frames : list Buffer) r,
    scan fuel buffer startIndex frames = Some r ->
    exists more gaps dropped,
      snd r = frames ++ more /\
      length gaps = length more /\
      skipn startIndex buffer = laid_out gaps more ++ dropped ++ fst (finish r).
Proof.
  induction fuel as [|fuel IH]; intros buffer startIndex frames r H; [discriminate|].
  rewrite scan_unfold in H. destruct (Nat.ltb_spec startIndex (length buffer)) as [L|L].
  - destruct (indexOf2 255 216 buffer startIndex) as [js|] eqn:Es.
    + pose proof (indexOf2_bound _ _ _ _ _ Es) as Bs.
      destruct (indexOf2 255 217 buffer (js + 2)) as [je|] eqn:Ee.
      * pose proof (indexOf2_bound _ _ _ _ _ Ee) as Be.
        apply IH in H. destruct H as (more & gaps & dropped & E & Hl & Hc).
        exists (slice buffer js (je + 2) :: more),
               (firstn (js - startIndex) (skipn startIndex buffer) :: gaps), dropped.
        split; [rewrite E, <- app_assoc; reflexivity|].
        split; [simpl; rewrite Hl; reflexivity|].
        cbn [laid_out]. rewrite <- !app_assoc, <- Hc.
        rewrite (skipn_split buffer startIndex js) at 1 by lia. f_equal.
        unfold slice. apply skipn_split. lia.
      * inversion H; subst r. clear H.
        destruct (finish_split (skipn js buffer) startIndex) as [d Hd].
        exists [], [], (firstn (js - startIndex) (skipn startIndex buffer) ++ d).
        split; [simpl; rewrite app_nil_r; reflexivity|]. split; [reflexivity|].
        cbn [laid_out finish fst app]. unfold slice_from, Buffer in *.
        rewrite <- app_assoc, <- Hd. apply skipn_split. lia.
    + inversion H; subst r. clear H.
      destruct (finish_split (skipn startIndex buffer) startIndex) as [d Hd].
      exists [], [], d.
      split; [simpl; rewrite app_nil_r; reflexivity|]. split; [reflexivity|].
      cbn [laid_out finish fst app]. unfold slice_from, Buffer in *. exact Hd.
  - inversion H; subst r. clear H. exists [], [], [].
    split; [simpl; rewrite app_nil_r; reflexivity|]. split; [reflexivity|].
    cbn [laid_out finish fst app].
    destruct (Nat.ltb_spec startIndex (length buffer)); [lia|].
    apply skipn_all2. exact L.
Qed.

Lemma on_data_carves (buffer chunk buffer' : Buffer) (frames : list Buffer) :
  on_data buffer chunk = Some (buffer', frames) ->
  exists gaps dropped,
    length gaps = length frames /\
    buffer ++ chunk = laid_out gaps frames ++ dropped ++ buffer'.
Proof.
  unfold on_data. destruct (scan _ _ _ _) as [r|] eqn:E; [|discriminate].
  simpl. intros H. inversion H as [Hr]. clear H.
  apply scan_carves in E. destruct E as (more & gaps & dropped & E & Hl & Hc).
  rewrite Hr in Hc. cbn [fst] in Hc. rewrite skipn_O in Hc.
  destruct r as [[b s] fr]. simpl in E. subst fr. cbn [finish] in Hr.
  injection Hr as Hb Hf. rewrite <- Hf. exists gaps, dropped.
  split; [exact Hl|exact Hc].
Qed.

(** X3.  The frames are carved out of the input, in arrival order and without
    overlap: over any sequence of chunks, the initial buffer followed by the
    chunks is, in order, a gap and a frame for each frame emitted, then
    dropped bytes, then the buffer left.  So no byte is emitted in two
    frames, none is both emitted and kept, and the bytes of the frames plus
    the bytes left never exceed the bytes that were in the buffer plus the
    bytes received. *)
Theorem frames_and_buffer_within_input (buffer : Buffer) (chunks : list Buffer) :
  exists buffer' frames gaps dropped,
    feed buffer chunks = Some (buffer', frames) /\
    length gaps = length frames /\
    buffer ++ concat chunks = laid_out gaps frames ++ dropped ++ buffer' /\
    (list_sum (map (@length Z) frames) + length buffer'
     <= length buffer + list_sum (map (@length Z) chunks))%nat.
Proof.
  revert buffer. induction chunks as [|c chunks IH]; intros buffer.
  - exists buffer, [], [], []. split; [reflexivity|]. split; [reflexivity|].
    split; [simpl; rewrite app_nil_r; reflexivity|simpl; lia].
  - destruct (on_data_total buffer c) as [[b1 f1] E1].
    destruct (IH b1) as (b2 & f2 & g2 & d2 & E2 & L2 & C2 & F2).
    destruct (on_data_carves _ _ _ _ E1) as (g1 & d1 & L1 & C1).
    assert (Hin : buffer ++ concat (c :: chunks)
                  = laid_out g1 f1 ++ d1 ++ laid_out g2 f2 ++ d2 ++ b2).
    { simpl concat. rewrite app_assoc, C1, <- !app_assoc, C2. reflexivity. }
    assert (Hsize : (list_sum (map (@length Z) (f1 ++ f2)) + length b2
                     <= length buffer + list_sum (map (@length Z) (c :: chunks)))%nat).
    { pose proof (on_data_accounting _ _ _ _ E1) as F1.
      rewrite map_app, list_sum_app.
      change (list_sum (map (@length Z) (c :: chunks)))
        with (length c + list_sum (map (@length Z) chunks))%nat.
      clear - F1 F2. unfold Buffer in *. lia. }
    exists b2, (f1 ++ f2). cbn [feed]. rewrite E1, E2.
    destruct f2 as [|f f2]; destruct g2 as [|g g2]; try discriminate L2.
    + exists g1, (d1 ++ d2). split; [reflexivity|].
      split; [rewrite app_nil_r; exact L1|].
      split; [|exact Hsize].
      rewrite Hin, app_nil_r, <- app_assoc. reflexivity.
    + exists (g1 ++ (d1 ++ g) :: g2), d2. split; [reflexivity|].
      split; [rewrite !length_app; simpl; simpl in L2; lia|].
      split; [|exact Hsize].
      rewrite Hin, laid_out_app by exact L1. cbn [laid_out].
      rewrite <- !app_assoc. reflexivity.
Qed.

End DemuxAccounting.

Section DemuxBytewiseEqualsWhole.

Lemma in_flight_shape (b : Buffer) :
  in_flight b -> exists r, b = 255 :: 216 :: r /\ find2 255 217 r = None.
Proof.
  intros [Hs He]. destruct b as [|x [|y r]]; try discriminate.
  simpl in Hs. apply andb_prop in Hs. destruct Hs as [H1 H2].
  apply Z.eqb_eq in H1, H2. subst. exists r. split; [reflexivity|exact He].
Qed.

(** One byte after the head of a frame, by whether it completes an end
    marker. *)
Lemma step_in_flight_cases (r : list Z) (c : Z) :
  find2 255 217 r = None ->
  on_data (255 :: 216 :: r) [c]
  = match find2 255 217 (r ++ [c]) with
    | None => Some (255 :: 216 :: r ++ [c], [])
    | Some _ => Some ([], [255 :: 216 :: r ++ [c]])
    end.
Proof.
  intros He.
  assert (Hif : in_flight (255 :: 216 :: r)) by (split; [reflexivity|exact He]).
  destruct (step_in_flight _ c Hif) as [[[_ Hn] E]|E].
  - simpl skipn in Hn. rewrite Hn. exact E.
  - destruct (find2 255 217 (r ++ [c])) as [k|] eqn:Ek; [exact E|].
    exfalso. rewrite on_data_unfold, indexOf2_zero in E.
    change ((255 :: 216 :: r) ++ [c]) with (255 :: 216 :: (r ++ [c])) in E.
    assert (E0 : find2 255 216 (255 :: 216 :: r ++ [c]) = Some 0%nat) by reflexivity.
    rewrite E0 in E. unfold indexOf2 in E. simpl skipn in E. rewrite Ek in E.
    simpl in E. discriminate E.
Qed.

Lemma feed_bytes_no_start (l : list Z) :
  forall j, find2 255 216 (j ++ l) = None -> feed j (bytewise l) = Some (j ++ l, []).
Proof.
  induction l as [|c l IH]; intros j H.
  - simpl. rewrite app_nil_r. reflexivity.
  - change (j ++ c :: l) with (j ++ [c] ++ l) in *. rewrite app_assoc in *.
    simpl. rewrite (on_data_no_start j [c] (find2_none_prefix _ _ _ _ H)).
    rewrite (IH _ H). reflexivity.
Qed.

Lemma feed_bytes_in_flight (l : list Z) :
  forall r, find2 255 217 (r ++ l) = None ->
    feed (255 :: 216 :: r) (bytewise l) = Some (255 :: 216 :: r ++ l, []).
Proof.
  induction l as [|c l IH]; intros r H.
  - simpl. rewrite app_nil_r. reflexivity.
  - change (r ++ c :: l) with (r ++ [c] ++ l) in *. rewrite app_assoc in *.
    pose proof (find2_none_prefix _ _ _ _ H) as Hc.
    simpl. rewrite (step_in_flight_cases r c (find2_none_prefix _ _ _ _ Hc)), Hc.
    rewrite (IH _ H). reflexivity.
Qed.

Lemma firstn_succ_of_app (x : list Z) (a b : Z) (l : list Z) (k : nat) :
  length x = k -> firstn (k + 2) l = x ++ [a; b] -> firstn (k + 1) l = x ++ [a].
Proof.
  intros Hk H.
  assert (E : firstn (k + 1) l = firstn (k + 1) (firstn (k + 2) l)).
  { rewrite firstn_firstn. f_equal. lia. }
  rewrite E, H, firstn_app, Hk.
  rewrite firstn_all2 by lia.
  replace (k + 1 - k)%nat with 1%nat by lia. reflexivity.
Qed.

(** Bytes up to and including the first start marker: the buffer is cut down
    to the marker. *)
Lemma feed_bytes_to_start (l : list Z) (js : nat) :
  find2 255 216 l = Some js ->
  feed [] (bytewise (firstn (js + 2) l)) = Some ([255; 216], []).
Proof.
  intros H. destruct (find2_first _ _ _ _ H) as [Hn Hf].
  pose proof (find2_bound _ _ _ _ H) as Hb.
  assert (Hlen : length (firstn js l) = js) by (rewrite length_firstn; lia).
  pose proof (firstn_succ_of_app _ _ _ _ _ Hlen Hf) as H1.
  rewrite H1 in Hn. rewrite Hf.
  change [255; 216] with ([255] ++ [216]) at 1. rewrite app_assoc, bytewise_app, feed_app.
  rewrite (feed_bytes_no_start (firstn js l ++ [255]) [] Hn).
  simpl app. simpl feed.
  destruct (step_no_start (firstn js l ++ [255]) 216 Hn) as [[Hc _]|[_ E]].
  - exfalso. rewrite <- app_assoc in Hc. exact (find2_app_pattern 255 216 _ Hc).
  - rewrite E. reflexivity.
Qed.

(** Bytes up to and including the first end marker after the first start
    marker: one frame, and an empty buffer. *)
Lemma feed_bytes_one_frame (l : list Z) (js k : nat) :
  find2 255 216 l = Some js ->
  find2 255 217 (skipn (js + 2) l) = Some k ->
  feed [] (bytewise (firstn (js + 2 + (k + 2)) l))
  = Some ([], [firstn (k + 4) (skipn js l)]).
Proof.
  intros Hs He.
  set (m := skipn (js + 2) l) in *.
  destruct (find2_first _ _ _ _ He) as [Hn Hf].
  pose proof (find2_bound _ _ _ _ He) as Hb.
  assert (Hlen : length (firstn k m) = k) by (rewrite length_firstn; lia).
  pose proof (firstn_succ_of_app _ _ _ _ _ Hlen Hf) as H1.
  rewrite H1 in Hn.
  rewrite firstn_add. fold m. rewrite bytewise_app, feed_app.
  rewrite (feed_bytes_to_start l js Hs).
  rewrite Hf. change [255; 217] with ([255] ++ [217]). rewrite app_assoc, bytewise_app, feed_app.
  rewrite (feed_bytes_in_flight (firstn k m ++ [255]) [] Hn).
  simpl app. simpl feed.
  assert (Hn' : find2 255 217 (firstn k m ++ [255]) = None) by exact Hn.
  rewrite (step_in_flight_cases (firstn k m ++ [255]) 217 Hn').
  assert (Hfound : find2 255 217 ((firstn k m ++ [255]) ++ [217]) = Some k).
  { rewrite <- app_assoc. simpl app. rewrite <- Hf. apply find2_firstn. exact He. }
  rewrite Hfound. simpl. f_equal. f_equal. f_equal.
  destruct (find2_sound _ _ _ _ Hs) as [rest Er].
  rewrite Er.
  assert (Em : m = rest).
  { unfold m. rewrite Nat.add_comm, <- skipn_skipn, Er. reflexivity. }
  replace (k + 4)%nat with (S (S (k + 2))) by lia. cbn [firstn].
  rewrite <- Em, Hf, <- app_assoc. reflexivity.
Qed.

(** The loop over a whole buffer, from a cursor at the end of [p], and the
    handler fed the rest byte by byte, emit the same frames. *)
Lemma scan_matches_bytewise (n : nat) :
  forall (r p : list Z) (frames : list Buffer),
    (length r <= n)%nat ->
    exists b s more bw,
      scan (S n) (p ++ r) (length p) frames = Some (b, s, frames ++ more) /\
      feed [] (bytewise r) = Some (bw, more).
Proof.
  assert (Hnil : forall fuel p frames,
            exists b s more bw,
              scan (S fuel) (p ++ []) (length p) frames = Some (b, s, frames ++ more) /\
              feed [] (bytewise []) = Some (bw, more)).
  { intros fuel p frames. exists (p ++ []), (length p), [], []. split; [|reflexivity].
    rewrite scan_done by (rewrite length_app; simpl; lia).
    rewrite !app_nil_r. reflexivity. }
  induction n as [|n IH]; intros r p frames Hlen.
  - assert (r = []) by (destruct r; [reflexivity|simpl in Hlen; lia]). subst r. apply Hnil.
  - destruct (Nat.eq_dec (length r) 0) as [Hz|Hnz].
    + apply length_zero_iff_nil in Hz. subst r. apply Hnil.
    + rewrite scan_unfold.
      assert (Hcur : (length p <? length (p ++ r))%nat = true).
      { apply Nat.ltb_lt. rewrite length_app. lia. }
      rewrite Hcur, indexOf2_at_prefix.
      destruct (find2 255 216 r) as [js|] eqn:Es; cbn [option_map].
      * replace (length p + js + 2)%nat with (length p + (js + 2))%nat by lia.
        rewrite indexOf2_after_prefix.
        destruct (find2 255 217 (skipn (js + 2) r)) as [k|] eqn:Ee; cbn [option_map].
        -- pose proof (find2_bound _ _ _ _ Es) as Bs.
           pose proof (find2_bound _ _ _ _ Ee) as Be.
           rewrite length_skipn in Be.
           set (cut := (js + 2 + (k + 2))%nat).
           set (r1 := firstn cut r). set (r2 := skipn cut r).
           assert (Hr : r = r1 ++ r2) by (symmetry; apply firstn_skipn).
           assert (Hl1 : length r1 = cut) by (unfold r1; rewrite length_firstn; lia).
           assert (Hl2 : (length r2 <= n)%nat).
           { unfold r2. rewrite length_skipn. unfold cut. lia. }
           set (frame := slice (p ++ r) (length p + js) (length p + (js + 2) + k + 2)).
           destruct (IH r2 (p ++ r1) (frames ++ [frame]) Hl2) as (b & s & more & bw & Hs & Hf).
           exists b, s, (frame :: more), bw. split.
           ++ replace (length p + (js + 2) + k + 2)%nat with (length (p ++ r1))
                by (rewrite length_app, Hl1; unfold cut; lia).
              rewrite Hr at 1. rewrite app_assoc, Hs.
              rewrite <- app_assoc. reflexivity.
           ++ rewrite Hr, bytewise_app, feed_app.
              unfold r1, cut. rewrite (feed_bytes_one_frame r js k Es Ee).
              fold cut. fold r2. rewrite Hf. simpl app. f_equal. f_equal. f_equal.
              unfold frame, slice.
              replace (length p + (js + 2) + k + 2 - (length p + js))%nat with (k + 4)%nat by lia.
              rewrite skipn_length_app. reflexivity.
        -- eexists _, _, [], _. split; [rewrite app_nil_r; reflexivity|].
           rewrite <- (firstn_skipn (js + 2) r) at 1.
           rewrite bytewise_app, feed_app, (feed_bytes_to_start r js Es).
           rewrite (feed_bytes_in_flight (skipn (js + 2) r) [] Ee). reflexivity.
      * eexists _, _, [], _. split; [rewrite app_nil_r; reflexivity|].
        exact (feed_bytes_no_start r [] Es).
Qed.

(** X4.  Delivering a stream one byte per chunk emits exactly the frames that
    delivering it as a single chunk emits, for every stream (with or without
    bytes between the frames). *)
Theorem bytewise_feed_emits_the_same_frames (stream : list Z) :
  exists b1 b2 frames,
    feed [] (bytewise stream) = Some (b1, frames) /\
    feed [] [stream] = Some (b2, frames).
Proof.
  destruct (scan_matches_bytewise (length stream) stream [] [] (le_n _))
    as (b & s & more & bw & Hs & Hf).
  exists bw, (fst (finish (b, s, more))), more. split; [exact Hf|].
  cbn [feed]. unfold on_data. simpl app in *. simpl length in Hs. rewrite Hs.
  cbn [option_map finish fst]. rewrite app_nil_r. reflexivity.
Qed.

End DemuxBytewiseEqualsWhole.

(** ** OSC codec: outcomes of decoding and encoding *)

Section OscMore.

Lemma indexOf0_range (b : Buffer) (o : Z) :
  indexOf0 b o = -1 \/ (0 <= indexOf0 b o < blen b /\ o <= indexOf0 b o).
Proof.
  unfold indexOf0. pose proof (blen_nonneg b) as Hb.
  destruct ((0 <=? o) && (blen b <? o + 1)) eqn:E; [left; reflexivity|].
  set (start := if o <? 0 then if 0 <=? o + blen b then o + blen b else 0 else o).
  assert (Hs : 0 <= start /\ o <= start).
  { unfold start. destruct (Z.ltb_spec o 0); [|lia].
    destruct (Z.leb_spec 0 (o + blen b)); lia. }
  destruct (find0 (skipn (Z.to_nat start) b)) as [k|] eqn:Ek; [right|left; reflexivity].
  apply find0_sound in Ek. destruct Ek as [Hk _]. rewrite length_skipn in Hk.
  unfold blen in *. lia.
Qed.

Lemma byteAt_in_range (b : Buffer) (i : Z) :
  0 <= i < blen b -> exists v, byteAt b i = Some v.
Proof.
  intros H. unfold byteAt. destruct (Z.ltb_spec i 0); [lia|].
  destruct (nth_error b (Z.to_nat i)) as [v|] eqn:E; [exists v; reflexivity|].
  apply nth_error_None in E. unfold blen in H. lia.
Qed.

Lemma readFloatBE_in_range (b : Buffer) (o : Z) :
  0 <= o -> o + 4 <= blen b -> exists v, readFloatBE b o = Some v.
Proof.
  intros H0 H4. unfold readFloatBE.
  destruct (byteAt_in_range b o) as [v0 ->]; [lia|].
  destruct (byteAt_in_range b (o + 3)) as [v3 ->]; [lia|].
  destruct (byteAt_in_range b (o + 1)) as [v1 ->]; [lia|].
  destruct (byteAt_in_range b (o + 2)) as [v2 ->]; [lia|].
  eexists; reflexivity.
Qed.

Lemma readInt32BE_in_range (b : Buffer) (o : Z) :
  0 <= o -> o + 4 <= blen b -> exists v, readInt32BE b o = Some v.
Proof.
  intros H0 H4. unfold readInt32BE.
  destruct (byteAt_in_range b o) as [v0 ->]; [lia|].
  destruct (byteAt_in_range b (o + 3)) as [v3 ->]; [lia|].
  destruct (byteAt_in_range b (o + 1)) as [v1 ->]; [lia|].
  destruct (byteAt_in_range b (o + 2)) as [v2 ->]; [lia|].
  eexists; reflexivity.
Qed.

Lemma ceil4_nonneg (n : Z) : 0 <= n -> 0 <= ceil4 n.
Proof. unfold ceil4. intros H. Z.to_euclidean_division_equations. lia. Qed.

(** Without a blob in the type list the offset never goes below zero, and no
    read is out of bounds. *)
Lemma parse_args_without_blob (buffer : Buffer) (types : list Z) :
  forall (offset : Z) (acc : list osc_value),
    ~ In ch_b types -> 0 <= offset ->
    exists r, parse_args buffer types offset acc = Some r.
Proof.
  induction types as [|t types IH]; intros offset acc Hb H0.
  - eexists; reflexivity.
  - assert (Ht : t <> ch_b) by (intros E; apply Hb; left; exact E).
    assert (Hb' : ~ In ch_b types) by (intros E; apply Hb; right; exact E).
    cbn [parse_args].
    destruct (offset <? blen buffer); [|eexists; reflexivity].
    destruct (t =? ch_f).
    { destruct (Z.ltb_spec (blen buffer) (offset + 4)); [eexists; reflexivity|].
      destruct (readFloatBE_in_range buffer offset) as [v ->]; [lia|lia|].
      apply IH; [exact Hb'|lia]. }
    destruct (t =? ch_i).
    { destruct (Z.ltb_spec (blen buffer) (offset + 4)); [eexists; reflexivity|].
      destruct (readInt32BE_in_range buffer offset) as [v ->]; [lia|lia|].
      apply IH; [exact Hb'|lia]. }
    destruct (t =? ch_s).
    { cbv zeta. destruct (Z.eqb_spec (indexOf0 buffer offset) (-1)); [eexists; reflexivity|].
      apply IH; [exact Hb'|].
      destruct (indexOf0_range buffer offset) as [E|[E _]]; [contradiction|].
      apply ceil4_nonneg. lia. }
    destruct (Z.eqb_spec t ch_b); [contradiction|].
    apply IH; assumption.
Qed.

(** X5.  A datagram whose type tag names no blob never makes the decoder
    raise: the result is a message or [null]. *)
Theorem decode_without_blob_never_throws (buffer : Buffer) :
  let offset := ceil4 (indexOf0 buffer 0 + 1) in
  ~ In ch_b (tl (toString buffer offset (indexOf0 buffer offset))) ->
  parseOscMessage buffer <> Throws.
Proof.
  intros offset Hb. unfold parseOscMessage. fold offset.
  destruct (Z.eqb_spec (indexOf0 buffer 0) (-1)); [discriminate|].
  destruct (blen buffer <=? offset); [discriminate|].
  destruct (Z.eqb_spec (indexOf0 buffer offset) (-1)); [discriminate|].
  destruct (parse_args_without_blob buffer _ (ceil4 (indexOf0 buffer offset + 1)) [] Hb)
    as [r ->]; [|discriminate].
  destruct (indexOf0_range buffer offset) as [E|[E _]]; [contradiction|].
  apply ceil4_nonneg. lia.
Qed.

Lemma decode_without_blob_never_throws_witness :
  let buffer := [47; 97; 0; 0; 44; 102; 115; 105; 0; 0; 0; 0; 63; 128; 0; 0; 104; 105] in
  ~ In ch_b (tl (toString buffer (ceil4 (indexOf0 buffer 0 + 1))
                   (indexOf0 buffer (ceil4 (indexOf0 buffer 0 + 1))))) /\
  parseOscMessage buffer = Parsed (mkMessage [47; 97] [ch_f; ch_s; ch_i] [VFloat 1065353216]) /\
  parseOscMessage buffer <> Throws.
Proof.
  intros buffer.
  assert (Hb : ~ In ch_b (tl (toString buffer (ceil4 (indexOf0 buffer 0 + 1))
                                (indexOf0 buffer (ceil4 (indexOf0 buffer 0 + 1)))))).
  { vm_compute. intros [E|[E|[E|[]]]]; discriminate E. }
  split; [exact Hb|]. split; [reflexivity|].
  exact (decode_without_blob_never_throws buffer Hb).
Defined.

Lemma prefix_filter_step (vs : list osc_value) (types : list Z) (t : Z) :
  (exists rest, filter carries_data types = map value_code vs ++ rest) ->
  carries_data t = false ->
  exists rest, filter carries_data (t :: types) = map value_code vs ++ rest.
Proof. intros [rest E] Ht. exists rest. simpl. rewrite Ht. exact E. Qed.

(** The values the loop appends follow the data-carrying type characters, in
    order. *)
Lemma parse_args_follows_types (buffer : Buffer) (types : list Z) :
  forall (offset : Z) (acc r : list osc_value),
    parse_args buffer types offset acc = Some r ->
    exists vs rest,
      r = acc ++ vs /\ filter carries_data types = map value_code vs ++ rest.
Proof.
  induction types as [|t types IH]; intros offset acc r H.
  - inversion H; subst. exists [], []. split; [symmetry; apply app_nil_r|reflexivity].
  - assert (Hstop : exists vs rest,
              acc = acc ++ vs /\ filter carries_data (t :: types) = map value_code vs ++ rest).
    { exists [], (filter carries_data (t :: types)).
      split; [symmetry; apply app_nil_r|reflexivity]. }
    assert (Hpush : forall v o r',
              value_code v = t ->
              parse_args buffer types o (acc ++ [v]) = Some r' ->
              exists vs rest,
                r' = acc ++ vs /\
                filter carries_data (t :: types) = map value_code vs ++ rest).
    { intros v o r' Hv Hr. apply IH in Hr. destruct Hr as (vs & rest & E1 & E2).
      exists (v :: vs), rest. split; [rewrite E1, <- app_assoc; reflexivity|].
      assert (Hc : carries_data t = true) by (rewrite <- Hv; destruct v; reflexivity).
      simpl. rewrite Hc, E2, Hv. reflexivity. }
    cbn [parse_args] in H.
    destruct (offset <? blen buffer); [|inversion H; subst; exact Hstop].
    destruct (Z.eqb_spec t ch_f) as [Ef|Nf].
    { destruct (blen buffer <? offset + 4); [inversion H; subst; exact Hstop|].
      destruct (readFloatBE buffer offset) as [v|]; [|discriminate].
      exact (Hpush (VFloat v) _ r (eq_sym Ef) H). }
    destruct (Z.eqb_spec t ch_i) as [Ei|Ni].
    { destruct (blen buffer <? offset + 4); [inversion H; subst; exact Hstop|].
      destruct (readInt32BE buffer offset) as [v|]; [|discriminate].
      exact (Hpush (VInt v) _ r (eq_sym Ei) H). }
    destruct (Z.eqb_spec t ch_s) as [Es|Ns].
    { cbv zeta in H. destruct (indexOf0 buffer offset =? -1);
        [inversion H; subst; exact Hstop|].
      exact (Hpush (VString _) _ r (eq_sym Es) H). }
    destruct (Z.eqb_spec t ch_b) as [Eb|Nb].
    { destruct (blen buffer <? offset + 4); [inversion H; subst; exact Hstop|].
      destruct (readInt32BE buffer offset) as [size|]; [|discriminate].
      cbv zeta in H. destruct (blen buffer <? offset + 4 + size);
        [inversion H; subst; exact Hstop|].
      exact (Hpush (VBlob _) _ r (eq_sym Eb) H). }
    apply IH in H. destruct H as (vs & rest & E1 & E2).
    exists vs, rest. split; [exact E1|].
    assert (Hc : carries_data t = false).
    { unfold carries_data.
      destruct (Z.eqb_spec t ch_f); [contradiction|].
      destruct (Z.eqb_spec t ch_i); [contradiction|].
      destruct (Z.eqb_spec t ch_s); [contradiction|].
      destruct (Z.eqb_spec t ch_b); [contradiction|]. reflexivity. }
    simpl. rewrite Hc. exact E2.
Qed.

Lemma find0_prefix_nonzero (l : list Z) (k : nat) :
  find0 l = Some k -> Forall (fun c => c <> 0) (firstn k l).
Proof.
  revert k. induction l as [|x l IH]; intros k H; [discriminate|].
  simpl in H. destruct (Z.eqb_spec x 0) as [E|N].
  - inversion H; subst. constructor.
  - destruct (find0 l) as [j|]; [|discriminate]. inversion H; subst.
    simpl. constructor; [exact N|]. apply IH. reflexivity.
Qed.

Lemma indexOf0_zero (b : Buffer) :
  indexOf0 b 0 = match find0 b with Some k => Z.of_nat k | None => -1 end.
Proof.
  unfold indexOf0. pose proof (blen_nonneg b) as Hb.
  destruct (Z.ltb_spec (blen b) (0 + 1)) as [L|L]; simpl.
  - assert (b = []) by (apply blen_zero_nil; lia). subst b. reflexivity.
  - destruct (find0 b); reflexivity.
Qed.

Lemma toString_from_zero (b : Buffer) (e : Z) :
  0 <= e <= blen b -> toString b 0 e = firstn (Z.to_nat e) b.
Proof.
  intros H. unfold toString.
  change (0 <? 0) with false. change (0 <=? 0) with true. cbv iota. simpl andb. cbv iota.
  destruct (Z.ltb_spec (blen b) e); [lia|].
  destruct (Z.leb_spec e 0).
  - replace e with 0 by lia. reflexivity.
  - unfold range. rewrite Z.sub_0_r. reflexivity.
Qed.

(** X6.  In every decoded message the address holds no NUL character, and the
    arguments follow the type tag: read in order, their types are those of
    the leading data-carrying characters (f, i, s, b) of the type list, so
    there are never more arguments than such characters. *)
Theorem decoded_message_follows_its_type_tag (buffer : Buffer) (m : osc_message) :
  parseOscMessage buffer = Parsed m ->
  Forall (fun c => c <> 0) (address m) /\
  exists rest, filter carries_data (types m) = map value_code (args m) ++ rest.
Proof.
  unfold parseOscMessage. rewrite indexOf0_zero.
  destruct (find0 buffer) as [k|] eqn:Ek; [|discriminate].
  destruct (Z.eqb_spec (Z.of_nat k) (-1)); [lia|].
  assert (Haddr : Forall (fun c => c <> 0) (toString buffer 0 (Z.of_nat k))).
  { pose proof (find0_sound _ _ Ek) as [Hk _].
    rewrite toString_from_zero by (unfold blen; lia).
    rewrite Nat2Z.id. apply find0_prefix_nonzero. exact Ek. }
  destruct (blen buffer <=? ceil4 (Z.of_nat k + 1)).
  - intros H. inversion H; subst m. simpl. split; [exact Haddr|]. exists []. reflexivity.
  - destruct (indexOf0 buffer (ceil4 (Z.of_nat k + 1)) =? -1); [discriminate|].
    destruct (parse_args _ _ _ _) as [r|] eqn:Er; [|discriminate].
    intros H. inversion H; subst m. simpl. split; [exact Haddr|].
    apply parse_args_follows_types in Er. destruct Er as (vs & rest & E1 & E2).
    simpl in E1. subst r. exists rest. exact E2.
Qed.

Lemma decoded_message_follows_its_type_tag_witness :
  let buffer := [47; 97; 0; 0; 44; 84; 102; 120; 115; 0; 0; 0; 63; 128; 0; 0; 104; 105; 0; 0] in
  let m := mkMessage [47; 97] [ch_T; ch_f; 120; ch_s] [VFloat 1065353216; VString [104; 105]] in
  parseOscMessage buffer = Parsed m /\
  Forall (fun c => c <> 0) (address m) /\
  exists rest, filter carries_data (types m) = map value_code (args m) ++ rest.
Proof.
  intros buffer m.
  assert (H : parseOscMessage buffer = Parsed m) by reflexivity.
  split; [exact H|]. exact (decoded_message_follows_its_type_tag buffer m H).
Defined.

End OscMore.

Section OscMoreOutcomes.

Lemma indexOf0_none_iff (b : Buffer) (o : Z) :
  0 <= o < blen b ->
  (indexOf0 b o = -1 <-> Forall (fun c => c <> 0) (skipn (Z.to_nat o) b)).
Proof.
  intros H. unfold indexOf0.
  destruct (Z.leb_spec 0 o); [|lia].
  destruct (Z.ltb_spec (blen b) (o + 1)); [lia|]. simpl andb. cbv iota.
  destruct (Z.ltb_spec o 0); [lia|].
  destruct (find0 (skipn (Z.to_nat o) b)) as [k|] eqn:Ek.
  - split; [lia|]. intros F. apply find0_none in F. rewrite F in Ek. discriminate Ek.
  - split; [|reflexivity]. intros _. apply find0_none. exact Ek.
Qed.

(** X7.  The decoder returns [null] in two cases only, read off the bytes:
    the datagram has no zero byte at all; or bytes remain after the address
    and its padding and none of them is zero. *)
Theorem decode_null_by_content (buffer : Buffer) :
  parseOscMessage buffer = Null <->
  match find0 buffer with
  | None => True
  | Some e =>
      let offset := Z.to_nat (ceil4 (Z.of_nat e + 1)) in
      (offset < length buffer)%nat /\ Forall (fun c => c <> 0) (skipn offset buffer)
  end.
Proof.
  rewrite parse_null_iff, indexOf0_zero.
  destruct (find0 buffer) as [e|] eqn:Ee.
  - cbv zeta.
    assert (H0 : 0 <= ceil4 (Z.of_nat e + 1)) by (apply ceil4_nonneg; lia).
    split.
    + intros [E|[L E]]; [lia|].
      split; [unfold blen in L; lia|].
      apply indexOf0_none_iff; [lia|exact E].
    + intros [L F]. right.
      assert (L' : ceil4 (Z.of_nat e + 1) < blen buffer) by (unfold blen; lia).
      split; [exact L'|]. apply indexOf0_none_iff; [lia|exact F].
  - split; [trivial|]. intros _. left. reflexivity.
Qed.

Lemma args_size_nonneg (args : list osc_arg) : 0 <= args_size args /\ args_size args mod 4 = 0.
Proof.
  induction args as [|a args [IH1 IH2]]; [split; [simpl; lia|reflexivity]|].
  cbn [args_size fold_right]. fold (args_size args).
  assert (Ha : 0 <= arg_size a /\ arg_size a mod 4 = 0).
  { destruct a; simpl; try (split; [lia|reflexivity]).
    split; [apply ceil4_nonneg; pose proof (blen_nonneg s); lia|apply ceil4_multiple]. }
  destruct Ha as [Ha1 Ha2]. split; [lia|].
  rewrite Z.add_mod, Ha2, IH2 by discriminate. reflexivity.
Qed.

Lemma blen_argBufs (args : list osc_arg) (bs : Buffer) :
  argBufs args = Some bs -> blen bs = args_size args.
Proof.
  revert bs. induction args as [|a args IH]; intros bs H.
  - inversion H; subst. reflexivity.
  - simpl in H. destruct (argBuf a) as [x|] eqn:Ea; [|discriminate].
    destruct (argBufs args) as [y|] eqn:Er; [|discriminate].
    inversion H; subst bs. rewrite blen_app, (IH y eq_refl).
    cbn [args_size fold_right]. fold (args_size args). f_equal.
    destruct a; simpl in Ea; simpl arg_size.
    + inversion Ea; subst. reflexivity.
    + apply intToBuffer_some in Ea. destruct Ea as [_ ->]. reflexivity.
    + inversion Ea; subst. apply blen_writePaddedString.
    + inversion Ea; subst. reflexivity.
    + inversion Ea; subst. reflexivity.
Qed.

(** X8.  The size of an encoded message: the padded address, the padded type
    tag (a comma and one character per argument), four bytes per float and
    per integer, the padded length of each string, and nothing for T and F.
    The total is a multiple of 4. *)
Theorem encoded_message_size (address : list Z) (args : list osc_arg) (buf : Buffer) :
  buildOscMessage address args = Some buf ->
  blen buf
  = ceil4 (blen address + 1) + ceil4 (Z.of_nat (length args) + 2) + args_size args
  /\ blen buf mod 4 = 0.
Proof.
  unfold buildOscMessage. destruct (argBufs args) as [bs|] eqn:E; [|discriminate].
  intros H. inversion H; subst buf.
  assert (Hsize : blen (writePaddedString address ++ typeBuf (map type_code args) ++ bs)
                  = ceil4 (blen address + 1) + ceil4 (Z.of_nat (length args) + 2)
                    + args_size args).
  { rewrite !blen_app, (blen_argBufs _ _ E). unfold typeBuf.
    rewrite !blen_writePaddedString, blen_cons. unfold blen at 2.
    rewrite length_map.
    replace (1 + Z.of_nat (length args) + 1) with (Z.of_nat (length args) + 2) by lia.
    lia. }
  split; [exact Hsize|]. rewrite Hsize.
  destruct (args_size_nonneg args) as [_ Hm].
  rewrite Z.add_mod, Hm by discriminate.
  rewrite (Z.add_mod (ceil4 _) (ceil4 _)), !ceil4_multiple by discriminate.
  reflexivity.
Qed.

Lemma encoded_message_size_witness :
  let args := [ArgFloat 1069547520; ArgString [104; 105; 33; 33]; ArgTrue; ArgInt 7] in
  buildOscMessage [47; 97; 98] args
  = Some [47; 97; 98; 0; 44; 102; 115; 84; 105; 0; 0; 0; 63; 192; 0; 0;
          104; 105; 33; 33; 0; 0; 0; 0; 0; 0; 0; 7] /\
  28 = ceil4 (blen [47; 97; 98] + 1) + ceil4 (Z.of_nat (length args) + 2) + args_size args /\
  28 mod 4 = 0.
Proof.
  intros args.
  assert (H : buildOscMessage [47; 97; 98] args
              = Some [47; 97; 98; 0; 44; 102; 115; 84; 105; 0; 0; 0; 63; 192; 0; 0;
                      104; 105; 33; 33; 0; 0; 0; 0; 0; 0; 0; 7]) by reflexivity.
  split; [exact H|]. exact (encoded_message_size _ _ _ H).
Defined.

Lemma argBufs_none_iff (args : list osc_arg) :
  argBufs args = None <-> Exists overflows args.
Proof.
  induction args as [|a args IH].
  - split; [discriminate|]. intros H. inversion H.
  - simpl. destruct (argBuf a) as [x|] eqn:Ea.
    + assert (Ha : ~ overflows a).
      { destruct a; simpl; try tauto. simpl in Ea. apply intToBuffer_some in Ea. lia. }
      destruct (argBufs args) as [y|].
      * split; [discriminate|]. intros H. inversion H; subst; [contradiction|].
        destruct IH as [_ IH]. specialize (IH H1). discriminate IH.
      * split; [intros _; right; apply IH; reflexivity|reflexivity].
    + split; [|reflexivity]. intros _. left.
      destruct a; simpl in Ea; try discriminate. simpl.
      destruct (Z.lt_ge_cases n (- 2 ^ 31)); [left; assumption|].
      destruct (Z.lt_ge_cases n (2 ^ 31)); [|right; assumption].
      rewrite intToBuffer_in_range in Ea by lia. discriminate Ea.
Qed.

(** X9.  Encoding fails (the [RangeError] of [writeInt32BE], which [sendOsc]
    catches) exactly when some integer argument is outside the signed 32-bit
    range; no address and no float, string or boolean argument makes it
    fail. *)
Theorem encode_fails_only_on_integer_overflow (address : list Z) (args : list osc_arg) :
  buildOscMessage address args = None <-> Exists overflows args.
Proof.
  rewrite <- argBufs_none_iff. unfold buildOscMessage.
  destruct (argBufs args); split; intros H; try discriminate H; reflexivity.
Qed.

End OscMoreOutcomes.

Section OscTruncation.

Lemma parse_args_float_break (buffer : Buffer) (rest : list Z) (offset : Z)
    (acc : list osc_value) :
  blen buffer < offset + 4 ->
  parse_args buffer (ch_f :: rest) offset acc = Some acc.
Proof.
  intros H. cbn [parse_args]. destruct (offset <? blen buffer); [|reflexivity].
  rewrite Z.eqb_refl. destruct (Z.ltb_spec (blen buffer) (offset + 4)); [reflexivity|lia].
Qed.

Lemma parse_args_int_break (buffer : Buffer) (rest : list Z) (offset : Z)
    (acc : list osc_value) :
  blen buffer < offset + 4 ->
  parse_args buffer (ch_i :: rest) offset acc = Some acc.
Proof.
  intros H. cbn [parse_args]. destruct (offset <? blen buffer); [|reflexivity].
  change (ch_i =? ch_f) with false. rewrite Z.eqb_refl. cbv iota.
  destruct (Z.ltb_spec (blen buffer) (offset + 4)); [reflexivity|lia].
Qed.

Lemma parse_args_string_break (buffer : Buffer) (rest : list Z) (offset : Z)
    (acc : list osc_value) :
  indexOf0 buffer offset = -1 ->
  parse_args buffer (ch_s :: rest) offset acc = Some acc.
Proof.
  intros H. cbn [parse_args]. destruct (offset <? blen buffer); [|reflexivity].
  change (ch_s =? ch_f) with false. change (ch_s =? ch_i) with false.
  rewrite Z.eqb_refl. cbv iota zeta. rewrite H. reflexivity.
Qed.

Lemma indexOf0_no_nul_tail (pre t : Buffer) :
  Forall (fun c => c <> 0) t -> t <> [] -> indexOf0 (pre ++ t) (blen pre) = -1.
Proof.
  intros Ht Hne. apply indexOf0_none_iff.
  - rewrite blen_app. pose proof (blen_nonneg pre). pose proof (blen_nonneg t).
    assert (blen t <> 0) by (intros E; apply Hne; apply blen_zero_nil; lia). lia.
  - rewrite skipn_blen_app. exact Ht.
Qed.

Lemma Forall_firstn_nonzero (n : nat) (l : list Z) :
  Forall (fun c => c <> 0) l -> Forall (fun c => c <> 0) (firstn n l).
Proof.
  intros H. rewrite Forall_forall in *. intros x Hx. apply H.
  rewrite <- (firstn_skipn n l). apply in_or_app. left. exact Hx.
Qed.

(** A message cut short anywhere in its argument bytes: the loop reads the
    arguments that are complete and stops. *)
Lemma parse_args_truncated (args : list osc_arg) :
  forall (pre bs : Buffer) (k : nat) (acc : list osc_value),
    blen pre mod 4 = 0 ->
    Forall wf_arg args ->
    argBufs args = Some bs ->
    exists vs rest,
      parse_args (pre ++ firstn k bs) (map type_code args) (blen pre) acc = Some (acc ++ vs) /\
      arg_values args = vs ++ rest.
Proof.
  induction args as [|a args IH]; intros pre bs k acc Hpre Hwf Hbs.
  - exists [], []. split; [simpl; rewrite app_nil_r; reflexivity|reflexivity].
  - assert (Hstop : forall b,
              parse_args b (map type_code (a :: args)) (blen pre) acc = Some acc ->
              exists vs rest,
                parse_args b (map type_code (a :: args)) (blen pre) acc = Some (acc ++ vs) /\
                arg_values (a :: args) = vs ++ rest).
    { intros b E. exists [], (arg_values (a :: args)).
      split; [rewrite app_nil_r; exact E|reflexivity]. }
    destruct (Z.le_gt_cases (blen (pre ++ firstn k bs)) (blen pre)) as [Hend|Hmore].
    { apply Hstop. apply parse_args_end. exact Hend. }
    simpl in Hbs.
    destruct (argBuf a) as [x|] eqn:Ea; [|discriminate].
    destruct (argBufs args) as [y|] eqn:Er; [|discriminate].
    inversion Hbs; subst bs. clear Hbs.
    inversion Hwf as [|? ? Hwa Hwr]; subst.
    rewrite firstn_app in *.
    destruct (Nat.le_gt_cases (length x) k) as [Hfull|Hcut].
    + rewrite firstn_all2 in * by exact Hfull.
      set (y' := firstn (k - length x) y) in *.
      assert (Hnext : forall acc', blen x mod 4 = 0 ->
                exists vs rest,
                  parse_args ((pre ++ x) ++ y') (map type_code args) (blen pre + blen x) acc'
                  = Some (acc' ++ vs) /\ arg_values args = vs ++ rest).
      { intros acc' Hx. rewrite <- blen_app. apply IH; [|assumption|reflexivity].
        rewrite blen_app, Z.add_mod, Hpre, Hx by discriminate. reflexivity. }
      unfold arg_values. simpl map. simpl flat_map. fold (arg_values args).
      destruct a; simpl in Ea, Hwa.
      * inversion Ea; subst x. unfold floatToBuffer in *.
        rewrite parse_args_float with (v := bits).
        -- rewrite app_assoc. change (blen pre + 4) with (blen pre + blen (be32 bits)).
           destruct (Hnext (acc ++ [VFloat bits]) eq_refl) as (vs & rest & E1 & E2).
           exists (VFloat bits :: vs), rest. rewrite E1, E2, <- app_assoc. split; reflexivity.
        -- assumption.
        -- rewrite !blen_app, blen_be32. pose proof (blen_nonneg y'). lia.
        -- apply readFloatBE_be32. assumption.
      * apply intToBuffer_some in Ea. destruct Ea as [_ ->].
        rewrite parse_args_int with (v := n).
        -- rewrite app_assoc.
           change (blen pre + 4) with (blen pre + blen (be32 (n mod 2 ^ 32))).
           destruct (Hnext (acc ++ [VInt n]) eq_refl) as (vs & rest & E1 & E2).
           exists (VInt n :: vs), rest. rewrite E1, E2, <- app_assoc. split; reflexivity.
        -- assumption.
        -- rewrite !blen_app, blen_be32. pose proof (blen_nonneg y'). lia.
        -- apply readInt32BE_be32. assumption.
      * inversion Ea; subst x.
        assert (Hidx : indexOf0 (pre ++ writePaddedString s ++ y') (blen pre)
                       = blen pre + blen s).
        { rewrite writePaddedString_app. apply indexOf0_app. assumption. }
        pose proof (blen_nonneg pre) as Hp0. pose proof (blen_nonneg s) as Hs0.
        rewrite parse_args_string; [|assumption|rewrite Hidx; lia].
        rewrite Hidx.
        replace (toString (pre ++ writePaddedString s ++ y') (blen pre) (blen pre + blen s))
          with s.
        2:{ rewrite writePaddedString_shape, <- app_assoc. symmetry. apply toString_app. }
        rewrite <- Z.add_assoc, ceil4_shift by assumption.
        rewrite <- blen_writePaddedString. rewrite app_assoc.
        destruct (Hnext (acc ++ [VString s])) as (vs & rest & E1 & E2).
        { rewrite blen_writePaddedString. apply ceil4_multiple. }
        exists (VString s :: vs), rest. rewrite E1, E2, <- app_assoc. split; reflexivity.
      * inversion Ea; subst x. simpl app in *.
        rewrite parse_args_skip; try discriminate; [|assumption].
        simpl length in y'. unfold y'. rewrite Nat.sub_0_r.
        apply IH; [assumption|assumption|reflexivity].
      * inversion Ea; subst x. simpl app in *.
        rewrite parse_args_skip; try discriminate; [|assumption].
        simpl length in y'. unfold y'. rewrite Nat.sub_0_r.
        apply IH; [assumption|assumption|reflexivity].
    + replace (k - length x)%nat with 0%nat in * by lia.
      simpl firstn in *. rewrite app_nil_r in *.
      destruct a; simpl in Ea, Hwa.
      * inversion Ea; subst x. apply Hstop. apply parse_args_float_break.
        rewrite blen_app. unfold blen at 2. rewrite length_firstn.
        simpl length in Hcut |- *. lia.
      * apply intToBuffer_some in Ea. destruct Ea as [_ ->]. apply Hstop.
        apply parse_args_int_break.
        rewrite blen_app. unfold blen at 2. rewrite length_firstn.
        simpl length in Hcut |- *. lia.
      * inversion Ea; subst x. rewrite writePaddedString_shape in *.
        destruct (Nat.le_gt_cases k (length s)) as [Hin|Hout].
        -- apply Hstop. apply parse_args_string_break.
           rewrite firstn_app in *. replace (k - length s)%nat with 0%nat in * by lia.
           simpl firstn in *. rewrite app_nil_r in *.
           apply indexOf0_no_nul_tail; [apply Forall_firstn_nonzero; assumption|].
           intros E. rewrite E, app_nil_r in Hmore. lia.
        -- rewrite firstn_app, firstn_all2 by lia.
           replace (k - length s)%nat with (S (k - length s - 1)) by lia.
           cbn [firstn].
           set (pad := firstn (k - length s - 1) (alloc (pad4 (blen s + 1)))).
           assert (Hidx : indexOf0 (pre ++ s ++ 0 :: pad) (blen pre) = blen pre + blen s)
             by (apply indexOf0_app; assumption).
           pose proof (blen_nonneg pre) as Hp0. pose proof (blen_nonneg s) as Hs0.
           assert (Hlt : blen pre < blen (pre ++ s ++ 0 :: pad)).
           { rewrite !blen_app, blen_cons. pose proof (blen_nonneg pad). lia. }
           change (map type_code (ArgString s :: args)) with (ch_s :: map type_code args).
           rewrite parse_args_string; [|exact Hlt|rewrite Hidx; lia].
           rewrite Hidx.
           replace (toString (pre ++ s ++ 0 :: pad) (blen pre) (blen pre + blen s)) with s
             by (symmetry; apply toString_app).
           rewrite parse_args_end.
           ++ exists [VString s], (arg_values args). split; reflexivity.
           ++ rewrite <- Z.add_assoc, ceil4_shift by assumption.
              rewrite !blen_app, blen_cons.
              destruct (pad4_spec (blen s + 1)) as [Hp He]; [lia|].
              assert (Hpad : blen pad <= pad4 (blen s + 1)).
              { unfold pad. unfold blen in *. rewrite length_firstn. unfold alloc.
                rewrite repeat_length.
                pose proof (Nat.le_min_r (k - length s - 1) (Z.to_nat (pad4 (blen s + 1)))).
                lia. }
              lia.
      * inversion Ea; subst x. simpl in Hcut. lia.
      * inversion Ea; subst x. simpl in Hcut. lia.
Qed.

(** The address and type-tag blocks of an encoded message are read back
    whatever follows them. *)
Lemma parse_header (address types : list Z) (tail : Buffer) :
  Forall (fun c => c <> 0) address ->
  Forall (fun c => c <> 0) types ->
  let header := writePaddedString address ++ typeBuf types in
  parseOscMessage (header ++ tail)
  = match parse_args (header ++ tail) types (blen header) [] with
    | Some args => Parsed (mkMessage address types args)
    | None => Throws
    end.
Proof.
  intros Haddr Htypes header. unfold header. rewrite <- app_assoc.
  set (A := writePaddedString address). set (T := typeBuf types).
  pose proof (blen_nonneg address) as Ha0.
  assert (HA : blen A = ceil4 (blen address + 1)) by apply blen_writePaddedString.
  assert (HAm : blen A mod 4 = 0) by (rewrite HA; apply ceil4_multiple).
  assert (HT : 0 < blen T) by apply writePaddedString_positive.
  unfold parseOscMessage.
  assert (E1 : indexOf0 (A ++ T ++ tail) 0 = blen address).
  { unfold A. rewrite writePaddedString_app. exact (indexOf0_app [] address _ Haddr). }
  rewrite E1.
  destruct (Z.eqb_spec (blen address) (-1)); [lia|].
  assert (E2 : toString (A ++ T ++ tail) 0 (blen address) = address).
  { unfold A. rewrite writePaddedString_shape, <- app_assoc.
    exact (toString_app [] address _). }
  rewrite E2, <- HA.
  destruct (Z.leb_spec (blen (A ++ T ++ tail)) (blen A)) as [L|_].
  { rewrite !blen_app in L. pose proof (blen_nonneg tail). lia. }
  set (tag := ch_comma :: types).
  assert (Htag : Forall (fun c => c <> 0) tag) by (constructor; [discriminate|exact Htypes]).
  assert (E3 : indexOf0 (A ++ T ++ tail) (blen A) = blen A + blen tag).
  { unfold T, typeBuf. fold tag. rewrite writePaddedString_app. apply indexOf0_app. exact Htag. }
  rewrite E3. pose proof (blen_nonneg A) as HA0. pose proof (blen_nonneg tag) as Ht0.
  destruct (Z.eqb_spec (blen A + blen tag) (-1)); [lia|].
  assert (E4 : toString (A ++ T ++ tail) (blen A) (blen A + blen tag) = tag).
  { unfold T, typeBuf. fold tag. rewrite writePaddedString_shape, <- app_assoc.
    apply toString_app. }
  rewrite E4. simpl tl.
  rewrite <- Z.add_assoc, ceil4_shift by assumption.
  replace (ceil4 (blen tag + 1)) with (blen T)
    by (unfold T, typeBuf; fold tag; apply blen_writePaddedString).
  rewrite <- blen_app. reflexivity.
Qed.

(** X10.  An encoded message cut short anywhere in its argument bytes is not
    an error: the decoder returns the same address and type list, and the
    arguments that are complete, in order, a leading part of the arguments
    that were encoded. *)
Theorem truncated_message_decodes_to_a_prefix (address : list Z) (args : list osc_arg)
    (bs : Buffer) (k : nat) :
  Forall (fun c => c <> 0) address ->
  Forall wf_arg args ->
  argBufs args = Some bs ->
  exists vs rest,
    parseOscMessage
      (writePaddedString address ++ typeBuf (map type_code args) ++ firstn k bs)
    = Parsed (mkMessage address (map type_code args) vs) /\
    arg_values args = vs ++ rest.
Proof.
  intros Haddr Hwf Hbs.
  pose proof (type_codes_nonzero args) as Hcodes. inversion Hcodes as [|? ? _ Htypes]; subst.
  pose proof (parse_header address (map type_code args) (firstn k bs) Haddr Htypes) as Hh.
  cbv zeta in Hh. rewrite <- app_assoc in Hh. rewrite Hh.
  destruct (parse_args_truncated args
              (writePaddedString address ++ typeBuf (map type_code args)) bs k []) as
    (vs & rest & E1 & E2); [|assumption|assumption|].
  - rewrite blen_app, Z.add_mod by discriminate. unfold typeBuf.
    rewrite !blen_writePaddedString, !ceil4_multiple. reflexivity.
  - exists vs, rest. rewrite <- app_assoc in E1. rewrite E1. split; [reflexivity|exact E2].
Qed.

Lemma truncated_message_decodes_to_a_prefix_witness :
  let args := [ArgFloat 1069547520; ArgString [104; 105]; ArgInt 7] in
  Forall (fun c => c <> 0) [47; 97] /\
  Forall wf_arg args /\
  argBufs args = Some [63; 192; 0; 0; 104; 105; 0; 0; 0; 0; 0; 7] /\
  parseOscMessage
    (writePaddedString [47; 97] ++ typeBuf (map type_code args)
       ++ firstn 10 [63; 192; 0; 0; 104; 105; 0; 0; 0; 0; 0; 7])
  = Parsed (mkMessage [47; 97] [ch_f; ch_s; ch_i] [VFloat 1069547520; VString [104; 105]]) /\
  exists vs rest,
    parseOscMessage
      (writePaddedString [47; 97] ++ typeBuf (map type_code args)
         ++ firstn 10 [63; 192; 0; 0; 104; 105; 0; 0; 0; 0; 0; 7])
    = Parsed (mkMessage [47; 97] (map type_code args) vs) /\
    arg_values args = vs ++ rest.
Proof.
  intros args.
  assert (Ha : Forall (fun c => c <> 0) [47; 97]) by (repeat constructor; discriminate).
  assert (Hw : Forall wf_arg args).
  { repeat constructor; simpl; try lia; discriminate. }
  assert (Hb : argBufs args = Some [63; 192; 0; 0; 104; 105; 0; 0; 0; 0; 0; 7]) by reflexivity.
  split; [exact Ha|]. split; [exact Hw|]. split; [exact Hb|]. split; [reflexivity|].
  exact (truncated_message_decodes_to_a_prefix [47; 97] args _ 10 Ha Hw Hb).
Defined.

End OscTruncation.

(** ** Camera state: histories of mutations *)

Section FloatAddition.

Lemma iter_pos_preserves {A : Type} (P : A -> Prop) (f : A -> A) :
  (forall x, P x -> P (f x)) -> forall n x, P x -> P (iter_pos f n x).
Proof.
  intros Hf. induction n as [n IH|n IH|]; intros x Hx; simpl.
  - apply IH, IH, Hf, Hx.
  - apply IH, IH, Hx.
  - apply Hf, Hx.
Qed.

Lemma shr_1_nonneg (mrs : shr_record) : 0 <= shr_m mrs -> 0 <= shr_m (shr_1 mrs).
Proof.
  destruct mrs as [m r s]. simpl. intros H.
  destruct m as [|p|p]; [simpl; lia| |lia].
  destruct p; simpl; lia.
Qed.

Lemma shr_nonneg (mrs : shr_record) (e n : Z) :
  0 <= shr_m mrs -> 0 <= shr_m (fst (shr mrs e n)).
Proof.
  intros H. unfold shr. destruct n as [|p|p]; simpl; try exact H.
  apply (iter_pos_preserves (fun x => 0 <= shr_m x)); [exact shr_1_nonneg|exact H].
Qed.

Lemma shr_fexp_nonneg (pr em m e : Z) (l : location) :
  0 <= m -> 0 <= shr_m (fst (shr_fexp pr em m e l)).
Proof.
  intros H. unfold shr_fexp. apply shr_nonneg.
  destruct l as [|[]]; exact H.
Qed.

Lemma round_nearest_even_nonneg (m : Z) (l : location) :
  0 <= m -> 0 <= round_nearest_even m l.
Proof.
  intros H. unfold round_nearest_even.
  destruct l as [|[]]; try lia. destruct (Z.even m); lia.
Qed.

Lemma binary_round_aux_not_nan (pr em : Z) (sx : bool) (mx ex : Z) (lx : location) :
  0 <= mx -> binary_round_aux pr em sx mx ex lx <> S754_nan.
Proof.
  intros H. unfold binary_round_aux.
  pose proof (shr_fexp_nonneg pr em mx ex lx H) as H1.
  destruct (shr_fexp pr em mx ex lx) as [mrs' e']. simpl in H1.
  pose proof (shr_fexp_nonneg pr em _ e' loc_Exact
                (round_nearest_even_nonneg (shr_m mrs') (loc_of_shr_record mrs') H1)) as H2.
  destruct (shr_fexp pr em (round_nearest_even (shr_m mrs') (loc_of_shr_record mrs')) e'
              loc_Exact) as [mrs'' e'']. simpl in H2.
  destruct (shr_m mrs'') as [|p|p]; [discriminate| |lia].
  destruct (e'' <=? em - pr); discriminate.
Qed.

Lemma binary_normalize_not_nan (pr em m e : Z) (szero : bool) :
  binary_normalize pr em m e szero <> S754_nan.
Proof.
  unfold binary_normalize, binary_round. destruct m as [|p|p]; [discriminate| |].
  - destruct (shl_align p e _) as [mz ez]. apply binary_round_aux_not_nan. lia.
  - destruct (shl_align p e _) as [mz ez]. apply binary_round_aux_not_nan. lia.
Qed.

(** A sum is NaN only if a term is NaN or the terms are infinities of
    opposite signs. *)
Lemma SFadd_nan (pr em : Z) (x y : spec_float) :
  SFadd pr em x y = S754_nan ->
  x = S754_nan \/ y = S754_nan \/
  (exists s, x = S754_infinity s /\ y = S754_infinity (negb s)).
Proof.
  destruct x as [sx|sx| |sx mx ex], y as [sy|sy| |sy my ey]; simpl; intros H;
    try (left; reflexivity); try (right; left; reflexivity); try discriminate H.
  - destruct sx, sy; discriminate H.
  - right. right. destruct sx, sy; try discriminate H.
    + exists true. split; reflexivity.
    + exists false. split; reflexivity.
  - exfalso. exact (binary_normalize_not_nan _ _ _ _ _ H).
Qed.

Lemma is_nan_spec (x : float) : is_nan x = true <-> Prim2SF x = S754_nan.
Proof.
  split; [apply nan_spec|].
  intros H. destruct (is_nan x) eqn:E; [reflexivity|].
  exfalso. exact (not_nan_spec x E H).
Qed.

(** A number between two finite bounds is neither NaN nor an infinity. *)
Lemma between_finite (lo hi z : float) :
  (exists s m e, Prim2SF lo = S754_finite s m e) ->
  (exists s m e, Prim2SF hi = S754_finite s m e) ->
  ((lo <=? z) && (z <=? hi))%float = true ->
  exists s m e, Prim2SF z = S754_finite s m e \/ Prim2SF z = S754_zero s.
Proof.
  intros (sl & ml & el & Hlo) (sh & mh & eh & Hhi) H.
  apply andb_prop in H. destruct H as [H1 H2].
  rewrite leb_spec in H1, H2. rewrite Hlo in H1. rewrite Hhi in H2.
  destruct (Prim2SF z) as [s|s| |s m e].
  - exists s, 1%positive, 0. right. reflexivity.
  - exfalso. destruct s.
    + unfold SFleb in H1. simpl in H1. discriminate H1.
    + unfold SFleb in H2. simpl in H2. discriminate H2.
  - exfalso. unfold SFleb in H1. simpl in H1. discriminate H1.
  - exists s, m, e. left. reflexivity.
Qed.

(** Adding a number that is not NaN to a number between finite bounds does
    not give NaN. *)
Lemma add_not_nan (lo hi z d : float) :
  (exists s m e, Prim2SF lo = S754_finite s m e) ->
  (exists s m e, Prim2SF hi = S754_finite s m e) ->
  ((lo <=? z) && (z <=? hi))%float = true ->
  is_nan d = false ->
  is_nan (z + d)%float = false.
Proof.
  intros Hlo Hhi Hz Hd.
  destruct (is_nan (z + d)%float) eqn:E; [exfalso|reflexivity].
  apply is_nan_spec in E. rewrite add_spec in E. unfold SF64add in E.
  apply SFadd_nan in E.
  destruct (between_finite lo hi z Hlo Hhi Hz) as (s & m & e & [Hf|Hf]);
    destruct E as [E|[E|(s' & E & _)]]; rewrite ?Hf in E; try discriminate E;
    exact (not_nan_spec d Hd E).
Qed.

End FloatAddition.

Section CameraHistories.

Import Camera.

Lemma finite_20 : exists s m e, Prim2SF 20%float = S754_finite s m e.
Proof. vm_compute. do 3 eexists. reflexivity. Qed.

Lemma finite_150 : exists s m e, Prim2SF 150%float = S754_finite s m e.
Proof. vm_compute. do 3 eexists. reflexivity. Qed.

Lemma finite_1 : exists s m e, Prim2SF 1%float = S754_finite s m e.
Proof. vm_compute. do 3 eexists. reflexivity. Qed.

Lemma finite_179 : exists s m e, Prim2SF 179%float = S754_finite s m e.
Proof. vm_compute. do 3 eexists. reflexivity. Qed.

Lemma leb_not_nan_r (x y : float) : (x <=? y)%float = true -> is_nan y = false.
Proof.
  intros H. destruct (is_nan y) eqn:E; [|reflexivity].
  rewrite leb_spec, (nan_spec y E) in H. unfold SFleb in H.
  destruct (Prim2SF x); discriminate H.
Qed.

Lemma leb_not_ltb (x y : float) : (x <=? y)%float = true -> (y <? x)%float = false.
Proof.
  rewrite leb_spec, ltb_spec. unfold SFleb, SFltb.
  rewrite (SFcompare_swap (Prim2SF x) (Prim2SF y)).
  destruct (SFcompare (Prim2SF x) (Prim2SF y)) as [[| |]|]; simpl; intros H;
    try reflexivity; discriminate H.
Qed.

Lemma in_range_not_nan (st : state) : in_range st = true -> is_nan (zoom st) = false.
Proof.
  unfold in_range. intros H. apply andb_prop in H. destruct H as [H _].
  exact (leb_not_nan_r _ _ H).
Qed.

(** One [/api/move] with JSON numbers, from a zoom in the range. *)
Lemma api_move_in_range (st : state) (body : move_body) :
  in_range st = true -> nan_free body -> in_range (api_move st body) = true.
Proof.
  intros Hst [Hz Hd]. unfold api_move, in_range. simpl zoom.
  match goal with
  | |- context [ (150 <? (if (?z <? 20)%float then _ else _))%float ] =>
      pose proof (clamp_tests z) as H; cbv zeta in H;
      assert (Hn : is_nan z = false)
  end.
  - destruct (absolute body).
    + destruct (body_zoom body) as [v|] eqn:Ev; [|exact (in_range_not_nan st Hst)].
      pose proof (clamp_min_max v) as Hv. cbv zeta in Hv. rewrite (Hz v eq_refl) in Hv.
      apply andb_prop in Hv. destruct Hv as [Hv _]. exact (leb_not_nan_r _ _ Hv).
    + destruct (body_dzoom body) as [d|] eqn:Ed; [|exact (in_range_not_nan st Hst)].
      exact (add_not_nan 20 150 (zoom st) d finite_20 finite_150 Hst (Hd d eq_refl)).
  - rewrite Hn in H. exact H.
Qed.

(** X11.  Moves alone keep the clamp: from a zoom within [20, 150], after any
    sequence of [/api/move] requests whose numbers come from JSON (so none is
    NaN; infinities included), the zoom is within [20, 150]. *)
Theorem moves_keep_zoom_in_range (st : state) (bodies : list move_body) :
  in_range st = true ->
  Forall nan_free bodies ->
  in_range (fold_left api_move bodies st) = true.
Proof.
  intros Hst Hb. revert st Hst. induction Hb as [|body bodies Hbody _ IH]; intros st Hst.
  - exact Hst.
  - simpl. apply IH. apply api_move_in_range; assumption.
Qed.

Lemma moves_keep_zoom_in_range_witness :
  let bodies := [ mkBody false None (Some infinity);
                  mkBody false None (Some (-1000)%float);
                  mkBody true (Some 200%float) (Some 3%float);
                  mkBody false None None ] in
  in_range initial = true /\
  Forall nan_free bodies /\
  zoom (fold_left api_move bodies initial) = 150%float /\
  in_range (fold_left api_move bodies initial) = true.
Proof.
  intros bodies.
  assert (Hb : Forall nan_free bodies).
  { repeat (apply Forall_cons;
              [split; intros v E; simpl in E; inversion E; subst; reflexivity|]).
    apply Forall_nil. }
  split; [reflexivity|]. split; [exact Hb|]. split; [reflexivity|].
  exact (moves_keep_zoom_in_range initial bodies eq_refl Hb).
Defined.

(** X12.  A move that carries no zoom field (a pose move) leaves a zoom that
    is within the range exactly as it was. *)
Theorem pose_move_leaves_zoom (st : state) (body : move_body) :
  in_range st = true ->
  body_zoom body = None -> body_dzoom body = None ->
  api_move st body = st.
Proof.
  intros Hst Hz Hd. unfold api_move. rewrite Hz, Hd.
  unfold in_range in Hst. apply andb_prop in Hst. destruct Hst as [H1 H2].
  assert (E : (if absolute body then zoom st else zoom st) = zoom st)
    by (destruct (absolute body); reflexivity).
  rewrite E, (leb_not_ltb _ _ H1), (leb_not_ltb _ _ H2).
  destruct st. reflexivity.
Qed.

Lemma pose_move_leaves_zoom_witness :
  in_range (mkState 77.5%float) = true /\
  api_move (mkState 77.5%float) (mkBody false None None) = mkState 77.5%float.
Proof.
  split; [reflexivity|].
  exact (pose_move_leaves_zoom (mkState 77.5%float) (mkBody false None None)
           eq_refl eq_refl eq_refl).
Defined.

Lemma add_nan_l (z d : float) : is_nan z = true -> is_nan (z + d)%float = true.
Proof.
  intros H. apply is_nan_spec. rewrite add_spec, (nan_spec z H). reflexivity.
Qed.

(** X13.  A NaN zoom is not repaired by moves: after any sequence of
    [/api/move] requests that are deltas, or absolute without a zoom field,
    the zoom is still NaN.  (Only an absolute move with a zoom field, or an
    OSC zoom message, overwrites it.) *)
Theorem nan_zoom_survives_moves (st : state) (bodies : list move_body) :
  is_nan (zoom st) = true ->
  Forall (fun body => absolute body = false \/ body_zoom body = None) bodies ->
  is_nan (zoom (fold_left api_move bodies st)) = true.
Proof.
  intros Hst Hb. revert st Hst. induction Hb as [|body bodies Hbody _ IH]; intros st Hst.
  - exact Hst.
  - simpl. apply IH. unfold api_move. simpl zoom.
    match goal with
    | |- context [ (150 <? (if (?z <? 20)%float then _ else _))%float ] =>
        pose proof (clamp_tests z) as H; cbv zeta in H;
        assert (Hn : is_nan z = true)
    end.
    + destruct (absolute body) eqn:Ea.
      * destruct Hbody as [Hbody|Hbody]; [discriminate Hbody|]. rewrite Hbody. exact Hst.
      * destruct (body_dzoom body) as [d|]; [exact (add_nan_l _ d Hst)|exact Hst].
    + rewrite Hn in H. exact H.
Qed.

Lemma nan_zoom_survives_moves_witness :
  let bodies := [mkBody false None (Some 5%float); mkBody true None None;
                 mkBody false (Some 45%float) (Some infinity)] in
  is_nan (zoom (mkState nan)) = true /\
  Forall (fun body => absolute body = false \/ body_zoom body = None) bodies /\
  is_nan (zoom (fold_left api_move bodies (mkState nan))) = true.
Proof.
  intros bodies.
  assert (Hb : Forall (fun body => absolute body = false \/ body_zoom body = None) bodies).
  { repeat (apply Forall_cons; [first [left; reflexivity|right; reflexivity]|]).
    apply Forall_nil. }
  split; [reflexivity|]. split; [exact Hb|].
  exact (nan_zoom_survives_moves (mkState nan) bodies eq_refl Hb).
Defined.

Lemma apply_range_or_nan (string_to_number : list Z -> number) (st : state) (m : mutation) :
  let st' := apply string_to_number st m in
  st' = st \/ in_range st' = true \/ is_nan (zoom st') = true.
Proof.
  intros st'. unfold st'. destruct m as [body|msg]; simpl.
  - right. unfold api_move, in_range. simpl zoom.
    match goal with
    | |- context [ (150 <? (if (?z <? 20)%float then _ else _))%float ] =>
        pose proof (clamp_tests z) as H; cbv zeta in H; destruct (is_nan z)
    end; [right|left]; exact H.
  - unfold osc_message.
    destruct (parseOscMessage msg) as [m| |]; try (left; reflexivity).
    destruct (list_eqb (address m) (bytes_of "/usercamera/Pose") && (6 <=? length (args m))%nat);
      [left; reflexivity|].
    destruct (list_eqb (address m) (bytes_of "/usercamera/Zoom")); [|left; reflexivity].
    destruct (args m) as [|a0 rest]; [left; reflexivity|].
    right. unfold in_range. simpl zoom.
    pose proof (clamp_min_max (to_number string_to_number a0)) as H. cbv zeta in H.
    destruct (is_nan (to_number string_to_number a0)); [right|left]; exact H.
Qed.

(** X14.  Whatever arrives, in any order, over [/api/move] and over OSC:
    after every mutation the zoom is within [20, 150] or it is NaN; no other
    value (an infinity, a number outside the range) is ever stored. *)
Theorem zoom_in_range_or_nan (string_to_number : list Z -> number)
    (history : list mutation) :
  let st := fold_left (apply string_to_number) history initial in
  in_range st = true \/ is_nan (zoom st) = true.
Proof.
  cbv zeta.
  assert (H : forall st, in_range st = true \/ is_nan (zoom st) = true ->
            in_range (fold_left (apply string_to_number) history st) = true \/
            is_nan (zoom (fold_left (apply string_to_number) history st)) = true).
  { induction history as [|m history IH]; intros st Hst; [exact Hst|].
    simpl. apply IH.
    destruct (apply_range_or_nan string_to_number st m) as [E|E]; [|exact E].
    rewrite E. exact Hst. }
  apply H. left. reflexivity.
Qed.

End CameraHistories.

Section FovHistories.

Import Camera.

Lemma fov_clamp_tests (z : number) :
  let z1 := if (z <? 1)%float then 1%float else z in
  let z2 := if (179 <? z1)%float then 179%float else z1 in
  if is_nan z then is_nan z2 = true
  else ((1 <=? z2) && (z2 <=? 179))%float = true.
Proof.
  intros z1 z2. unfold z2, z1. destruct (is_nan z) eqn:Hn.
  - rewrite (ltb_nan_l z 1%float Hn), (ltb_nan_r 179%float z Hn). exact Hn.
  - destruct (z <? 1)%float eqn:E1; [reflexivity|].
    destruct (179 <? z)%float eqn:E2; [reflexivity|].
    rewrite (not_ltb_leb z 1%float Hn eq_refl E1), (not_ltb_leb 179%float z eq_refl Hn E2).
    reflexivity.
Qed.

Lemma fov_move_in_range (st : fov_state) (body : fov_body) :
  fov_in_range st = true -> fov_nan_free body -> fov_in_range (fov_move st body) = true.
Proof.
  intros Hst [Hz Hd]. unfold fov_move, fov_in_range. simpl fov.
  assert (Hs : is_nan (fov st) = false).
  { unfold fov_in_range in Hst. apply andb_prop in Hst. destruct Hst as [H _].
    exact (leb_not_nan_r _ _ H). }
  match goal with
  | |- context [ (179 <? (if (?z <? 1)%float then _ else _))%float ] =>
      pose proof (fov_clamp_tests z) as H; cbv zeta in H;
      assert (Hn : is_nan z = false)
  end.
  - destruct (fov_absolute body).
    + destruct (body_fov body) as [v|] eqn:Ev; [exact (Hz v eq_refl)|exact Hs].
    + destruct (body_dfov body) as [d|] eqn:Ed; [|exact Hs].
      exact (add_not_nan 1 179 (fov st) d finite_1 finite_179 Hst (Hd d eq_refl)).
  - rewrite Hn in H. exact H.
Qed.

(** X15.  The earlier server: from a field of view within [1, 179], after any
    sequence of [/api/move] requests whose numbers come from JSON (none is
    NaN), the field of view is within [1, 179]; the unclamped absolute value
    is brought back by the two tests that follow it. *)
Theorem moves_keep_fov_in_range (st : fov_state) (bodies : list fov_body) :
  fov_in_range st = true ->
  Forall fov_nan_free bodies ->
  fov_in_range (fold_left fov_move bodies st) = true.
Proof.
  intros Hst Hb. revert st Hst. induction Hb as [|body bodies Hbody _ IH]; intros st Hst.
  - exact Hst.
  - simpl. apply IH. apply fov_move_in_range; assumption.
Qed.

Lemma moves_keep_fov_in_range_witness :
  let bodies := [ mkFovBody true (Some neg_infinity) None;
                  mkFovBody false None (Some 0.5%float);
                  mkFovBody true (Some 500%float) (Some 3%float) ] in
  fov_in_range fov_initial = true /\
  Forall fov_nan_free bodies /\
  fov (fold_left fov_move bodies fov_initial) = 179%float /\
  fov_in_range (fold_left fov_move bodies fov_initial) = true.
Proof.
  intros bodies.
  assert (Hb : Forall fov_nan_free bodies).
  { repeat (apply Forall_cons;
              [split; intros v E; simpl in E; inversion E; subst; reflexivity|]).
    apply Forall_nil. }
  split; [reflexivity|]. split; [exact Hb|]. split; [reflexivity|].
  exact (moves_keep_fov_in_range fov_initial bodies eq_refl Hb).
Defined.

End FovHistories.

(** ** Capture source probing: the verdict and the fallback chain *)

Section ProbeMore.

Import Probe.

Lemma run_verdict (events : list event) :
  forall p p',
    (hasReceivedFrames p = true \/ testTimeout p = true \/
     captureProcess p && negb (errorOccurred p) = false) ->
    run p events = Some p' ->
    working p'
    = captureProcess p && negb (errorOccurred p) && quiet events
      && (hasReceivedFrames p || output_first events).
Proof.
  induction events as [|e events IH]; intros p p' Hinv Hrun.
  - simpl in Hrun. inversion Hrun; subst p'. unfold working. simpl.
    destruct (hasReceivedFrames p), (errorOccurred p), (captureProcess p); reflexivity.
  - simpl in Hrun. destruct (step p e) as [p1|] eqn:Es; [|discriminate].
    destruct e as [chunk|flagged| |code|]; simpl in Es.
    + destruct (on_data (buffer p) chunk) as [[b f]|]; [|discriminate].
      inversion Es; subst p1. rewrite (IH _ _) with (2 := Hrun).
      * simpl. rewrite orb_true_r, !andb_true_r. reflexivity.
      * left. reflexivity.
    + inversion Es; subst p1. rewrite (IH _ _) with (2 := Hrun).
      * simpl. destruct (captureProcess p), (errorOccurred p), flagged, (quiet events),
          (hasReceivedFrames p), (output_first events); reflexivity.
      * simpl. destruct Hinv as [H|[H|H]]; [left; exact H|right; left; exact H|].
        right. right. destruct (captureProcess p), (errorOccurred p), flagged;
          simpl in *; try reflexivity; discriminate H.
    + inversion Es; subst p1. rewrite (IH _ _) with (2 := Hrun).
      * simpl. rewrite !andb_false_r. reflexivity.
      * right. right. reflexivity.
    + inversion Es; subst p1. rewrite (IH _ _) with (2 := Hrun).
      * simpl. rewrite !andb_false_r. reflexivity.
      * right. right. reflexivity.
    + destruct (testTimeout p) eqn:Et.
      * inversion Es; subst p1. rewrite (IH _ _) with (2 := Hrun).
        -- simpl. destruct (captureProcess p), (errorOccurred p), (quiet events),
             (hasReceivedFrames p), (output_first events); reflexivity.
        -- simpl. destruct (hasReceivedFrames p); [left; reflexivity|].
           right. right. destruct (captureProcess p), (errorOccurred p); reflexivity.
      * inversion Es; subst p1.
        assert (Hinv' : hasReceivedFrames p = true \/ testTimeout p = true \/
                        captureProcess p && negb (errorOccurred p) = false).
        { destruct Hinv as [H|[H|H]];
            [left; exact H|discriminate H|right; right; exact H]. }
        rewrite (IH _ _ Hinv' Hrun). simpl.
        destruct Hinv as [H|[H|H]].
        -- rewrite H. reflexivity.
        -- discriminate H.
        -- rewrite H. reflexivity.
Qed.

(** X16.  The verdict of the direct probe, read off the events handled before
    its timer: it is favourable exactly when no process error, exit or
    flagged error message occurred, and a chunk of output arrived (before the
    no-output timer, had that one fired first).  Nothing else matters: not
    the content of the chunks, not unflagged messages. *)
Theorem direct_probe_verdict (currentFrameBuffer : option Buffer) (events : list event) :
  exists p,
    tryDirectSpoutCapture currentFrameBuffer events
    = Some (quiet events && output_first events, p).
Proof.
  destruct (run_total events (started currentFrameBuffer)) as [p Hrun].
  exists p. unfold tryDirectSpoutCapture. rewrite Hrun.
  rewrite (run_verdict events (started currentFrameBuffer) p); [reflexivity| |exact Hrun].
  right. left. reflexivity.
Qed.

Lemma direct_probe_run (events : list event) :
  exists p,
    run (started None) events = Some p /\
    tryDirectSpoutCapture None events = Some (quiet events && output_first events, p).
Proof.
  destruct (run_total events (started None)) as [p Hrun].
  exists p. split; [exact Hrun|]. unfold tryDirectSpoutCapture. rewrite Hrun.
  rewrite (run_verdict events (started None) p); [reflexivity| |exact Hrun].
  right. left. reflexivity.
Qed.

(** X17.  The stream stage is judged on the shared latest-frame slot, so a
    frame left there by the failed direct backend is enough: when the direct
    probe fails after having completed at least one frame, and the stream
    capture starts, the manager keeps the stream backend whatever the stream
    delivers, even nothing. *)
Theorem stream_accepted_on_stale_frame (direct : list event) (stream : list Buffer)
    (obsResult desktopResult : bool) (b : Buffer) (frame : Buffer) (frames : list Buffer) :
  quiet direct && output_first direct = false ->
  feed [] (stdout_chunks direct) = Some (b, frame :: frames) ->
  startSpoutCapture direct true stream obsResult desktopResult = Some (Some HttpStream).
Proof.
  intros Hv Hf. unfold startSpoutCapture.
  destruct (direct_probe_run direct) as [p [Hrun Ht]].
  rewrite Ht, Hv.
  destruct (run_slot direct _ p Hrun) as (f1 & E1 & C1 & _).
  simpl in E1, C1. rewrite Hf in E1. inversion E1; subst f1.
  destruct (feed [] stream) as [[b2 f2]|] eqn:E2.
  - rewrite C1, <- assign_frames_app, assign_frames_last.
    pose proof (feed_frames_length _ _ _ _ Hf) as F1.
    pose proof (feed_frames_length _ _ _ _ E2) as F2.
    assert (F : Forall (fun f => (4 <= length f)%nat) ((frame :: frames) ++ f2))
      by (apply Forall_app; split; assumption).
    destruct (rev ((frame :: frames) ++ f2)) as [|latest others] eqn:Er.
    + apply (f_equal (@rev Buffer)) in Er. rewrite rev_involutive in Er. discriminate Er.
    + assert (Hin : In latest ((frame :: frames) ++ f2))
        by (apply in_rev; rewrite Er; left; reflexivity).
      rewrite Forall_forall in F. specialize (F latest Hin).
      destruct (Nat.ltb_spec 0 (length latest)); [reflexivity|lia].
  - destruct (emitted_frames_total [] stream) as [r Hr]. rewrite Hr in E2. discriminate E2.
Qed.

End ProbeMore.

Section ProbeChain.

Import Probe.

Lemma stream_accepted_on_stale_frame_witness :
  let direct := [StdoutData [255; 216; 255; 217]; ProcessExit (Some 1)] in
  quiet direct && output_first direct = false /\
  feed [] (stdout_chunks direct) = Some ([], [[255; 216; 255; 217]]) /\
  startSpoutCapture direct true [] false false = Some (Some HttpStream).
Proof.
  intros direct.
  assert (Hv : quiet direct && output_first direct = false) by reflexivity.
  assert (Hf : feed [] (stdout_chunks direct) = Some ([], [[255; 216; 255; 217]]))
    by reflexivity.
  split; [exact Hv|]. split; [exact Hf|].
  exact (stream_accepted_on_stale_frame direct [] false false [] _ [] Hv Hf).
Defined.


End ProbeChain.

(** ** Frame relay: everything a viewer receives *)

Section RelayMore.

Import Relay.

Lemma run_writes (events : list event) :
  forall b b' out,
    (forall f, currentFrameBuffer b = Some f -> delimited f) ->
    run b events = Some (b', out) ->
    Forall (fun w => snd w = [] \/ exists f, delimited f /\ snd w = segment f) out.
Proof.
  induction events as [|e events IH]; intros b b' out Hslot Hrun.
  - inversion Hrun; subst. constructor.
  - simpl in Hrun. destruct (step b e) as [[b1 o1]|] eqn:Es; [|discriminate].
    destruct (run b1 events) as [[b2 o2]|] eqn:Er; [|discriminate].
    inversion Hrun; subst. apply Forall_app. split.
    + destruct e as [chunk|viewer]; simpl in Es.
      * destruct (on_data (buffer b) chunk) as [[bb ff]|]; [|discriminate].
        inversion Es; subst. constructor.
      * inversion Es; subst. constructor; [|constructor]. simpl.
        unfold sendFrame. destruct (currentFrameBuffer b1) as [f|] eqn:Ef; [|left; reflexivity].
        destruct (0 <? length f)%nat; [|left; reflexivity].
        right. exists f. split; [exact (Hslot f eq_refl)|reflexivity].
    + apply (IH b1 b' o2); [|exact Er].
      destruct e as [chunk|viewer]; simpl in Es.
      * destruct (on_data (buffer b) chunk) as [[bb ff]|] eqn:Ed; [|discriminate].
        inversion Es; subst. simpl. intros f Hf.
        rewrite assign_frames_last in Hf.
        pose proof (on_data_delimited _ _ _ _ Ed) as Hd.
        destruct (rev ff) as [|x r] eqn:Erev; [exact (Hslot f Hf)|].
        inversion Hf; subst x. rewrite Forall_forall in Hd. apply Hd.
        apply in_rev. rewrite Erev. left. reflexivity.
      * inversion Es; subst. exact Hslot.
Qed.

(** X19.  Everything the relay writes to its viewers: over any sequence of
    chunks and ticks, each tick writes nothing or one segment that carries a
    whole frame, opening with the start marker and closing with the end
    marker, under a [Content-Length] equal to its size.  No partial frame and
    no stray bytes of the capture stream reach a viewer. *)
Theorem viewers_receive_whole_frames (events : list event) :
  exists b out,
    run initial events = Some (b, out) /\
    Forall (fun w =>
              snd w = [] \/
              exists body,
                let frame := 255 :: 216 :: body ++ [255; 217] in
                snd w = [ Text ("--frame" ++ crlf)%string;
                          Text ("Content-Type: image/jpeg" ++ crlf)%string;
                          Text ("Content-Length: " ++ decimal (length frame)
                                  ++ crlf ++ crlf)%string;
                          Bytes frame;
                          Text crlf ]) out.
Proof.
  destruct (run_feed events initial) as (b & out & frames & Er & _).
  exists b, out. split; [exact Er|].
  assert (H : Forall (fun w => snd w = [] \/ exists f, delimited f /\ snd w = segment f) out).
  { apply (run_writes events initial b out); [|exact Er]. intros f Hf. discriminate Hf. }
  rewrite Forall_forall in *. intros w Hw. destruct (H w Hw) as [E|(f & (body & Ef & _) & E)].
  - left. exact E.
  - right. exists body. cbv zeta. rewrite E, Ef. reflexivity.
Qed.

End RelayMore.
